(** * Poll: a self-scheduling, backoff-aware polling primitive

    Shallow embedding of the [Poll] class of
    [src/packages/toc/src/toc_item.tsx] (second document of that file) and
    of the private helpers it uses, followed by the properties of the
    specification that are settled on it.

    Modelling conventions.
    - A JavaScript [number] is a rational extended with [+Infinity],
      [-Infinity] and [NaN]. Comparisons, [Math.floor], [Math.ceil],
      [Math.round] and [Math.min] are exact on doubles and are computed
      exactly; [+], [-] and [*] round their exact result to the nearest
      binary64 value, ties to the even significand, and overflow to an
      infinity, as IEEE 754 does. The doubles are among the rationals; the
      sign of zero is not modelled.
    - [Math.random()] and [new Date().getTime()] are inputs: the random
      draw travels with the event that needs it, the clock is a field of
      the host.
    - A [PromiseDelegate] is an identity (a key) whose settlement is kept
      in a store; an [async] method is cut at its [await]s and the rest of
      the call is kept as a continuation that the host resumes once the
      awaited promise has settled.
    - Timers and animation frames are two tables of the host, keyed by the
      handle that [setTimeout] / [requestAnimationFrame] returned.
    - Signal listeners are outside of the poll: an emission is recorded in
      a log and listeners do not call back into the poll while it emits.
    - The host may resume any suspended call whose promise has settled and
      run any armed closure at any moment; the orders in which the task
      queues of JavaScript run them are among these. Where a property
      depends on the order of the job queue, [in_order] keeps the runs in
      which the suspended calls are resumed first in, first out. *)

From Stdlib Require Import ZArith QArith Qround Lia String Bool.
From stdpp Require Import base option list gmap strings.

Local Open Scope Z_scope.

(** ** JavaScript numbers *)

Module JS.

Inductive number : Type :=
| Fin (q : Q)
| PInf
| NInf
| NaN.

Definition of_Z (z : Z) : number := Fin (inject_Z z).

Definition Qlt_bool (x y : Q) : bool := negb (Qle_bool y x).

(** [a < b] *)
Definition lt (a b : number) : bool :=
match a, b with
| NaN, _ | _, NaN => false
| Fin x, Fin y => Qlt_bool x y
| _, NInf => false
| NInf, _ => true
| PInf, _ => false
| Fin _, PInf => true
end.

(** [a > b] *)
Definition gt (a b : number) : bool := lt b a.

(** [a <= b] *)
Definition le (a b : number) : bool :=
match a, b with
| NaN, _ | _, NaN => false
| Fin x, Fin y => Qle_bool x y
| NInf, _ => true
| _, PInf => true
| _, NInf => false
| PInf, _ => false
end.

(** [a >= b] *)
Definition ge (a b : number) : bool := le b a.

(** [a === b] on numbers *)
Definition seq (a b : number) : bool :=
match a, b with
| Fin x, Fin y => Qeq_bool x y
| PInf, PInf => true
| NInf, NInf => true
| _, _ => false
end.

Definition isNaN (a : number) : bool :=
match a with NaN => true | _ => false end.

Definition neg (a : number) : number :=
match a with
| Fin q => Fin (- q)
| PInf => NInf
| NInf => PInf
| NaN => NaN
end.

(** *** Rounding to binary64 *)

(** [2 ^ e] for any integer [e]. *)
Definition pow2 (e : Z) : Q :=
if 0 <=? e then inject_Z (2 ^ e) else 1 # Z.to_pos (2 ^ (- e)).

(** The exponent [e] with [2 ^ e <= q < 2 ^ (e + 1)], for [q > 0]. *)
Definition ilog2 (q : Q) : Z :=
let e := Z.log2 (Qnum q) - Z.log2 (Zpos (Qden q)) in
if Qle_bool (pow2 e) q then e else e - 1.

(** The integer nearest to [t >= 0], the even one of two that are equally
    near. *)
Definition round_even (t : Q) : Z :=
let k := Qfloor t in
match (t - inject_Z k ?= 1 # 2)%Q with
| Lt => k
| Gt => k + 1
| Eq => if Z.even k then k else k + 1
end.

(** The multiple of the unit in the last place nearest to [a > 0]: a
    binary64 value has a significand of 53 bits, and its unit in the last
    place is no smaller than [2 ^ -1074]. *)
Definition nearest (a : Q) : Q :=
let ulp := pow2 (Z.max (ilog2 a - 52) (-1074)) in
Qred (inject_Z (round_even (a / ulp)) * ulp).

(** The binary64 value of the exact result [q] of an operation: rounded to
    nearest, ties to even, an infinity from [2 ^ 1024] on. *)
Definition round64 (q : Q) : number :=
if Qeq_bool q 0 then Fin 0
else if Qlt_bool 0 q
then let v := nearest q in
     if Qle_bool (pow2 1024) v then PInf else Fin v
else let v := nearest (- q) in
     if Qle_bool (pow2 1024) v then NInf else Fin (- v).

(** [a + b] *)
Definition add (a b : number) : number :=
match a, b with
| NaN, _ | _, NaN => NaN
| Fin x, Fin y => round64 (x + y)
| PInf, NInf | NInf, PInf => NaN
| PInf, _ | _, PInf => PInf
| NInf, _ | _, NInf => NInf
end.

(** [a - b] *)
Definition sub (a b : number) : number := add a (neg b).

(** The product of an infinity (positive when [pos]) and a finite [q]. *)
Definition inf_times (pos : bool) (q : Q) : number :=
if Qeq_bool q 0 then NaN
else if xorb pos (Qlt_bool q 0) then PInf else NInf.

(** [a * b] *)
Definition mul (a b : number) : number :=
match a, b with
| NaN, _ | _, NaN => NaN
| Fin x, Fin y => round64 (x * y)
| PInf, Fin q | Fin q, PInf => inf_times true q
| NInf, Fin q | Fin q, NInf => inf_times false q
| PInf, PInf | NInf, NInf => PInf
| PInf, NInf | NInf, PInf => NInf
end.

Definition Math_floor (a : number) : number :=
match a with Fin q => of_Z (Qfloor q) | _ => a end.

Definition Math_ceil (a : number) : number :=
match a with Fin q => of_Z (Qceiling q) | _ => a end.

(** [Math.round] rounds half-way cases towards [+Infinity]. *)
Definition Math_round (a : number) : number :=
match a with Fin q => of_Z (Qfloor (q + (1 # 2))) | _ => a end.

Definition Math_min (a b : number) : number :=
match a, b with
| NaN, _ | _, NaN => NaN
| _, _ => if lt b a then b else a
end.

End JS.

Import JS.

(** ** Completion of a call that may throw *)

Inductive Completion (A : Type) : Type :=
| Normal (a : A)
| Throw (message : string).
Arguments Normal {A} a.
Arguments Throw {A} message.

(** ** IPoll: frequency, phase, state *)

Inductive Backoff : Type :=
| BBool (b : bool)
| BNum (n : number).

Module Frequency.
Record t : Type := mk {
  backoff : Backoff;
  interval : number;
  max : number
}.
End Frequency.

Module Phase.
Inductive t : Type :=
| constructed
| disposed
| reconnected
| refreshed
| rejected
| resolved
| standby
| started
| stopped
| when_rejected
| when_resolved.

#[global] Instance eq_dec : EqDecision t.
Proof. solve_decision. Defined.
End Phase.

Definition phase_is (a b : Phase.t) : bool := bool_decide (a = b).

Module State.
(** [payload] is [None] for JavaScript's [null], [Some (inl v)] for a
    resolution of type [T] and [Some (inr e)] for a rejection of type
    [U]. *)
Record t (T U : Type) : Type := mk {
  interval : number;
  payload : option (T + U);
  phase : Phase.t;
  timestamp : Z
}.
Arguments mk {T U} _ _ _ _.
Arguments interval {T U} _.
Arguments payload {T U} _.
Arguments phase {T U} _.
Arguments timestamp {T U} _.
End State.

(** ** Namespace [Poll] (statics) and namespace [Private] *)

Inductive Standby : Type :=
| never
| when_hidden.

Definition MAX_INTERVAL : number := of_Z 2147483647.

Module Private.

Definition IMMEDIATE : number := of_Z 0.

Definition NEVER : number := PInf.

Definition DEFAULT_BACKOFF : number := of_Z 3.

Definition DEFAULT_FREQUENCY : Frequency.t :=
  Frequency.mk (BBool true) (of_Z 1000) (of_Z (30 * 1000)).

Definition DEFAULT_NAME : string := "unknown".

Definition DEFAULT_STANDBY : Standby := when_hidden.

Definition DEFAULT_STATE {T U : Type} : State.t T U :=
  State.mk NEVER None Phase.constructed 0.

Definition DISPOSED_STATE {T U : Type} : State.t T U :=
  State.mk NEVER None Phase.disposed 0.

(** [random] is the value returned by [Math.random()]. *)
Definition getRandomIntInclusive (random : number) (min max : number)
  : number :=
  let min := Math_ceil min in
  let max := Math_floor max in
  add (Math_floor (mul random (add (sub max min) (of_Z 1)))) min.

(** The [growth] constant that [sleep] computes from [backoff]. *)
Definition growth (backoff : Backoff) : number :=
  match backoff with
  | BBool true => DEFAULT_BACKOFF
  | BBool false => of_Z 1
  | BNum n => n
  end.

Definition sleep {T U : Type} (random : number)
  (frequency : Frequency.t) (last : State.t T U) : number :=
  let backoff := Frequency.backoff frequency in
  let interval := Frequency.interval frequency in
  let max := Frequency.max frequency in
  let growth := growth backoff in
  let random :=
    getRandomIntInclusive random interval
      (mul (State.interval last) growth) in
  Math_min max random.

End Private.

(** ** Partial states, options *)

Module Next.
(** [Partial<IPoll.State & { cancel }>], the argument of [schedule]: an
    absent key is [None]. *)
Record t (T U : Type) : Type := mk {
  cancel : option (State.t T U -> bool);
  interval : option number;
  payload : option (option (T + U));
  phase : option Phase.t;
  timestamp : option Z
}.
Arguments mk {T U} _ _ _ _ _.
Arguments cancel {T U} _.
Arguments interval {T U} _.
Arguments payload {T U} _.
Arguments phase {T U} _.
Arguments timestamp {T U} _.

(** [{}], the default argument of [schedule]. *)
Definition empty {T U : Type} : t T U := mk None None None None None.
End Next.

Module PartialFrequency.
(** [Partial<IPoll.Frequency>]. *)
Record t : Type := mk {
  backoff : option Backoff;
  interval : option number;
  max : option number
}.

(** [{}] *)
Definition empty : t := mk None None None.

(** [{ ...base, ...partial }] *)
Definition over (base : Frequency.t) (partial : t) : Frequency.t :=
  Frequency.mk
    (default (Frequency.backoff base) (backoff partial))
    (default (Frequency.interval base) (interval partial))
    (default (Frequency.max base) (max partial)).
End PartialFrequency.

(** The part of the host that the standby policy can see. *)
Record Document : Type := { hidden : bool }.

(** What a standby function returns: [boolean | Poll.Standby]. *)
Inductive StandbyResult : Type :=
| RBool (b : bool)
| RStandby (s : Standby).

(** [Poll.Standby | (() => boolean | Poll.Standby)]; a function reads the
    document it is called in. *)
Inductive StandbyPolicy : Type :=
| Literal (s : Standby)
| Function (f : option Document -> StandbyResult).

Module IOptions.
(** [Poll.IOptions] without the factory, which stays with the host;
    [when] tells whether a gate promise was given. *)
Record t : Type := mk {
  frequency : option PartialFrequency.t;
  name : option string;
  standby : option StandbyPolicy;
  when : bool
}.
End IOptions.

(** ** Host tables *)

(** A table of the host with the next fresh key. *)
Record Table (A : Type) : Type := {
  entries : gmap Z A;
  fresh : Z
}.
Arguments entries {A} _.
Arguments fresh {A} _.

Definition table_new {A : Type} (first : Z) : Table A :=
  {| entries := ∅; fresh := first |}.

Definition table_add {A : Type} (a : A) (t : Table A) : Table A :=
  {| entries := <[fresh t := a]> (entries t); fresh := fresh t + 1 |}.

Definition table_set {A : Type} (k : Z) (a : A) (t : Table A) : Table A :=
  {| entries := <[k := a]> (entries t); fresh := fresh t |}.

Definition table_remove {A : Type} (k : Z) (t : Table A) : Table A :=
  {| entries := delete k (entries t); fresh := fresh t |}.

(** Settlement of a promise. *)
Inductive Settlement : Type :=
| Pending
| Fulfilled
| Rejected (reason : string).

(** [delegate.resolve(...)]: settles a pending promise only. *)
Definition resolve (k : Z) (store : Table Settlement) : Table Settlement :=
  match entries store !! k with
  | Some Pending => table_set k Fulfilled store
  | _ => store
  end.

(** [delegate.reject(new Error(reason))]: settles a pending promise only. *)
Definition reject (k : Z) (reason : string) (store : Table Settlement)
  : Table Settlement :=
  match entries store !! k with
  | Some Pending => table_set k (Rejected reason) store
  | _ => store
  end.

(** The gate promise: [options.when || Promise.resolve()]. *)
Inductive Gate : Type :=
| GatePending (given : bool)
| GateSettled.

(** ** The poll and its host *)

Section PollModel.

Context {T U : Type}.

Abbreviation State := (State.t T U).
Abbreviation Next := (Next.t T U).

(** The private fields of a [Poll]. [_tick] is the identity of the
    current [PromiseDelegate]; [_factory] stays with the host and the two
    signals are observed through the logs of the host. *)
Record Poll : Type := {
  name : string;
  _frequency : Frequency.t;
  _standby : StandbyPolicy;
  _state : State;
  _tick : Z;
  _timeout : Z
}.

Definition set__frequency (f : Frequency.t) (p : Poll) : Poll :=
  {| name := name p; _frequency := f; _standby := _standby p;
     _state := _state p; _tick := _tick p; _timeout := _timeout p |}.

Definition set__standby (s : StandbyPolicy) (p : Poll) : Poll :=
  {| name := name p; _frequency := _frequency p; _standby := s;
     _state := _state p; _tick := _tick p; _timeout := _timeout p |}.

Definition set__state (s : State) (p : Poll) : Poll :=
  {| name := name p; _frequency := _frequency p; _standby := _standby p;
     _state := s; _tick := _tick p; _timeout := _timeout p |}.

Definition set__tick (k : Z) (p : Poll) : Poll :=
  {| name := name p; _frequency := _frequency p; _standby := _standby p;
     _state := _state p; _tick := k; _timeout := _timeout p |}.

Definition set__timeout (h : Z) (p : Poll) : Poll :=
  {| name := name p; _frequency := _frequency p; _standby := _standby p;
     _state := _state p; _tick := _tick p; _timeout := h |}.

(** A call of [schedule] suspended at one of its two [await]s. [caught]
    tells that the call was made by the [then] handler of the gate, whose
    rejection is caught by the [catch] handler chained after it. *)
Inductive Cont : Type :=
| AwaitTick (tick : Z) (next : Next) (caught : bool)
| AwaitPending (pending : Z) (state : State) (scheduled : Z)
    (caught : bool).

Definition awaited (c : Cont) : Z :=
  match c with
  | AwaitTick tick _ _ => tick
  | AwaitPending pending _ _ _ => pending
  end.

Definition is_caught (c : Cont) : bool :=
  match c with
  | AwaitTick _ _ caught => caught
  | AwaitPending _ _ _ caught => caught
  end.

(** The poll together with the part of the host it lives in.
    - [promises]: the promise delegates created so far;
    - [frames], [timeouts]: the armed [execute] closures, each with the
      [scheduled] delegate it captured (and its delay for a timeout);
    - [requests]: the factory promises that have not settled, each with
      the [pending] tick captured when the factory was invoked;
    - [awaiting]: the suspended calls of [schedule];
    - [ticked], [disposed_emitted]: emissions of the two signals,
      [connected] is cleared by [Signal.clearData];
    - [invoked]: the states the factory was called with. *)
Record World : Type := {
  poll : Poll;
  promises : Table Settlement;
  frames : Table Z;
  timeouts : Table (Z * number);
  requests : Table Z;
  awaiting : list Cont;
  when : Gate;
  document : option Document;
  now : Z;
  ticked : list State;
  disposed_emitted : nat;
  connected : bool;
  invoked : list State;
  console : list string
}.

Definition set_poll (x : Poll) (w : World) : World :=
  {| poll := x; promises := promises w; frames := frames w;
     timeouts := timeouts w; requests := requests w;
     awaiting := awaiting w; when := when w; document := document w;
     now := now w; ticked := ticked w;
     disposed_emitted := disposed_emitted w; connected := connected w;
     invoked := invoked w; console := console w |}.

Definition set_promises (x : Table Settlement) (w : World) : World :=
  {| poll := poll w; promises := x; frames := frames w;
     timeouts := timeouts w; requests := requests w;
     awaiting := awaiting w; when := when w; document := document w;
     now := now w; ticked := ticked w;
     disposed_emitted := disposed_emitted w; connected := connected w;
     invoked := invoked w; console := console w |}.

Definition set_frames (x : Table Z) (w : World) : World :=
  {| poll := poll w; promises := promises w; frames := x;
     timeouts := timeouts w; requests := requests w;
     awaiting := awaiting w; when := when w; document := document w;
     now := now w; ticked := ticked w;
     disposed_emitted := disposed_emitted w; connected := connected w;
     invoked := invoked w; console := console w |}.

Definition set_timeouts (x : Table (Z * number)) (w : World) : World :=
  {| poll := poll w; promises := promises w; frames := frames w;
     timeouts := x; requests := requests w;
     awaiting := awaiting w; when := when w; document := document w;
     now := now w; ticked := ticked w;
     disposed_emitted := disposed_emitted w; connected := connected w;
     invoked := invoked w; console := console w |}.

Definition set_requests (x : Table Z) (w : World) : World :=
  {| poll := poll w; promises := promises w; frames := frames w;
     timeouts := timeouts w; requests := x;
     awaiting := awaiting w; when := when w; document := document w;
     now := now w; ticked := ticked w;
     disposed_emitted := disposed_emitted w; connected := connected w;
     invoked := invoked w; console := console w |}.

Definition set_awaiting (x : list Cont) (w : World) : World :=
  {| poll := poll w; promises := promises w; frames := frames w;
     timeouts := timeouts w; requests := requests w;
     awaiting := x; when := when w; document := document w;
     now := now w; ticked := ticked w;
     disposed_emitted := disposed_emitted w; connected := connected w;
     invoked := invoked w; console := console w |}.

Definition set_when (x : Gate) (w : World) : World :=
  {| poll := poll w; promises := promises w; frames := frames w;
     timeouts := timeouts w; requests := requests w;
     awaiting := awaiting w; when := x; document := document w;
     now := now w; ticked := ticked w;
     disposed_emitted := disposed_emitted w; connected := connected w;
     invoked := invoked w; console := console w |}.

Definition set_document (x : option Document) (w : World) : World :=
  {| poll := poll w; promises := promises w; frames := frames w;
     timeouts := timeouts w; requests := requests w;
     awaiting := awaiting w; when := when w; document := x;
     now := now w; ticked := ticked w;
     disposed_emitted := disposed_emitted w; connected := connected w;
     invoked := invoked w; console := console w |}.

Definition set_now (x : Z) (w : World) : World :=
  {| poll := poll w; promises := promises w; frames := frames w;
     timeouts := timeouts w; requests := requests w;
     awaiting := awaiting w; when := when w; document := document w;
     now := x; ticked := ticked w;
     disposed_emitted := disposed_emitted w; connected := connected w;
     invoked := invoked w; console := console w |}.

Definition set_ticked (x : list State) (w : World) : World :=
  {| poll := poll w; promises := promises w; frames := frames w;
     timeouts := timeouts w; requests := requests w;
     awaiting := awaiting w; when := when w; document := document w;
     now := now w; ticked := x;
     disposed_emitted := disposed_emitted w; connected := connected w;
     invoked := invoked w; console := console w |}.

Definition set_disposed_emitted (x : nat) (w : World) : World :=
  {| poll := poll w; promises := promises w; frames := frames w;
     timeouts := timeouts w; requests := requests w;
     awaiting := awaiting w; when := when w; document := document w;
     now := now w; ticked := ticked w;
     disposed_emitted := x; connected := connected w;
     invoked := invoked w; console := console w |}.

Definition set_connected (x : bool) (w : World) : World :=
  {| poll := poll w; promises := promises w; frames := frames w;
     timeouts := timeouts w; requests := requests w;
     awaiting := awaiting w; when := when w; document := document w;
     now := now w; ticked := ticked w;
     disposed_emitted := disposed_emitted w; connected := x;
     invoked := invoked w; console := console w |}.

Definition set_invoked (x : list State) (w : World) : World :=
  {| poll := poll w; promises := promises w; frames := frames w;
     timeouts := timeouts w; requests := requests w;
     awaiting := awaiting w; when := when w; document := document w;
     now := now w; ticked := ticked w;
     disposed_emitted := disposed_emitted w; connected := connected w;
     invoked := x; console := console w |}.

Definition set_console (x : list string) (w : World) : World :=
  {| poll := poll w; promises := promises w; frames := frames w;
     timeouts := timeouts w; requests := requests w;
     awaiting := awaiting w; when := when w; document := document w;
     now := now w; ticked := ticked w;
     disposed_emitted := disposed_emitted w; connected := connected w;
     invoked := invoked w; console := x |}.

(** ** Accessors *)

(** [get state] *)
Definition state (w : World) : State := _state (poll w).

(** [get isDisposed] *)
Definition isDisposed (w : World) : bool :=
  phase_is (State.phase (state w)) Phase.disposed.

(** [get tick], as the identity of the promise. *)
Definition tick (w : World) : Z := _tick (poll w).

(** [get frequency] *)
Definition frequency (w : World) : Frequency.t := _frequency (poll w).

(** ** The [frequency] and [standby] setters *)

Definition backoff_seq (a b : Backoff) : bool :=
  match a, b with
  | BBool x, BBool y => bool_decide (x = y)
  | BNum x, BNum y => seq x y
  | _, _ => false
  end.

(** [JSONExt.deepEqual] on two frequency objects: key by key, [===] on the
    primitive values. *)
Definition deepEqual (a b : Frequency.t) : bool :=
  backoff_seq (Frequency.backoff a) (Frequency.backoff b)
  && seq (Frequency.interval a) (Frequency.interval b)
  && seq (Frequency.max a) (Frequency.max b).

(** The setter after its guard: rounding, the three checks and the value
    assigned to [this._frequency]. *)
Definition checked_frequency (frequency : Frequency.t)
  : Completion Frequency.t :=
  let backoff := Frequency.backoff frequency in
  let interval := Frequency.interval frequency in
  let max := Frequency.max frequency in
  let interval := Math_round interval in
  let max := Math_round max in
  if match backoff with BNum n => lt n (of_Z 1) | BBool _ => false end
  then Throw "Poll backoff growth factor must be at least 1"
  else if lt interval (of_Z 0) || gt interval max
  then Throw "Poll interval must be between 0 and max"
  else if gt max MAX_INTERVAL
  then Throw "Max interval must be less than 2147483647"
  else Normal (Frequency.mk backoff interval max).

(** [set frequency(frequency)] on a constructed poll. *)
Definition set_frequency (frequency : Frequency.t) (w : World)
  : Completion World :=
  if isDisposed w || deepEqual frequency (_frequency (poll w))
  then Normal w
  else
    match checked_frequency frequency with
    | Throw message => Throw message
    | Normal f => Normal (set_poll (set__frequency f (poll w)) w)
    end.

(** [set standby(standby)]. When [this.standby === standby] the setter
    returns early, which leaves the same field as the assignment does. *)
Definition set_standby (standby : StandbyPolicy) (w : World) : World :=
  if isDisposed w then w
  else set_poll (set__standby standby (poll w)) w.

(** ** [schedule] *)

(** The state built by [schedule]: [next] spread over the defaults. The
    spread also copies the [cancel] key, which is no field of
    [IPoll.State] and is left out. *)
Definition next_state (next : Next) (w : World) : State :=
  State.mk
    (default (Frequency.interval (frequency w)) (Next.interval next))
    (default None (Next.payload next))
    (default Phase.standby (Next.phase next))
    (default (now w) (Next.timestamp next)).

(** [schedule] from "Update poll state" to [await pending.promise]. *)
Definition schedule_update (caught : bool) (next : Next) (w : World)
  : World :=
  let last := state w in
  let pending := tick w in
  let scheduled := fresh (promises w) in
  let state := next_state next w in
  let w := set_promises (table_add Pending (promises w)) w in
  let w := set_poll (set__tick scheduled (set__state state (poll w))) w in
  let w :=
    if seq (State.interval last) Private.IMMEDIATE
    then set_frames (table_remove (_timeout (poll w)) (frames w)) w
    else set_timeouts (table_remove (_timeout (poll w)) (timeouts w)) w in
  let w := set_ticked (ticked w ++ [state]) w in
  let w := set_promises (resolve pending (promises w)) w in
  set_awaiting (awaiting w ++ [AwaitPending pending state scheduled caught]) w.

(** [schedule] from "Check if the phase transition should be canceled". *)
Definition schedule_checked (caught : bool) (next : Next) (w : World)
  : World :=
  match Next.cancel next with
  | Some cancel =>
      if cancel (state w) then w else schedule_update caught next w
  | None => schedule_update caught next w
  end.

Definition is_when_phase (p : option Phase.t) : bool :=
  match p with
  | Some Phase.when_rejected | Some Phase.when_resolved => true
  | _ => false
  end.

(** [schedule(next)] up to its first suspension. *)
Definition schedule (caught : bool) (next : Next) (w : World) : World :=
  if isDisposed w then w
  else if phase_is (State.phase (state w)) Phase.constructed
          && negb (is_when_phase (Next.phase next))
  then set_awaiting (awaiting w ++ [AwaitTick (tick w) next caught]) w
  else schedule_checked caught next w.

(** The end of [schedule], after [await pending.promise]: arm [execute],
    which captured [scheduled], and cache the handle. *)
Definition schedule_arm (state : State) (scheduled : Z) (w : World)
  : World :=
  if seq (State.interval state) Private.IMMEDIATE
  then
    let handle := fresh (frames w) in
    let w := set_frames (table_add scheduled (frames w)) w in
    set_poll (set__timeout handle (poll w)) w
  else if seq (State.interval state) Private.NEVER
  then set_poll (set__timeout (-1) (poll w)) w
  else
    let handle := fresh (timeouts w) in
    let w :=
      set_timeouts
        (table_add (scheduled, State.interval state) (timeouts w)) w in
    set_poll (set__timeout handle (poll w)) w.

(** ** Public methods *)

(** [dispose()] *)
Definition dispose (w : World) : World :=
  if isDisposed w then w
  else
    let disposed_state : State :=
      State.mk
        (State.interval (@Private.DISPOSED_STATE T U))
        (State.payload (@Private.DISPOSED_STATE T U))
        (State.phase (@Private.DISPOSED_STATE T U))
        (now w) in
    let w := set_poll (set__state disposed_state (poll w)) w in
    let reason := ("Poll (" ++ name (poll w) ++ ") is disposed.")%string in
    let w := set_promises (reject (tick w) reason (promises w)) w in
    let w := set_disposed_emitted (S (disposed_emitted w)) w in
    set_connected false w.

Definition refresh_next : Next :=
  Next.mk
    (Some (fun last => phase_is (State.phase last) Phase.refreshed))
    (Some Private.IMMEDIATE) None (Some Phase.refreshed) None.

Definition start_next : Next :=
  Next.mk
    (Some (fun last =>
             negb (phase_is (State.phase last) Phase.standby)
             && negb (phase_is (State.phase last) Phase.stopped)))
    (Some Private.IMMEDIATE) None (Some Phase.started) None.

Definition stop_next : Next :=
  Next.mk
    (Some (fun last => phase_is (State.phase last) Phase.stopped))
    (Some Private.NEVER) None (Some Phase.stopped) None.

(** [refresh()] *)
Definition refresh (w : World) : World := schedule false refresh_next w.

(** [start()] *)
Definition start (w : World) : World := schedule false start_next w.

(** [stop()] *)
Definition stop (w : World) : World := schedule false stop_next w.

(** ** [_execute] and the armed closure *)

(** The two assignments to [standby] at the head of [_execute]. *)
Definition resolve_standby (policy : StandbyPolicy)
  (document : option Document) : bool :=
  let standby :=
    match policy with
    | Function f => f document
    | Literal s => RStandby s
    end in
  match standby with
  | RStandby never => false
  | RStandby when_hidden =>
      match document with
      | Some d => hidden d
      | None => false
      end
  | RBool _ => true
  end.

(** [_execute()], up to the call of the factory, whose promise joins the
    requests of the host together with the captured [pending] tick. *)
Definition _execute (w : World) : World :=
  if resolve_standby (_standby (poll w)) (document w)
  then schedule false Next.empty w
  else
    let pending := tick w in
    let w := set_invoked (invoked w ++ [state w]) w in
    set_requests (table_add pending (requests w)) w.

(** The closure [execute] armed by [schedule]. *)
Definition execute (scheduled : Z) (w : World) : World :=
  if isDisposed w || negb (tick w =? scheduled) then w
  else _execute w.

(** The [then] handler of the factory promise. *)
Definition factory_then (pending : Z) (resolved : T) (w : World) : World :=
  if isDisposed w || negb (tick w =? pending) then w
  else
    schedule false
      (Next.mk None None (Some (Some (inl resolved)))
         (Some (if phase_is (State.phase (state w)) Phase.rejected
                then Phase.reconnected else Phase.resolved))
         None)
      w.

(** The [catch] handler of the factory promise; [random] is the draw of
    [Math.random()] inside [Private.sleep]. *)
Definition factory_catch (pending : Z) (rejected : U) (random : Q)
  (w : World) : World :=
  if isDisposed w || negb (tick w =? pending) then w
  else
    schedule false
      (Next.mk None
         (Some (Private.sleep (Fin random) (frequency w) (state w)))
         (Some (Some (inr rejected)))
         (Some Phase.rejected)
         None)
      w.

(** ** The gate, the continuations, the constructor *)

(** The [then] handler chained on the gate promise. *)
Definition when_then (w : World) : World :=
  if isDisposed w then w
  else
    schedule true
      (Next.mk None (Some Private.IMMEDIATE) None
         (Some Phase.when_resolved) None)
      w.

(** The [catch] handler chained after it. *)
Definition when_catch (w : World) : World :=
  if isDisposed w then w
  else
    let warning :=
      ("Poll (" ++ name (poll w) ++ ") started despite rejection.")%string in
    let w := set_console (console w ++ [warning]) w in
    schedule false
      (Next.mk None (Some Private.IMMEDIATE) None
         (Some Phase.when_rejected) None)
      w.

(** What a suspended call of [schedule] does once the promise it awaits is
    fulfilled. *)
Definition continue (c : Cont) (w : World) : World :=
  match c with
  | AwaitTick _ next caught => schedule_checked caught next w
  | AwaitPending _ state scheduled _ => schedule_arm state scheduled w
  end.

(** The host resumes the [k]-th suspended call. When the awaited promise
    was rejected the [await] throws, the call ends there, and the [catch]
    handler of the gate runs if the call was made by its [then] handler. *)
Definition resume (k : nat) (w : World) : World :=
  match awaiting w !! k with
  | None => w
  | Some c =>
      match entries (promises w) !! awaited c with
      | Some Fulfilled =>
          continue c (set_awaiting (delete k (awaiting w)) w)
      | Some (Rejected _) =>
          let w := set_awaiting (delete k (awaiting w)) w in
          if is_caught c then when_catch w else w
      | _ => w
      end
  end.

(** [new Poll(options)] at time [now] in a host with [document]. The guard
    of the frequency setter is false here: the state is [constructed] and
    [this.frequency] is still undefined, so that [deepEqual] compares the
    merged frequency with [{}]. *)
Definition construct (options : IOptions.t) (document : option Document)
  (now : Z) : Completion World :=
  let _standby :=
    default (Literal Private.DEFAULT_STANDBY) (IOptions.standby options) in
  let _state : State :=
    State.mk
      (State.interval (@Private.DEFAULT_STATE T U))
      (State.payload (@Private.DEFAULT_STATE T U))
      (State.phase (@Private.DEFAULT_STATE T U))
      now in
  match
    checked_frequency
      (PartialFrequency.over Private.DEFAULT_FREQUENCY
         (default PartialFrequency.empty (IOptions.frequency options)))
  with
  | Throw message => Throw message
  | Normal _frequency =>
      let name :=
        match IOptions.name options with
        | Some n => if bool_decide (n = ""%string)
                    then Private.DEFAULT_NAME else n
        | None => Private.DEFAULT_NAME
        end in
      Normal
        {| poll :=
             {| name := name; _frequency := _frequency;
                _standby := _standby; _state := _state;
                _tick := 0; _timeout := -1 |};
           promises := table_add Pending (table_new 0);
           frames := table_new 1;
           timeouts := table_new 1;
           requests := table_new 0;
           awaiting := [];
           when := GatePending (IOptions.when options);
           document := document;
           now := now;
           ticked := [];
           disposed_emitted := 0;
           connected := true;
           invoked := [];
           console := [] |}
  end.

(** ** Events and runs *)

(** What can happen to a constructed poll: a call of its owner, the
    settlement of the gate or of a factory promise, the resumption of a
    suspended call, an armed closure firing, time passing, the document
    changing visibility. *)
Inductive Event : Type :=
| CallDispose
| CallRefresh
| CallStart
| CallStop
| SetFrequency (frequency : Frequency.t)
| SetStandby (standby : StandbyPolicy)
| GateSettles (fulfilled : bool)
| Resume (k : nat)
| FrameFires (handle : Z)
| TimeoutFires (handle : Z)
| FactorySettles (request : Z) (outcome : T + U) (random : Q)
| Elapse (ms : Z)
| DocumentChanges (document : option Document).

(** A draw of [Math.random()] lies in [[0, 1)]. *)
Definition is_draw (random : Q) : bool :=
  Qle_bool 0 random && Qlt_bool random 1.

(** One event; an event that cannot happen leaves the world as it is. A
    frequency assignment that throws leaves it as it is, too. *)
Definition step (e : Event) (w : World) : World :=
  match e with
  | CallDispose => dispose w
  | CallRefresh => refresh w
  | CallStart => start w
  | CallStop => stop w
  | SetFrequency frequency =>
      match set_frequency frequency w with
      | Normal w' => w'
      | Throw _ => w
      end
  | SetStandby standby => set_standby standby w
  | GateSettles fulfilled =>
      match when w with
      | GatePending given =>
          if fulfilled then when_then (set_when GateSettled w)
          else if given then when_catch (set_when GateSettled w)
          else w
      | GateSettled => w
      end
  | Resume k => resume k w
  | FrameFires handle =>
      match entries (frames w) !! handle with
      | Some scheduled =>
          execute scheduled
            (set_frames (table_remove handle (frames w)) w)
      | None => w
      end
  | TimeoutFires handle =>
      match entries (timeouts w) !! handle with
      | Some (scheduled, _) =>
          execute scheduled
            (set_timeouts (table_remove handle (timeouts w)) w)
      | None => w
      end
  | FactorySettles request outcome random =>
      match entries (requests w) !! request with
      | Some pending =>
          let w' := set_requests (table_remove request (requests w)) w in
          match outcome with
          | inl resolved => factory_then pending resolved w'
          | inr rejected =>
              if is_draw random
              then factory_catch pending rejected random w'
              else w
          end
      | None => w
      end
  | Elapse ms => if 0 <=? ms then set_now (now w + ms) w else w
  | DocumentChanges document => set_document document w
  end.

Definition run (es : list Event) (w : World) : World :=
  foldl (fun w e => step e w) w es.

(** The worlds a poll can be in. *)
Inductive reachable : World -> Prop :=
| reachable_construct options document now w :
    construct options document now = Normal w -> reachable w
| reachable_step e w :
    reachable w -> reachable (step e w).

(** ** Predicates used by the properties *)

(** The frequency invariant of the data model:
    [0 <= interval <= max <= MAX_INTERVAL], and [backoff >= 1] when it is
    a number. *)
Definition frequency_ok (f : Frequency.t) : bool :=
  le (of_Z 0) (Frequency.interval f)
  && le (Frequency.interval f) (Frequency.max f)
  && le (Frequency.max f) MAX_INTERVAL
  && match Frequency.backoff f with
     | BNum n => ge n (of_Z 1)
     | BBool _ => true
     end.

(** A frequency that the setter must refuse: after rounding [interval] and
    [max], a numeric [backoff] below 1, a negative [interval], an
    [interval] above [max], or a [max] above [MAX_INTERVAL]. *)
Definition frequency_invalid (f : Frequency.t) : bool :=
  let interval := Math_round (Frequency.interval f) in
  let max := Math_round (Frequency.max f) in
  match Frequency.backoff f with
  | BNum n => lt n (of_Z 1)
  | BBool _ => false
  end
  || lt interval (of_Z 0)
  || gt interval max
  || gt max MAX_INTERVAL.

(** No field of the frequency is [NaN]. *)
Definition frequency_numeric (f : Frequency.t) : bool :=
  negb (isNaN (Frequency.interval f))
  && negb (isNaN (Frequency.max f))
  && match Frequency.backoff f with
     | BNum n => negb (isNaN n)
     | BBool _ => true
     end.

(** The phases in which a state carries a payload. *)
Definition settled_phase (p : Phase.t) : bool :=
  match p with
  | Phase.resolved | Phase.rejected | Phase.reconnected => true
  | _ => false
  end.

(** [op] cancels the armed closure of [w]: the handle cached in [_timeout]
    is in neither table of the host afterwards. *)
Definition cancels_armed (op : World -> World) (w : World) : Prop :=
  entries (frames (op w)) !! _timeout (poll w) = None
  /\ entries (timeouts (op w)) !! _timeout (poll w) = None.

(** The closure that captured [scheduled] is armed in [w]. *)
Definition armed (scheduled : Z) (w : World) : Prop :=
  (exists handle, entries (frames w) !! handle = Some scheduled)
  \/ (exists handle delay,
        entries (timeouts w) !! handle = Some (scheduled, delay)).

(** The guard of a closure that captured [scheduled] fails for good: the
    poll has moved to a later tick, or it is disposed on that tick. *)
Definition superseded (scheduled : Z) (w : World) : Prop :=
  scheduled < tick w \/ (isDisposed w = true /\ scheduled <= tick w).

(** The arguments that the poll itself passes to [schedule]. *)
Definition next_ok (next : Next) : Prop :=
  Next.phase next <> Some Phase.constructed
  /\ Next.phase next <> Some Phase.disposed
  /\ (default None (Next.payload next) <> None ->
      settled_phase (default Phase.standby (Next.phase next)) = true)
  /\ (Next.phase next = Some Phase.stopped ->
      Next.interval next = Some Private.NEVER).

Definition is_await_tick (c : Cont) : Prop :=
  match c with
  | AwaitTick _ _ _ => True
  | AwaitPending _ _ _ _ => False
  end.

(** A suspended call that will arm a closure belongs to a tick that is not
    later than [k], and it holds the state [s] if it belongs to [k]. *)
Definition cont_ok (k : Z) (live : option State) (c : Cont) : Prop :=
  match c with
  | AwaitTick tick next _ => tick <= k /\ next_ok next
  | AwaitPending pending state scheduled _ =>
      scheduled <= k
      /\ (scheduled = k -> forall s, live = Some s -> state = s)
  end.

(** The state a live closure sees: none once the poll is disposed. *)
Definition live_state (w : World) : option State :=
  if isDisposed w then None else Some (state w).

(** The invariant of the reachable worlds. *)
Record Inv (w : World) : Prop := {
  inv_tick : tick w < fresh (promises w);
  inv_pending :
    isDisposed w = false ->
    entries (promises w) !! tick w = Some Pending;
  inv_payload :
    State.payload (state w) <> None ->
    settled_phase (State.phase (state w)) = true;
  inv_stopped :
    State.phase (state w) = Phase.stopped ->
    State.interval (state w) = Private.NEVER;
  inv_constructed :
    State.phase (state w) = Phase.constructed ->
    entries (frames w) = ∅ /\ entries (timeouts w) = ∅
    /\ entries (requests w) = ∅ /\ Forall is_await_tick (awaiting w);
  inv_frames :
    map_Forall
      (fun _ scheduled =>
         scheduled <= tick w
         /\ (scheduled = tick w -> isDisposed w = false ->
             seq (State.interval (state w)) Private.IMMEDIATE = true))
      (entries (frames w));
  inv_timeouts :
    map_Forall
      (fun _ armed =>
         fst armed <= tick w
         /\ (fst armed = tick w -> isDisposed w = false ->
             seq (State.interval (state w)) Private.NEVER = false))
      (entries (timeouts w));
  inv_requests :
    map_Forall (fun _ pending => pending <= tick w) (entries (requests w));
  inv_awaiting : Forall (cont_ok (tick w) (live_state w)) (awaiting w);
  inv_frequency :
    exists assigned, checked_frequency assigned = Normal (frequency w)
}.

(** What is left of the two tables once [schedule] has cleared the cached
    handle: [cancelAnimationFrame] when the replaced state was immediate,
    [clearTimeout] otherwise. *)
Definition cleared_frames (w : World) : Table Z :=
  if seq (State.interval (state w)) Private.IMMEDIATE
  then table_remove (_timeout (poll w)) (frames w)
  else frames w.

Definition cleared_timeouts (w : World) : Table (Z * number) :=
  if seq (State.interval (state w)) Private.IMMEDIATE
  then timeouts w
  else table_remove (_timeout (poll w)) (timeouts w).

(** [w'] is not earlier than [w]: the tick has moved on, or it is the same
    tick and a disposed poll has stayed disposed. *)
Definition later (w w' : World) : Prop :=
  tick w < tick w'
  \/ (tick w' = tick w /\ (isDisposed w = true -> isDisposed w' = true)).

(** The calls of the owner of the poll. *)
Definition is_call (e : Event) : bool :=
  match e with
  | CallDispose | CallRefresh | CallStart | CallStop => true
  | _ => false
  end.

Definition is_dispose (e : Event) : bool :=
  match e with
  | CallDispose => true
  | _ => false
  end.

(** The poll has not been disposed and its [disposed] signal has not been
    emitted. *)
Definition undisposed (w : World) : Prop :=
  isDisposed w = false /\ disposed_emitted w = 0%nat.

End PollModel.

(** ** Concrete polls *)

(** The options of the scenario of the specification: a frequency of
    [{interval: 10, max: 100, backoff: false}], no gate, and a poll that
    never stands by. *)
Definition scenario_options : IOptions.t :=
  IOptions.mk
    (Some (PartialFrequency.mk
             (Some (BBool false)) (Some (of_Z 10)) (Some (of_Z 100))))
    None (Some (Literal never)) false.

(** The poll that [new Poll(scenario_options)] builds at time 0 without a
    document. *)
Definition scenario_poll : @World string string :=
  {| poll :=
       {| name := "unknown";
          _frequency := Frequency.mk (BBool false) (of_Z 10) (of_Z 100);
          _standby := Literal never;
          _state := State.mk PInf None Phase.constructed 0;
          _tick := 0; _timeout := -1 |};
     promises := table_add Pending (table_new 0);
     frames := table_new 1;
     timeouts := table_new 1;
     requests := table_new 0;
     awaiting := [];
     when := GatePending false;
     document := None;
     now := 0;
     ticked := [];
     disposed_emitted := 0;
     connected := true;
     invoked := [];
     console := [] |}.

(** The scenario up to the first armed animation frame. *)
Definition scenario_armed : @World string string :=
  run [GateSettles true; Resume 0] scenario_poll.

(** The scenario after a rejection ("fail") followed by a resolution
    ("ok"). *)
Definition scenario_reconnect : list (@Event string string) :=
  [GateSettles true; Resume 0; FrameFires 1;
   FactorySettles 0 (inr "fail"%string) (1 # 2);
   Resume 0; TimeoutFires 1;
   FactorySettles 1 (inl "ok"%string) 0].

(** Only the defaults. *)
Definition default_options : IOptions.t := IOptions.mk None None None false.

(** A predicate policy that always answers [false]. *)
Definition standby_false : StandbyPolicy := Function (fun _ => RBool false).

Definition standby_false_options : IOptions.t :=
  IOptions.mk None None (Some standby_false) false.

(** A predicate policy that always answers [true]. *)
Definition standby_true : StandbyPolicy := Function (fun _ => RBool true).

Definition standby_true_options : IOptions.t :=
  IOptions.mk None None (Some standby_true) false.

(** A frequency whose interval and max are [NaN]. *)
Definition nan_frequency : Frequency.t := Frequency.mk (BBool true) NaN NaN.

(** The scenario once the factory has been invoked and a [refresh] has
    superseded the tick of that invocation. *)
Definition stale_world : @World string string :=
  run [GateSettles true; Resume 0; FrameFires 1; CallRefresh] scenario_poll.

(** The scenario after a first rejection, with the second invocation of the
    factory outstanding. *)
Definition rejected_world : @World string string :=
  run [GateSettles true; Resume 0; FrameFires 1;
       FactorySettles 0 (inr "fail"%string) (1 # 2);
       Resume 0; TimeoutFires 1] scenario_poll.

(** The scenario stopped right after its first tick was armed. *)
Definition stopped_world : @World string string :=
  run [GateSettles true; Resume 0; CallStop] scenario_poll.

(** * Further invariants *)

Section PollInvariants.
Context {T U : Type}.
Abbreviation State := (State.t T U).
Abbreviation Next := (Next.t T U).

(** ** Predicates used by the further properties *)

Definition is_await_pending (c : @Cont T U) : Prop :=
  match c with
  | AwaitTick _ _ _ => False
  | AwaitPending _ _ _ _ => True
  end.

(** A suspended call that cannot transition a disposed poll: it is past
    the gate, or the tick it awaits at the gate was rejected. *)
Definition harmless (w : @World T U) (c : @Cont T U) : Prop :=
  match c with
  | AwaitTick tick _ _ =>
      exists reason, entries (promises w) !! tick = Some (Rejected reason)
  | AwaitPending _ _ _ _ => True
  end.

(** A state the factory may be called with: its tick can fire and it is
    neither the initial state, nor the disposed one, nor a stopped one. *)
Definition callable (s : State) : bool :=
  negb (seq (State.interval s) Private.NEVER)
  && negb (phase_is (State.phase s) Phase.constructed)
  && negb (phase_is (State.phase s) Phase.disposed)
  && negb (phase_is (State.phase s) Phase.stopped).

Definition is_gate (e : @Event T U) : bool :=
  match e with
  | GateSettles _ => true
  | _ => false
  end.

(** The events that are no call of [refresh], [start] or [dispose]. *)
Definition is_quiet (e : @Event T U) : bool :=
  match e with
  | CallRefresh | CallStart | CallDispose => false
  | _ => true
  end.

(** What holds while the gate promise is pending. *)
Record Closed (w : @World T U) : Prop := {
  closed_phase :
    State.phase (state w) = Phase.constructed
    \/ State.phase (state w) = Phase.disposed;
  closed_fulfilled :
    forall k, entries (promises w) !! k <> Some Fulfilled;
  closed_rejected :
    State.phase (state w) = Phase.constructed ->
    forall k reason, entries (promises w) !! k <> Some (Rejected reason);
  closed_frames : entries (frames w) = ∅;
  closed_timeouts : entries (timeouts w) = ∅;
  closed_requests : entries (requests w) = ∅;
  closed_awaiting : Forall is_await_tick (awaiting w);
  closed_ticked : ticked w = [];
  closed_invoked : invoked w = []
}.

(** A second invariant of the reachable worlds: the tick promises are
    numbered by the transitions, the superseded ones have settled, nothing
    happens behind a pending gate, a request of the current tick belongs
    to a state that can fire, a call made by the gate handler awaits a
    fulfilled promise, and the factory was only called with callable
    states. *)
Record Inv2 (w : @World T U) : Prop := {
  inv2_fresh : fresh (promises w) = tick w + 1;
  inv2_count : tick w = Z.of_nat (length (ticked w));
  inv2_present :
    forall k, 0 <= k <= tick w -> is_Some (entries (promises w) !! k);
  inv2_settled :
    forall k, 0 <= k < tick w -> entries (promises w) !! k <> Some Pending;
  inv2_gate : forall given, when w = GatePending given -> Closed w;
  inv2_requests :
    map_Forall
      (fun _ pending =>
         pending = tick w -> isDisposed w = false ->
         seq (State.interval (state w)) Private.NEVER = false)
      (entries (requests w));
  inv2_awaited :
    Forall (fun c => 0 <= awaited c <= tick w) (awaiting w);
  inv2_caught :
    Forall
      (fun c =>
         is_caught c = true ->
         is_await_pending c
         /\ entries (promises w) !! awaited c = Some Fulfilled)
      (awaiting w);
  inv2_invoked : Forall (fun s => callable s = true) (invoked w)
}.

(** The tick that a suspended call will arm a closure for. *)
Definition arming (c : @Cont T U) : option Z :=
  match c with
  | AwaitTick _ _ _ => None
  | AwaitPending _ _ scheduled _ => Some scheduled
  end.

(** The ticks whose closure is still to be armed. *)
Definition to_arm (w : @World T U) : list Z := omap arming (awaiting w).

(** No suspended call, armed closure or request holds the tick [s]. *)
Definition unheld (s : Z) (w : @World T U) : Prop :=
  (s ∉ to_arm w)
  /\ (forall h, entries (frames w) !! h <> Some s)
  /\ (forall h d, entries (timeouts w) !! h <> Some (s, d))
  /\ (forall i, entries (requests w) !! i <> Some s).

(** A tick is held at one place at most: by the suspended call that will
    arm its closure, by that closure in one of the two tables, or by the
    request of the factory call that the closure made. *)
Record Inv3 (w : @World T U) : Prop := {
  inv3_to_arm : NoDup (to_arm w);
  inv3_frames :
    forall h s, entries (frames w) !! h = Some s ->
      (s ∉ to_arm w)
      /\ (forall h', entries (frames w) !! h' = Some s -> h' = h)
      /\ (forall h' d, entries (timeouts w) !! h' <> Some (s, d))
      /\ (forall i, entries (requests w) !! i <> Some s);
  inv3_timeouts :
    forall h s d, entries (timeouts w) !! h = Some (s, d) ->
      (s ∉ to_arm w)
      /\ (forall h' d', entries (timeouts w) !! h' = Some (s, d') -> h' = h)
      /\ (forall i, entries (requests w) !! i <> Some s);
  inv3_requests :
    forall i s, entries (requests w) !! i = Some s ->
      (s ∉ to_arm w)
      /\ (forall i', entries (requests w) !! i' = Some s -> i' = i)
}.

(** A timeout armed for the current tick waits for the interval of the
    current state, which is not immediate. *)
Definition timely (w : @World T U) : Prop :=
  map_Forall
    (fun _ armed =>
       fst armed = tick w -> isDisposed w = false ->
       snd armed = State.interval (state w)
       /\ seq (snd armed) Private.IMMEDIATE = false)
    (entries (timeouts w)).

(** ** The order of the job queue *)

(** JavaScript runs the reactions of settled promises first in, first
    out. The calls of [schedule] are suspended on promises that settle in
    the order of the suspensions, so the call that the host resumes is the
    one that was suspended first. *)
Definition is_fifo (e : @Event T U) : bool :=
  match e with
  | Resume k => (k =? 0)%nat
  | _ => true
  end.

(** The worlds that a poll reaches when the host resumes the suspended
    calls in the order of the job queue. *)
Inductive in_order : @World T U -> Prop :=
| in_order_construct options document time w :
    construct options document time = Normal w -> in_order w
| in_order_step e w :
    is_fifo e = true -> in_order w -> in_order (step e w).

Fixpoint ascending (l : list Z) : Prop :=
  match l with
  | [] => True
  | x :: l => Forall (Z.lt x) l /\ ascending l
  end.

(** What the order of the job queue keeps: the closures still to be armed
    are queued by tick, each of them is for a later tick than every armed
    closure, and the handle of the closure armed for the current tick is
    the one cached in [_timeout]. *)
Record Queue (w : @World T U) : Prop := {
  queue_ascending : ascending (to_arm w);
  queue_armed : forall s, armed s w -> Forall (Z.lt s) (to_arm w);
  queue_frames :
    forall h, entries (frames w) !! h = Some (tick w) ->
              _timeout (poll w) = h;
  queue_timeouts :
    forall h d, entries (timeouts w) !! h = Some (tick w, d) ->
                _timeout (poll w) = h
}.

End PollInvariants.

(** ** Further concrete polls *)

(** The scenario with its first invocation of the factory outstanding. *)
Definition outstanding_world : @World string string :=
  run [GateSettles true; Resume 0; FrameFires 1] scenario_poll.

(** The scenario disposed behind its gate, a call of [start] still
    suspended there. *)
Definition gated_disposed_world : @World string string :=
  run [CallStart; CallDispose] scenario_poll.

(** Calls and a lapse of time, and no settlement of the gate. *)
Definition gated_calls : list (@Event string string) :=
  [CallRefresh; CallStop; Elapse 3; CallStart].

(** What can still happen to a poll once it is disposed. *)
Definition late_events : list (@Event string string) :=
  [Resume 0; GateSettles true; CallRefresh; FrameFires 1;
   SetStandby (Literal when_hidden)].

(** What can happen to a stopped poll short of a call of [refresh],
    [start] or [dispose]. *)
Definition quiet_events : list (@Event string string) :=
  [Resume 0; FrameFires 1; Elapse 5; CallStop;
   SetFrequency (Frequency.mk (BBool true) (of_Z 20) (of_Z 200))].

(** The state that the second invocation of the scenario was called
    with. *)
Definition rejected_state : State.t string string :=
  State.mk (of_Z 5) (Some (inr "fail"%string)) Phase.rejected 0.

(** The scenario after a first rejection, with the timeout of the retry
    armed. *)
Definition backing_off_world : @World string string :=
  run [GateSettles true; Resume 0; FrameFires 1;
       FactorySettles 0 (inr "fail"%string) (1 # 2); Resume 0] scenario_poll.

(** * Properties *)

Section Properties.

Context {T U : Type}.
Implicit Types w : @World T U.
Implicit Types next : Next.t T U.

(** ** JavaScript numbers *)

Lemma Qlt_bool_iff x y : Qlt_bool x y = true <-> (x < y)%Q.
Proof.
  unfold Qlt_bool. rewrite negb_true_iff.
  split.
  - intros H. apply Qnot_le_lt. intros Hle. apply Qle_bool_iff in Hle. congruence.
  - intros H. destruct (Qle_bool y x) eqn:E; [|reflexivity].
    apply Qle_bool_iff in E. exfalso. exact (Qlt_not_le _ _ H E).
Qed.

Lemma le_of_Z a b : le (of_Z a) (of_Z b) = true <-> a <= b.
Proof.
  unfold le, of_Z. rewrite Qle_bool_iff, <- Zle_Qle. reflexivity.
Qed.

Lemma lt_false_le a b :
  isNaN a = false -> isNaN b = false -> lt a b = false -> le b a = true.
Proof.
  destruct a, b; simpl; try congruence.
  unfold Qlt_bool. intros _ _ H. apply negb_false_iff in H. exact H.
Qed.

Lemma round_numeric a : isNaN (Math_round a) = isNaN a.
Proof. destruct a; reflexivity. Qed.

Lemma Qfloor_half z : Qfloor (inject_Z z + (1 # 2)) = z.
Proof.
  assert (H1 : (inject_Z z <= inject_Z z + (1 # 2))%Q).
  { rewrite <- (Qplus_0_r (inject_Z z)) at 1. apply Qplus_le_r. discriminate. }
  assert (H2 : (inject_Z z + (1 # 2) < inject_Z (z + 1))%Q).
  { rewrite inject_Z_plus. apply Qplus_lt_r. reflexivity. }
  pose proof (Qfloor_resp_le _ _ H1) as Hlow. rewrite Qfloor_Z in Hlow.
  pose proof (Qfloor_le (inject_Z z + (1 # 2))) as Hfl.
  assert (inject_Z (Qfloor (inject_Z z + (1 # 2))) < inject_Z (z + 1))%Q
    as Hup by (eapply Qle_lt_trans; eauto).
  rewrite <- Zlt_Qlt in Hup. lia.
Qed.

Lemma round_of_Z z : Math_round (of_Z z) = of_Z z.
Proof. unfold Math_round, of_Z. f_equal. f_equal. apply Qfloor_half. Qed.

Lemma seq_round a b : seq a b = true -> Math_round a = Math_round b.
Proof.
  intros H. destruct a, b; try discriminate H; try reflexivity.
  apply Qeq_bool_iff in H. unfold Math_round, of_Z. do 2 f_equal.
  apply Qfloor_comp. rewrite H. reflexivity.
Qed.

Lemma seq_lt_l a a' b : seq a a' = true -> lt a b = lt a' b.
Proof.
  intros H. destruct a, a'; try discriminate H; try reflexivity.
  apply Qeq_bool_iff in H. destruct b; try reflexivity.
  unfold lt, Qlt_bool. f_equal.
  apply Qleb_comp; [reflexivity | exact H].
Qed.

Lemma seq_lt_r a b b' : seq b b' = true -> lt a b = lt a b'.
Proof.
  intros H. destruct b, b'; try discriminate H; try reflexivity.
  apply Qeq_bool_iff in H. destruct a; try reflexivity.
  unfold lt, Qlt_bool. f_equal.
  apply Qleb_comp; [exact H | reflexivity].
Qed.

(** ** The checks of the frequency setter *)

Lemma checked_frequency_invalid f :
  frequency_invalid f = true -> exists message, checked_frequency f = Throw message.
Proof.
  unfold frequency_invalid, checked_frequency.
  destruct (match Frequency.backoff f with BNum n => lt n (of_Z 1) | BBool _ => false end);
    [eauto|].
  destruct (lt (Math_round (Frequency.interval f)) (of_Z 0)); [eauto|].
  destruct (gt (Math_round (Frequency.interval f)) (Math_round (Frequency.max f))); [eauto|].
  destruct (gt (Math_round (Frequency.max f)) MAX_INTERVAL); [eauto|].
  discriminate.
Qed.

Lemma checked_frequency_valid f :
  frequency_invalid f = false ->
  checked_frequency f =
    Normal (Frequency.mk (Frequency.backoff f)
              (Math_round (Frequency.interval f)) (Math_round (Frequency.max f))).
Proof.
  unfold frequency_invalid, checked_frequency.
  destruct (match Frequency.backoff f with BNum n => lt n (of_Z 1) | BBool _ => false end);
    [discriminate|].
  destruct (lt (Math_round (Frequency.interval f)) (of_Z 0)); [discriminate|].
  destruct (gt (Math_round (Frequency.interval f)) (Math_round (Frequency.max f))); [discriminate|].
  destruct (gt (Math_round (Frequency.max f)) MAX_INTERVAL); [discriminate|].
  reflexivity.
Qed.

(** What the checks let through is within bounds, unless a field is
    [NaN]. *)
Lemma checked_frequency_ok f g :
  frequency_numeric f = true -> checked_frequency f = Normal g ->
  frequency_ok g = true.
Proof.
  intros Hn Hc.
  destruct (frequency_invalid f) eqn:Hi.
  { destruct (checked_frequency_invalid f Hi) as [m Hm]. congruence. }
  rewrite (checked_frequency_valid f Hi) in Hc. injection Hc as <-.
  unfold frequency_numeric in Hn. unfold frequency_invalid in Hi.
  apply andb_true_iff in Hn as [Hn Hb]. apply andb_true_iff in Hn as [H1 H2].
  apply negb_true_iff in H1, H2.
  apply orb_false_iff in Hi as [Hi Hm]. apply orb_false_iff in Hi as [Hi Hg].
  apply orb_false_iff in Hi as [Hbk Hl].
  unfold frequency_ok. cbn [Frequency.interval Frequency.max Frequency.backoff].
  rewrite !andb_true_iff. repeat split.
  - apply lt_false_le; [rewrite round_numeric|reflexivity|]; assumption.
  - apply lt_false_le; [rewrite round_numeric ..|]; assumption.
  - apply lt_false_le; [reflexivity|rewrite round_numeric|]; assumption.
  - destruct (Frequency.backoff f); [reflexivity|].
    apply negb_true_iff in Hb. apply lt_false_le; [assumption|reflexivity|assumption].
Qed.

(** ** The invariant of the reachable worlds *)

(** *** Tables *)

Lemma fresh_resolve k (s : Table Settlement) : fresh (resolve k s) = fresh s.
Proof. unfold resolve. destruct (entries s !! k) as [[]|]; reflexivity. Qed.

Lemma fresh_reject k r (s : Table Settlement) : fresh (reject k r s) = fresh s.
Proof. unfold reject. destruct (entries s !! k) as [[]|]; reflexivity. Qed.

Lemma entries_resolve_ne k k' (s : Table Settlement) :
  k <> k' -> entries (resolve k s) !! k' = entries s !! k'.
Proof.
  intros Hne. unfold resolve.
  destruct (entries s !! k) as [[]|]; try reflexivity.
  simpl. apply lookup_insert_ne. exact Hne.
Qed.

Lemma entries_resolve_pending k (s : Table Settlement) :
  entries s !! k = Some Pending ->
  entries (resolve k s) !! k = Some Fulfilled.
Proof. intros H. unfold resolve. rewrite H. simpl. apply lookup_insert_eq. Qed.

Lemma entries_reject_pending k r (s : Table Settlement) :
  entries s !! k = Some Pending ->
  entries (reject k r s) !! k = Some (Rejected r).
Proof. intros H. unfold reject. rewrite H. simpl. apply lookup_insert_eq. Qed.

(** *** What [schedule_update] leaves in each field *)

Lemma schedule_update_eq caught next w :
  schedule_update caught next w =
  {| poll := set__tick (fresh (promises w))
               (set__state (next_state next w) (poll w));
     promises := resolve (tick w) (table_add Pending (promises w));
     frames := cleared_frames w;
     timeouts := cleared_timeouts w;
     requests := requests w;
     awaiting :=
       awaiting w
       ++ [AwaitPending (tick w) (next_state next w) (fresh (promises w))
             caught];
     when := when w; document := document w; now := now w;
     ticked := ticked w ++ [next_state next w];
     disposed_emitted := disposed_emitted w; connected := connected w;
     invoked := invoked w; console := console w |}.
Proof.
  unfold schedule_update, cleared_frames, cleared_timeouts.
  destruct (seq (State.interval (state w)) Private.IMMEDIATE); reflexivity.
Qed.

Lemma Inv_ext w w' :
  poll w' = poll w -> promises w' = promises w -> frames w' = frames w ->
  timeouts w' = timeouts w -> requests w' = requests w ->
  awaiting w' = awaiting w -> Inv w -> Inv w'.
Proof.
  intros Hp Hpr Hf Ht Hr Ha
    [Itick Ipending Ipayload Istopped Iconstructed Iframes Itimeouts Irequests Iawaiting Ifrequency].
  constructor;
    unfold isDisposed, live_state, isDisposed, state, tick, frequency in *;
    rewrite ?Hp, ?Hpr, ?Hf, ?Ht, ?Hr, ?Ha; assumption.
Qed.

Lemma cont_ok_later k k' live live' (c : @Cont T U) :
  k < k' -> cont_ok k live c -> cont_ok k' live' c.
Proof.
  intros Hlt. destruct c; simpl.
  - intros [? ?]. split; [lia | assumption].
  - intros [? _]. split; [lia | intros ->; lia].
Qed.

Lemma cont_ok_disposed k live (c : @Cont T U) :
  cont_ok k live c -> cont_ok k None c.
Proof.
  destruct c; simpl; [tauto|].
  intros [? _]. split; [assumption | intros _ s Hs; discriminate].
Qed.

Lemma next_state_phase next w :
  State.phase (next_state next w) = default Phase.standby (Next.phase next).
Proof. reflexivity. Qed.

Lemma next_ok_not_disposed next w :
  next_ok next ->
  phase_is (State.phase (next_state next w)) Phase.disposed = false.
Proof.
  intros (_ & Hd & _). unfold phase_is. apply bool_decide_eq_false.
  rewrite next_state_phase. destruct (Next.phase next) as [p|]; simpl.
  - intros ->. congruence.
  - discriminate.
Qed.

Lemma Inv_schedule_update caught next w :
  next_ok next -> Inv w -> Inv (schedule_update caught next w).
Proof.
  intros Hn I. pose proof (next_ok_not_disposed next w Hn) as Hnd.
  destruct Hn as (Hc & Hd & Hp & Hs).
  rewrite schedule_update_eq. destruct I as
    [Itick Ipending Ipayload Istopped Iconstructed Iframes Itimeouts Irequests Iawaiting Ifrequency].
  constructor; unfold live_state, isDisposed, state, tick, frequency in *; simpl.
  - rewrite fresh_resolve. simpl. lia.
  - intros _. rewrite entries_resolve_ne by lia. simpl. apply lookup_insert_eq.
  - exact Hp.
  - intros Hst. destruct (Next.phase next) as [p|]; simpl in *; [|discriminate].
    subst p. rewrite (Hs eq_refl). reflexivity.
  - intros Hst. destruct (Next.phase next) as [p|]; simpl in *; [|discriminate].
    subst p. congruence.
  - unfold cleared_frames, state. 
    assert (map_Forall (fun (_ : Z) (scheduled : Z) =>
              scheduled <= fresh (promises w) /\
              (scheduled = fresh (promises w) ->
               phase_is (default Phase.standby (Next.phase next)) Phase.disposed = false ->
               seq (default (Frequency.interval (_frequency (poll w))) (Next.interval next))
                 Private.IMMEDIATE = true)) (entries (frames w))) as H.
    { eapply map_Forall_impl; [exact Iframes|]. simpl. intros _ s [? _].
      split; [lia | intros ->; lia]. }
    destruct (seq _ _); simpl; [apply map_Forall_delete|]; exact H.
  - unfold cleared_timeouts, state.
    assert (map_Forall (fun (_ : Z) (armed : Z * number) =>
              armed.1 <= fresh (promises w) /\
              (armed.1 = fresh (promises w) ->
               phase_is (default Phase.standby (Next.phase next)) Phase.disposed = false ->
               seq (default (Frequency.interval (_frequency (poll w))) (Next.interval next))
                 Private.NEVER = false)) (entries (timeouts w))) as H.
    { eapply map_Forall_impl; [exact Itimeouts|]. simpl. intros _ s [? _].
      split; [lia | intros E; lia]. }
    destruct (seq _ _); simpl; [|apply map_Forall_delete]; exact H.
  - eapply map_Forall_impl; [exact Irequests|]. simpl. intros; lia.
  - apply Forall_app. split.
    + eapply Forall_impl; [exact Iawaiting|]. intros c.
      apply cont_ok_later. exact Itick.
    + constructor; [|constructor]. simpl. split; [lia|].
      intros _ s. rewrite next_state_phase in Hnd. rewrite Hnd. congruence.
  - exact Ifrequency.
Qed.


Lemma Inv_schedule_checked caught next w :
  next_ok next -> Inv w -> Inv (schedule_checked caught next w).
Proof.
  intros Hn I. unfold schedule_checked.
  destruct (Next.cancel next) as [cancel|];
    [destruct (cancel (state w)); [exact I|]|];
    apply Inv_schedule_update; assumption.
Qed.

Lemma Inv_suspend c w :
  cont_ok (tick w) (live_state w) c -> is_await_tick c ->
  Inv w -> Inv (set_awaiting (awaiting w ++ [c]) w).
Proof.
  intros Hc Ht
    [Itick Ipending Ipayload Istopped Iconstructed Iframes Itimeouts Irequests Iawaiting Ifrequency]. constructor; try assumption.
  - intros Hst. destruct (Iconstructed Hst) as (? & ? & ? & ?).
    repeat split; try assumption.
    apply Forall_app. split; [assumption | repeat constructor; assumption].
  - apply Forall_app. split; [exact Iawaiting | repeat constructor; exact Hc].
Qed.

Lemma Inv_schedule caught next w :
  next_ok next -> Inv w -> Inv (schedule caught next w).
Proof.
  intros Hn I. unfold schedule.
  destruct (isDisposed w); [exact I|].
  destruct (_ && _).
  - apply Inv_suspend; [split; [lia | exact Hn] | exact Logic.I | exact I].
  - apply Inv_schedule_checked; assumption.
Qed.

Lemma Inv_schedule_arm st scheduled w :
  scheduled <= tick w ->
  (scheduled = tick w -> isDisposed w = false -> st = state w) ->
  State.phase (state w) <> Phase.constructed ->
  Inv w -> Inv (schedule_arm st scheduled w).
Proof.
  intros Hle Hst Hnc
    [Itick Ipending Ipayload Istopped Iconstructed Iframes Itimeouts Irequests Iawaiting Ifrequency]. unfold schedule_arm.
  destruct (seq (State.interval st) Private.IMMEDIATE) eqn:Ei;
    [|destruct (seq (State.interval st) Private.NEVER) eqn:En];
    constructor; try assumption; try (intros; contradiction).
  - apply map_Forall_insert_2; [|exact Iframes].
    split; [exact Hle|]. intros E D.
    change (seq (State.interval (state w)) Private.IMMEDIATE = true).
    rewrite <- (Hst E D). exact Ei.
  - apply map_Forall_insert_2; [|exact Itimeouts].
    split; [exact Hle|]. intros E D.
    change (seq (State.interval (state w)) Private.NEVER = false).
    rewrite <- (Hst E D). exact En.
Qed.

Lemma Inv_dispose w : Inv w -> Inv (dispose w).
Proof.
  intros I. unfold dispose. destruct (isDisposed w) eqn:D; [exact I|].
  destruct I as
    [Itick Ipending Ipayload Istopped Iconstructed Iframes Itimeouts Irequests Iawaiting Ifrequency].
  constructor; unfold live_state, isDisposed, state, tick, frequency in *; simpl.
  - rewrite fresh_reject. exact Itick.
  - discriminate.
  - congruence.
  - discriminate.
  - discriminate.
  - eapply map_Forall_impl; [exact Iframes|]. simpl.
    intros _ s [? _]. split; [assumption | discriminate].
  - eapply map_Forall_impl; [exact Itimeouts|]. simpl.
    intros _ s [? _]. split; [assumption | discriminate].
  - exact Irequests.
  - eapply Forall_impl; [exact Iawaiting|]. intros c. apply cont_ok_disposed.
  - exact Ifrequency.
Qed.

Lemma next_ok_empty : next_ok (@Next.empty T U).
Proof. repeat split; simpl; congruence. Qed.

Lemma next_ok_refresh : next_ok (@refresh_next T U).
Proof. repeat split; simpl; congruence. Qed.

Lemma next_ok_start : next_ok (@start_next T U).
Proof. repeat split; simpl; congruence. Qed.

Lemma next_ok_stop : next_ok (@stop_next T U).
Proof. repeat split; simpl; congruence. Qed.

Lemma Inv__execute w :
  State.phase (state w) <> Phase.constructed -> Inv w -> Inv (_execute w).
Proof.
  intros Hnc I. unfold _execute. destruct (resolve_standby _ _).
  - apply Inv_schedule; [apply next_ok_empty | exact I].
  - destruct I as
    [Itick Ipending Ipayload Istopped Iconstructed Iframes Itimeouts Irequests Iawaiting Ifrequency]. constructor; try assumption; try (intros; contradiction).
    apply map_Forall_insert_2; [|exact Irequests]. simpl. reflexivity.
Qed.

Lemma Inv_execute scheduled w :
  State.phase (state w) <> Phase.constructed -> Inv w ->
  Inv (execute scheduled w).
Proof.
  intros Hnc I. unfold execute. destruct (_ || _); [exact I|].
  apply Inv__execute; assumption.
Qed.

Lemma Inv_factory_then pending resolved w :
  Inv w -> Inv (factory_then pending resolved w).
Proof.
  intros I. unfold factory_then. destruct (_ || _); [exact I|].
  apply Inv_schedule; [|exact I].
  destruct (phase_is _ _); repeat split; simpl; congruence.
Qed.

Lemma Inv_factory_catch pending rejected random w :
  Inv w -> Inv (factory_catch pending rejected random w).
Proof.
  intros I. unfold factory_catch. destruct (_ || _); [exact I|].
  apply Inv_schedule; [|exact I]. repeat split; simpl; congruence.
Qed.

Lemma Inv_when_then w : Inv w -> Inv (when_then w).
Proof.
  intros I. unfold when_then. destruct (isDisposed w); [exact I|].
  apply Inv_schedule; [|exact I]. repeat split; simpl; congruence.
Qed.

Lemma Inv_when_catch w : Inv w -> Inv (when_catch w).
Proof.
  intros I. unfold when_catch. destruct (isDisposed w); [exact I|].
  apply Inv_schedule; [repeat split; simpl; congruence|].
  eapply Inv_ext; [..|exact I]; reflexivity.
Qed.

Lemma Inv_unqueue k w : Inv w -> Inv (set_awaiting (delete k (awaiting w)) w).
Proof.
  intros
    [Itick Ipending Ipayload Istopped Iconstructed Iframes Itimeouts Irequests Iawaiting Ifrequency].
  constructor; try assumption.
  - intros Hst. destruct (Iconstructed Hst) as (? & ? & ? & Hf).
    repeat split; try assumption. simpl.
    apply Forall_forall. intros c Hc. rewrite Forall_forall in Hf. apply Hf.
    eapply list_elem_of_delete_inv. exact Hc.
  - simpl. apply Forall_forall. intros c Hc.
    rewrite Forall_forall in Iawaiting. apply Iawaiting.
    eapply list_elem_of_delete_inv. exact Hc.
Qed.

Lemma Inv_resume k w : Inv w -> Inv (resume k w).
Proof.
  intros I. unfold resume.
  destruct (awaiting w !! k) as [c|] eqn:Hc; [|exact I].
  assert (Hin : c ∈ awaiting w) by (eapply list_elem_of_lookup_2; exact Hc).
  pose proof (inv_awaiting w I) as Hok. rewrite Forall_forall in Hok.
  specialize (Hok c Hin).
  destruct (entries (promises w) !! awaited c) as [[| |reason]|]; try exact I.
  - pose proof (Inv_unqueue k w I) as I'.
    destruct c as [t nx cg | pd st sc cg]; simpl.
    + apply Inv_schedule_checked; [apply Hok | exact I'].
    + destruct Hok as [Hle Hst]. apply Inv_schedule_arm; try assumption.
      * intros E D. apply Hst; [exact E|].
        unfold live_state. change (isDisposed w = false) in D. rewrite D.
        reflexivity.
      * change (State.phase (state w) <> Phase.constructed). intros Hp.
        destruct (inv_constructed w I Hp) as (_ & _ & _ & Hf).
        rewrite Forall_forall in Hf. exact (Hf _ Hin).
  - pose proof (Inv_unqueue k w I) as I'. simpl.
    destruct (is_caught c); [apply Inv_when_catch|]; exact I'.
Qed.

Lemma Inv_set_frequency f w w' :
  set_frequency f w = Normal w' -> Inv w -> Inv w'.
Proof.
  unfold set_frequency. intros H I.
  destruct (_ || _); [congruence|].
  destruct (checked_frequency f) as [g|] eqn:Hg; [|discriminate].
  injection H as <-. destruct I as
    [Itick Ipending Ipayload Istopped Iconstructed Iframes Itimeouts Irequests Iawaiting Ifrequency]. constructor; try assumption.
  exists f. exact Hg.
Qed.

Lemma Inv_set_standby s w : Inv w -> Inv (set_standby s w).
Proof.
  intros I. unfold set_standby. destruct (isDisposed w); [exact I|].
  destruct I as
    [Itick Ipending Ipayload Istopped Iconstructed Iframes Itimeouts Irequests Iawaiting Ifrequency]. constructor; assumption.
Qed.

Lemma Inv_construct options document now w :
  construct options document now = Normal w -> Inv w.
Proof.
  unfold construct. destruct (checked_frequency _) as [f|] eqn:Hf; [|discriminate].
  intros H. injection H as <-.
  constructor; unfold live_state, isDisposed, state, tick, frequency; simpl;
    try done.
  eauto.
Qed.

Lemma Inv_step e w : Inv w -> Inv (step e w).
Proof.
  intros I. destruct e as
    [ | | | | f | policy | fulfilled | k | handle | handle
    | request outcome random | ms | doc ]; simpl.
  - apply Inv_dispose, I.
  - apply Inv_schedule; [apply next_ok_refresh | exact I].
  - apply Inv_schedule; [apply next_ok_start | exact I].
  - apply Inv_schedule; [apply next_ok_stop | exact I].
  - destruct (set_frequency f w) eqn:E; [|exact I].
    eapply Inv_set_frequency; eassumption.
  - apply Inv_set_standby, I.
  - destruct (when w); [|exact I].
    destruct fulfilled; [apply Inv_when_then|destruct given; [apply Inv_when_catch|exact I]];
      (eapply Inv_ext; [..|exact I]; reflexivity).
  - apply Inv_resume, I.
  - destruct (entries (frames w) !! handle) as [s|] eqn:E; [|exact I].
    assert (Hnc : State.phase (state w) <> Phase.constructed).
    { intros Hp. destruct (inv_constructed w I Hp) as (He & _).
      rewrite He in E. rewrite lookup_empty in E. discriminate. }
    apply Inv_execute; [exact Hnc|].
    destruct I as
    [Itick Ipending Ipayload Istopped Iconstructed Iframes Itimeouts Irequests Iawaiting Ifrequency]. constructor; try assumption; try (intros; contradiction).
    apply map_Forall_delete. exact Iframes.
  - destruct (entries (timeouts w) !! handle) as [[s d]|] eqn:E; [|exact I].
    assert (Hnc : State.phase (state w) <> Phase.constructed).
    { intros Hp. destruct (inv_constructed w I Hp) as (_ & He & _).
      rewrite He in E. rewrite lookup_empty in E. discriminate. }
    apply Inv_execute; [exact Hnc|].
    destruct I as
    [Itick Ipending Ipayload Istopped Iconstructed Iframes Itimeouts Irequests Iawaiting Ifrequency]. constructor; try assumption; try (intros; contradiction).
    apply map_Forall_delete. exact Itimeouts.
  - destruct (entries (requests w) !! request) as [pending|] eqn:E; [|exact I].
    assert (Hnc : State.phase (state w) <> Phase.constructed).
    { intros Hp. destruct (inv_constructed w I Hp) as (_ & _ & He & _).
      rewrite He in E. rewrite lookup_empty in E. discriminate. }
    assert (I' : Inv (set_requests (table_remove request (requests w)) w)).
    { destruct I as
    [Itick Ipending Ipayload Istopped Iconstructed Iframes Itimeouts Irequests Iawaiting Ifrequency]. constructor; try assumption; try (intros; contradiction).
      apply map_Forall_delete. exact Irequests. }
    destruct outcome; [apply Inv_factory_then, I'|].
    destruct (is_draw random); [apply Inv_factory_catch, I' | exact I].
  - destruct (0 <=? ms); [|exact I].
    eapply Inv_ext; [..|exact I]; reflexivity.
  - eapply Inv_ext; [..|exact I]; reflexivity.
Qed.

(** Every reachable world satisfies the invariant. *)
Theorem reachable_Inv w : reachable w -> Inv w.
Proof.
  induction 1 as [options document now w H | e w _ IH].
  - eapply Inv_construct, H.
  - apply Inv_step, IH.
Qed.

(** *** The tick only moves forward *)

Lemma later_refl w : later w w.
Proof. right. tauto. Qed.

Lemma later_same w w' : poll w' = poll w -> later w w'.
Proof. intros H. right. unfold tick, isDisposed, state. rewrite H. tauto. Qed.

Lemma later_schedule_update caught next w :
  tick w < fresh (promises w) -> later w (schedule_update caught next w).
Proof. intros H. left. rewrite schedule_update_eq. exact H. Qed.

Lemma later_schedule_checked caught next w :
  tick w < fresh (promises w) -> later w (schedule_checked caught next w).
Proof.
  intros H. unfold schedule_checked.
  destruct (Next.cancel next) as [c|]; [destruct (c (state w))|];
    auto using later_refl, later_schedule_update.
Qed.

Lemma later_schedule caught next w :
  tick w < fresh (promises w) -> later w (schedule caught next w).
Proof.
  intros H. unfold schedule. destruct (isDisposed w); [apply later_refl|].
  destruct (_ && _); [apply later_same; reflexivity|].
  apply later_schedule_checked, H.
Qed.

Lemma later_schedule_arm st scheduled w : later w (schedule_arm st scheduled w).
Proof.
  unfold schedule_arm. right.
  destruct (seq _ _); [|destruct (seq _ _)]; split; auto.
Qed.

Lemma later_dispose w : later w (dispose w).
Proof.
  unfold dispose. destruct (isDisposed w) eqn:D; [apply later_refl|].
  right. split; [reflexivity | congruence].
Qed.

Lemma later_trans_same w w' w'' :
  poll w' = poll w -> tick w' < fresh (promises w') -> 
  (tick w' < fresh (promises w') -> later w' w'') -> later w w''.
Proof.
  intros Hp Hf H. specialize (H Hf). unfold later, tick, isDisposed, state in *.
  rewrite Hp in H. exact H.
Qed.

Lemma later_step e w : Inv w -> later w (step e w).
Proof.
  intros I. pose proof (inv_tick w I) as Hf. destruct e as
    [ | | | | f | policy | fulfilled | k | handle | handle
    | request outcome random | ms | doc ]; simpl.
  - apply later_dispose.
  - apply later_schedule, Hf.
  - apply later_schedule, Hf.
  - apply later_schedule, Hf.
  - unfold set_frequency. destruct (_ || _); [apply later_refl|].
    destruct (checked_frequency _); [|apply later_refl]. right. split; auto.
  - unfold set_standby. destruct (isDisposed w); [apply later_refl|].
    right. split; auto.
  - destruct (when w); [|apply later_refl].
    destruct fulfilled; [|destruct given; [|apply later_refl]].
    + unfold when_then. destruct (isDisposed _) eqn:D; [apply later_same; reflexivity|].
      eapply later_trans_same; [| |apply later_schedule]; [reflexivity|exact Hf].
    + unfold when_catch. destruct (isDisposed _) eqn:D; [apply later_same; reflexivity|].
      eapply later_trans_same; [| |apply later_schedule]; [reflexivity|exact Hf].
  - unfold resume. destruct (awaiting w !! k) as [c|]; [|apply later_refl].
    destruct (entries (promises w) !! awaited c) as [[| |r]|]; try apply later_refl.
    + destruct c as [t nx cg | pd st sc cg]; simpl.
      * eapply later_trans_same; [| |apply later_schedule_checked]; [reflexivity|exact Hf].
      * eapply later_trans_same; [| |intros _; apply later_schedule_arm]; [reflexivity|exact Hf].
    + simpl. destruct (is_caught c); [|apply later_same; reflexivity].
      unfold when_catch. destruct (isDisposed _) eqn:D; [apply later_same; reflexivity|].
      eapply later_trans_same; [| |apply later_schedule]; [reflexivity|exact Hf].
  - destruct (entries (frames w) !! handle); [|apply later_refl].
    unfold execute. destruct (_ || _); [apply later_same; reflexivity|].
    unfold _execute. destruct (resolve_standby _ _); [|apply later_same; reflexivity].
    eapply later_trans_same; [| |apply later_schedule]; [reflexivity|exact Hf].
  - destruct (entries (timeouts w) !! handle) as [[s d]|]; [|apply later_refl].
    unfold execute. destruct (_ || _); [apply later_same; reflexivity|].
    unfold _execute. destruct (resolve_standby _ _); [|apply later_same; reflexivity].
    eapply later_trans_same; [| |apply later_schedule]; [reflexivity|exact Hf].
  - destruct (entries (requests w) !! request); [|apply later_refl].
    destruct outcome.
    + unfold factory_then. destruct (_ || _); [apply later_same; reflexivity|].
      eapply later_trans_same; [| |apply later_schedule]; [reflexivity|exact Hf].
    + destruct (is_draw random); [|apply later_refl].
      unfold factory_catch. destruct (_ || _); [apply later_same; reflexivity|].
      eapply later_trans_same; [| |apply later_schedule]; [reflexivity|exact Hf].
  - destruct (0 <=? ms); [apply later_same; reflexivity|apply later_refl].
  - apply later_same; reflexivity.
Qed.

Lemma superseded_later s w w' : later w w' -> superseded s w -> superseded s w'.
Proof.
  unfold later, superseded. intros [Hl | [He Hd]] [Hs | [D Hs]].
  - left. lia.
  - left. lia.
  - left. lia.
  - right. split; [auto | lia].
Qed.

Lemma Inv_run es w : Inv w -> Inv (run es w).
Proof.
  revert w. induction es as [|e es IH]; intros w I; [exact I|].
  simpl. apply IH, Inv_step, I.
Qed.

Lemma reachable_run es w : reachable w -> reachable (run es w).
Proof.
  revert w. induction es as [|e es IH]; intros w R; [exact R|].
  simpl. apply IH. constructor. exact R.
Qed.

Lemma superseded_run s es w :
  Inv w -> superseded s w -> superseded s (run es w).
Proof.
  revert w. induction es as [|e es IH]; intros w I S; [exact S|].
  simpl. apply IH; [apply Inv_step, I|].
  eapply superseded_later; [apply later_step, I | exact S].
Qed.

Lemma execute_superseded s w : superseded s w -> execute s w = w.
Proof.
  unfold superseded, execute. intros [H | [D _]].
  - destruct (isDisposed w); [reflexivity|]. simpl.
    destruct (Z.eqb_spec (tick w) s); [lia | reflexivity].
  - rewrite D. reflexivity.
Qed.

Lemma armed_le s w : Inv w -> armed s w -> s <= tick w.
Proof.
  intros I [[h H] | (h & d & H)].
  - apply (inv_frames w I) in H. tauto.
  - apply (inv_timeouts w I) in H. simpl in H. tauto.
Qed.

Lemma superseded_dispose s w : Inv w -> armed s w -> superseded s (dispose w).
Proof.
  intros I A. pose proof (armed_le s w I A) as Hle.
  unfold dispose. destruct (isDisposed w) eqn:D.
  - right. split; assumption.
  - right. split; [reflexivity | exact Hle].
Qed.

Lemma superseded_stop s w : Inv w -> armed s w -> superseded s (stop w).
Proof.
  intros I A. pose proof (armed_le s w I A) as Hle.
  unfold stop, schedule. destruct (isDisposed w) eqn:D.
  { right. split; assumption. }
  destruct (phase_is (State.phase (state w)) Phase.constructed) eqn:C; simpl.
  { apply bool_decide_eq_true in C.
    destruct (inv_constructed w I C) as (Hf & Ht & _).
    destruct A as [[h H] | (h & d & H)];
      [rewrite Hf in H | rewrite Ht in H]; rewrite lookup_empty in H; discriminate. }
  unfold schedule_checked. simpl.
  destruct (phase_is (State.phase (state w)) Phase.stopped) eqn:S.
  - apply bool_decide_eq_true in S. pose proof (inv_stopped w I S) as Hn.
    left. destruct (Z.eq_dec s (tick w)) as [E|]; [|lia]. exfalso.
    destruct A as [[h H] | (h & d & H)].
    + apply (inv_frames w I) in H. destruct H as [_ H].
      specialize (H E D). rewrite Hn in H. discriminate.
    + apply (inv_timeouts w I) in H. destruct H as [_ H].
      specialize (H E D). rewrite Hn in H. discriminate.
  - left. rewrite schedule_update_eq. unfold tick at 1. simpl.
    pose proof (inv_tick w I). lia.
Qed.

(** *** An undisposed poll stays so until [dispose] is called *)

Lemma undisposed_same w w' :
  poll w' = poll w -> disposed_emitted w' = disposed_emitted w ->
  undisposed w -> undisposed w'.
Proof.
  unfold undisposed, isDisposed, state. intros -> ->. tauto.
Qed.

Lemma undisposed_schedule_update caught next w :
  next_ok next -> undisposed w -> undisposed (schedule_update caught next w).
Proof.
  intros Hn [_ He]. rewrite schedule_update_eq. split; [|exact He].
  apply (next_ok_not_disposed next w Hn).
Qed.

Lemma undisposed_schedule_checked caught next w :
  next_ok next -> undisposed w -> undisposed (schedule_checked caught next w).
Proof.
  intros Hn H. unfold schedule_checked.
  destruct (Next.cancel next) as [c|]; [destruct (c (state w))|];
    auto using undisposed_schedule_update.
Qed.

Lemma undisposed_schedule caught next w :
  next_ok next -> undisposed w -> undisposed (schedule caught next w).
Proof.
  intros Hn H. unfold schedule. destruct (isDisposed w); [exact H|].
  destruct (_ && _); [exact H|]. apply undisposed_schedule_checked; assumption.
Qed.

Lemma undisposed_when_catch w : undisposed w -> undisposed (when_catch w).
Proof.
  intros H. unfold when_catch. destruct (isDisposed w); [exact H|].
  apply undisposed_schedule; [repeat split; simpl; congruence | exact H].
Qed.

Lemma undisposed_step e w :
  Inv w -> is_dispose e = false -> undisposed w -> undisposed (step e w).
Proof.
  intros I He H. destruct e as
    [ | | | | f | policy | fulfilled | k | handle | handle
    | request outcome random | ms | doc ];
    simpl; try discriminate He.
  - apply undisposed_schedule; [apply next_ok_refresh | exact H].
  - apply undisposed_schedule; [apply next_ok_start | exact H].
  - apply undisposed_schedule; [apply next_ok_stop | exact H].
  - unfold set_frequency. destruct (_ || _); [exact H|].
    destruct (checked_frequency _); exact H.
  - unfold set_standby. destruct (isDisposed w); exact H.
  - destruct (when w); [|exact H].
    destruct fulfilled; [|destruct given; [|exact H]].
    + unfold when_then. destruct (isDisposed _); [exact H|].
      apply undisposed_schedule; [repeat split; simpl; congruence | exact H].
    + apply undisposed_when_catch. exact H.
  - unfold resume. destruct (awaiting w !! k) as [c|] eqn:Hc; [|exact H].
    assert (Hin : c ∈ awaiting w) by (eapply list_elem_of_lookup_2; exact Hc).
    pose proof (inv_awaiting w I) as Hok. rewrite Forall_forall in Hok.
    specialize (Hok c Hin).
    destruct (entries (promises w) !! awaited c) as [[| |r]|]; try exact H.
    + destruct c as [t nx cg | pd st sc cg]; simpl.
      * apply undisposed_schedule_checked; [apply Hok | exact H].
      * unfold schedule_arm.
        destruct (seq _ _); [|destruct (seq _ _)]; exact H.
    + simpl. destruct (is_caught c); [apply undisposed_when_catch|]; exact H.
  - destruct (entries (frames w) !! handle); [|exact H].
    unfold execute. destruct (_ || _); [exact H|].
    unfold _execute. destruct (resolve_standby _ _); [|exact H].
    apply undisposed_schedule; [apply next_ok_empty | exact H].
  - destruct (entries (timeouts w) !! handle) as [[s d]|]; [|exact H].
    unfold execute. destruct (_ || _); [exact H|].
    unfold _execute. destruct (resolve_standby _ _); [|exact H].
    apply undisposed_schedule; [apply next_ok_empty | exact H].
  - destruct (entries (requests w) !! request); [|exact H].
    destruct outcome.
    + unfold factory_then. destruct (_ || _); [exact H|].
      apply undisposed_schedule; [|exact H].
      destruct (phase_is _ _); repeat split; simpl; congruence.
    + destruct (is_draw random); [|exact H].
      unfold factory_catch. destruct (_ || _); [exact H|].
      apply undisposed_schedule; [repeat split; simpl; congruence | exact H].
  - destruct (0 <=? ms); exact H.
  - exact H.
Qed.

Lemma undisposed_run es w :
  Inv w -> forallb (fun e => negb (is_dispose e)) es = true ->
  undisposed w -> undisposed (run es w).
Proof.
  revert w. induction es as [|e es IH]; intros w I He H; [exact H|].
  simpl in He. apply andb_true_iff in He as [He1 He2].
  apply negb_true_iff in He1.
  simpl. apply IH; [apply Inv_step, I | exact He2 |].
  apply undisposed_step; assumption.
Qed.

Lemma undisposed_construct options document now w :
  construct options document now = Normal w -> undisposed w.
Proof.
  unfold construct. destruct (checked_frequency _); [|discriminate].
  intros H. injection H as <-. split; reflexivity.
Qed.

(** *** A disposed poll ignores the calls of its owner *)

Lemma schedule_disposed caught next w :
  isDisposed w = true -> schedule caught next w = w.
Proof. intros D. unfold schedule. rewrite D. reflexivity. Qed.

Lemma dispose_disposed w : isDisposed w = true -> dispose w = w.
Proof. intros D. unfold dispose. rewrite D. reflexivity. Qed.

Lemma call_disposed e w :
  is_call e = true -> isDisposed w = true -> step e w = w.
Proof.
  intros He D. destruct e as
    [ | | | | f | policy | fulfilled | k | handle | handle
    | request outcome random | ms | doc ];
    try discriminate He; simpl.
  - apply dispose_disposed, D.
  - apply schedule_disposed, D.
  - apply schedule_disposed, D.
  - apply schedule_disposed, D.
Qed.

Lemma calls_disposed es w :
  forallb is_call es = true -> isDisposed w = true -> run es w = w.
Proof.
  induction es as [|e es IH]; intros He D; [reflexivity|].
  simpl in He. apply andb_true_iff in He as [He1 He2].
  simpl. rewrite (call_disposed e w He1 D). apply IH; assumption.
Qed.

Lemma dispose_effect w :
  isDisposed w = false ->
  entries (promises w) !! tick w = Some Pending ->
  isDisposed (dispose w) = true
  /\ state (dispose w) = State.mk Private.NEVER None Phase.disposed (now w)
  /\ tick (dispose w) = tick w
  /\ entries (promises (dispose w)) !! tick w
     = Some (Rejected ("Poll (" ++ name (poll w) ++ ") is disposed."))
  /\ disposed_emitted (dispose w) = S (disposed_emitted w)
  /\ connected (dispose w) = false.
Proof.
  intros D P. unfold dispose. rewrite D. repeat split.
  simpl. apply entries_reject_pending. exact P.
Qed.

(** ** The frequency setter on a poll *)
Lemma round_round a : Math_round (Math_round a) = Math_round a.
Proof. destruct a; try reflexivity. apply round_of_Z. Qed.

Lemma checked_frequency_fixed f g :
  checked_frequency f = Normal g -> frequency_invalid g = false.
Proof.
  intros H. destruct (frequency_invalid f) eqn:Hi.
  { destruct (checked_frequency_invalid f Hi) as [m Hm]. congruence. }
  rewrite (checked_frequency_valid f Hi) in H. injection H as <-.
  unfold frequency_invalid in *.
  cbn [Frequency.backoff Frequency.interval Frequency.max].
  rewrite !round_round. exact Hi.
Qed.

Lemma deepEqual_invalid f g :
  deepEqual f g = true -> frequency_invalid f = frequency_invalid g.
Proof.
  unfold deepEqual. intros H.
  apply andb_true_iff in H as [H Hm]. apply andb_true_iff in H as [Hb Hi].
  unfold frequency_invalid.
  rewrite (seq_round _ _ Hi), (seq_round _ _ Hm).
  f_equal. f_equal. f_equal.
  destruct (Frequency.backoff f), (Frequency.backoff g);
    try discriminate Hb; try reflexivity.
  simpl in Hb. apply seq_lt_l. exact Hb.
Qed.

(** An invalid frequency makes the setter of a live poll throw, and the
    poll keeps the frequency it had. *)
Lemma set_frequency_invalid_throws f w :
  Inv w -> isDisposed w = false -> frequency_invalid f = true ->
  (exists message, set_frequency f w = Throw message)
  /\ step (SetFrequency f) w = w.
Proof.
  intros I D Hi.
  assert (exists message, set_frequency f w = Throw message) as [m Hm].
  { unfold set_frequency. rewrite D. simpl.
    destruct (deepEqual f (_frequency (poll w))) eqn:E.
    - destruct (inv_frequency w I) as [a Ha].
      apply checked_frequency_fixed in Ha.
      rewrite (deepEqual_invalid _ _ E) in Hi. unfold frequency in Ha. congruence.
    - destruct (checked_frequency_invalid f Hi) as [m ->]. eauto. }
  split; [eauto|]. simpl. rewrite Hm. reflexivity.
Qed.

(** An accepted assignment without [NaN] keeps the frequency invariant. *)
Lemma set_frequency_accepted_ok f w w' :
  frequency_numeric f = true -> frequency_ok (frequency w) = true ->
  set_frequency f w = Normal w' -> frequency_ok (frequency w') = true.
Proof.
  intros Hn Hok. unfold set_frequency.
  destruct (_ || _); [congruence|].
  destruct (checked_frequency f) as [g|] eqn:Hg; [|discriminate].
  intros H. injection H as <-. eapply checked_frequency_ok; eassumption.
Qed.

(** So does the construction. *)
Lemma construct_frequency_ok options document time w :
  frequency_numeric
    (PartialFrequency.over Private.DEFAULT_FREQUENCY
       (default PartialFrequency.empty (IOptions.frequency options))) = true ->
  construct options document time = Normal w ->
  frequency_ok (frequency w) = true.
Proof.
  intros Hn. unfold construct.
  destruct (checked_frequency _) as [g|] eqn:Hg; [|discriminate].
  intros H. injection H as <-. eapply checked_frequency_ok; eassumption.
Qed.

(** Without a frequency option the poll starts with the defaults. *)
Lemma construct_default_frequency name standby when document time :
  exists w : @World T U,
    construct (IOptions.mk None name standby when) document time = Normal w
    /\ frequency w = Private.DEFAULT_FREQUENCY
    /\ frequency_ok (frequency w) = true.
Proof. eexists. split; [reflexivity|]. split; reflexivity. Qed.

(** ** The standby policies that behave as documented *)
Lemma resolve_standby_never d : resolve_standby (Literal never) d = false.
Proof. reflexivity. Qed.

Lemma resolve_standby_when_hidden d :
  resolve_standby (Literal when_hidden) d
  = match d with Some doc => hidden doc | None => false end.
Proof. reflexivity. Qed.

Lemma resolve_standby_predicate_true f d :
  f d = RBool true -> resolve_standby (Function f) d = true.
Proof. intros H. unfold resolve_standby. rewrite H. reflexivity. Qed.

(** Whatever boolean the predicate answers, [_execute] stands by. *)
Lemma resolve_standby_predicate_bool f d b :
  f d = RBool b -> resolve_standby (Function f) d = true.
Proof. intros H. unfold resolve_standby. rewrite H. reflexivity. Qed.

(** ** Disposal *)

(** [dispose()] and the calls made after it. [dispose()] is idempotent. On
    a poll that was constructed and then went through any events but a call
    of [dispose], the first call
    leaves [isDisposed] true, the state [{phase: 'disposed', interval:
    NEVER, payload: null}] stamped with the current time, and the tick
    promise, which was pending, rejected with "Poll (name) is disposed.";
    the [disposed] signal has then been emitted exactly once; and from
    there on [dispose] and every sequence of calls of [dispose], [refresh],
    [start] and [stop], as well as [schedule] with any argument, return
    the world as it is. A call of [schedule] that was suspended before
    [dispose()] is not among these calls. *)
Theorem dispose_is_terminal options document time w0 es :
  construct options document time = Normal w0 ->
  forallb (fun e => negb (is_dispose e)) es = true ->
  let w := run es w0 in
  let w' := dispose w in
  isDisposed w' = true
  /\ state w' = State.mk Private.NEVER None Phase.disposed (now w)
  /\ entries (promises w) !! tick w = Some Pending
  /\ tick w' = tick w
  /\ entries (promises w') !! tick w'
     = Some (Rejected ("Poll (" ++ name (poll w) ++ ") is disposed."))
  /\ disposed_emitted w' = 1%nat
  /\ dispose w' = w'
  /\ (forall calls, forallb is_call calls = true -> run calls w' = w')
  /\ (forall caught next, schedule caught next w' = w').
Proof.
  intros Hc He w w'.
  pose proof (Inv_construct _ _ _ _ Hc) as I0.
  pose proof (Inv_run es w0 I0) as I. fold w in I.
  destruct (undisposed_run es w0 I0 He (undisposed_construct _ _ _ _ Hc))
    as [D E]. fold w in D, E.
  pose proof (inv_pending w I D) as P.
  destruct (dispose_effect w D P) as (H1 & H2 & H3 & H4 & H5 & H6).
  fold w' in H1, H2, H3, H4, H5, H6.
  repeat split; try assumption.
  - rewrite H3. exact H4.
  - rewrite H5, E. reflexivity.
  - apply dispose_disposed, H1.
  - intros calls Hcalls. apply calls_disposed; assumption.
  - intros caught next. apply schedule_disposed, H1.
Qed.

(** ** Settlement of the factory promise *)

(** Claim C5. When a factory promise settles, by a resolution or by a
    rejection, while the poll is disposed or while the tick captured at the
    invocation is not the current tick any more, the handler returns at its
    guard: the poll, its state, the [ticked] log and the factory log are
    unchanged, and the world differs at most by the request that left the
    host. *)
Theorem stale_settlement_is_discarded w request pending outcome random :
  entries (requests w) !! request = Some pending ->
  isDisposed w = true \/ tick w <> pending ->
  let w' := step (FactorySettles request outcome random) w in
  (w' = w \/ w' = set_requests (table_remove request (requests w)) w)
  /\ poll w' = poll w
  /\ state w' = state w
  /\ ticked w' = ticked w
  /\ invoked w' = invoked w.
Proof.
  intros Hr Hs. simpl. rewrite Hr.
  assert (G : isDisposed (set_requests (table_remove request (requests w)) w)
              || negb (tick (set_requests (table_remove request (requests w)) w)
                       =? pending) = true).
  { change (isDisposed w || negb (tick w =? pending) = true).
    destruct Hs as [-> | Hne]; [reflexivity|].
    apply orb_true_iff. right. apply negb_true_iff. apply Z.eqb_neq. exact Hne. }
  destruct outcome as [v | e].
  - unfold factory_then. rewrite G. repeat split. right. reflexivity.
  - destruct (is_draw random).
    + unfold factory_catch. rewrite G. repeat split. right. reflexivity.
    + repeat split. left. reflexivity.
Qed.

(** Claim C6. When the factory resolves with [resolved] and the result is
    not dropped, the next state is installed at once: its payload is
    [resolved], its interval is the base interval, and its phase is
    [reconnected] if the state at settlement has phase [rejected] and
    [resolved] otherwise; this state is what [ticked] emits. A success
    right after a rejection therefore shows [rejected] and then
    [reconnected]. *)
Theorem resolution_schedules_resolved_or_reconnected
  w request pending (resolved : T) random :
  reachable w ->
  entries (requests w) !! request = Some pending ->
  isDisposed w = false ->
  tick w = pending ->
  let w' := step (FactorySettles request (inl resolved) random) w in
  state w' =
    State.mk (Frequency.interval (frequency w)) (Some (inl resolved))
      (if phase_is (State.phase (state w)) Phase.rejected
       then Phase.reconnected else Phase.resolved)
      (now w)
  /\ ticked w' = ticked w ++ [state w'].
Proof.
  intros R Hr D Ht. pose proof (reachable_Inv w R) as I.
  assert (Hnc : phase_is (State.phase (state w)) Phase.constructed = false).
  { apply bool_decide_eq_false. intros Hp.
    destruct (inv_constructed w I Hp) as (_ & _ & He & _).
    rewrite He, lookup_empty in Hr. discriminate. }
  intros w'.
  assert (E : w' =
    schedule_update false
      (Next.mk None None (Some (Some (inl resolved)))
         (Some (if phase_is (State.phase (state w)) Phase.rejected
                then Phase.reconnected else Phase.resolved)) None)
      (set_requests (table_remove request (requests w)) w)).
  { unfold w'. simpl. rewrite Hr. unfold factory_then, schedule.
    change (isDisposed (set_requests (table_remove request (requests w)) w))
      with (isDisposed w).
    change (tick (set_requests (table_remove request (requests w)) w))
      with (tick w).
    change (state (set_requests (table_remove request (requests w)) w))
      with (state w).
    rewrite D, Ht, Z.eqb_refl, Hnc. reflexivity. }
  rewrite E, schedule_update_eq. split; reflexivity.
Qed.

(** ** The cancel rules of [refresh] and [start] *)

(** At its check, [refresh] ends in phase [refreshed] either way, emits
    [ticked] only if the phase was not [refreshed] yet, and a second check
    changes nothing. *)
Lemma refresh_checked caught w :
  let w1 := schedule_checked caught refresh_next w in
  State.phase (state w1) = Phase.refreshed
  /\ schedule_checked caught refresh_next w1 = w1
  /\ ticked w1 =
       ticked w ++
       (if phase_is (State.phase (state w)) Phase.refreshed
        then [] else [state w1]).
Proof.
  unfold schedule_checked. simpl.
  destruct (phase_is (State.phase (state w)) Phase.refreshed) eqn:E.
  - rewrite E. rewrite app_nil_r. apply bool_decide_eq_true in E. auto.
  - rewrite schedule_update_eq. simpl. auto.
Qed.

(** Claim C7. On a constructed poll that is past its gate, two calls of
    [refresh] in a row perform one [refreshed] transition: the first call
    leaves the phase [refreshed] (with an immediate interval when it had to
    transition), the second call is cancelled and returns the world of the
    first, and [ticked] has emitted one state between them unless the
    phase was [refreshed] to begin with. The same holds for calls that
    were suspended at the gate, once they are resumed in any world: the
    first resumption leaves the phase [refreshed], emitting one state
    unless it was so already, and a second resumption changes nothing. *)
Theorem refresh_twice_one_transition w :
  isDisposed w = false ->
  State.phase (state w) <> Phase.constructed ->
  let w1 := refresh w in
  let w2 := refresh w1 in
  State.phase (state w1) = Phase.refreshed
  /\ w2 = w1
  /\ State.interval (state w1) =
       (if phase_is (State.phase (state w)) Phase.refreshed
        then State.interval (state w) else Private.IMMEDIATE)
  /\ ticked w2 =
       ticked w ++
       (if phase_is (State.phase (state w)) Phase.refreshed
        then [] else [state w1])
  /\ (forall pending caught w0,
        let c := AwaitTick pending refresh_next caught in
        let w1 := continue c w0 in
        State.phase (state w1) = Phase.refreshed
        /\ continue c w1 = w1
        /\ ticked w1 =
             ticked w0 ++
             (if phase_is (State.phase (state w0)) Phase.refreshed
              then [] else [state w1])).
Proof.
  intros D Hnc w1 w2.
  assert (Hc : phase_is (State.phase (state w)) Phase.constructed = false)
    by (apply bool_decide_eq_false; exact Hnc).
  assert (E1 : w1 = schedule_checked false refresh_next w).
  { unfold w1, refresh, schedule. rewrite D, Hc. reflexivity. }
  destruct (refresh_checked false w) as (Hp & Hi & Ht).
  rewrite <- E1 in Hp, Hi, Ht.
  assert (D1 : isDisposed w1 = false).
  { unfold isDisposed. rewrite Hp. reflexivity. }
  assert (E2 : w2 = w1).
  { unfold w2, refresh, schedule. rewrite D1, Hp. simpl. exact Hi. }
  split; [exact Hp|]. split; [exact E2|]. split; [|split].
  - rewrite E1. unfold schedule_checked. simpl.
    destruct (phase_is (State.phase (state w)) Phase.refreshed); [reflexivity|].
    rewrite schedule_update_eq. reflexivity.
  - rewrite E2. exact Ht.
  - intros pending caught w0. exact (refresh_checked caught w0).
Qed.

(** ** The payload *)

(** Claim C9. In every world that a poll reaches from its construction
    through the calls of its owner and its own scheduling and execution,
    the payload of the state is [null] unless the phase is [resolved],
    [rejected] or [reconnected]. *)
Theorem payload_null_unless_settled w :
  reachable w ->
  settled_phase (State.phase (state w)) = false ->
  State.payload (state w) = None.
Proof.
  intros R Hs. pose proof (inv_payload w (reachable_Inv w R)) as H.
  destruct (State.payload (state w)) as [v|]; [|reflexivity].
  rewrite H in Hs; [discriminate | discriminate].
Qed.

(** Claim C10. On a constructed poll that is past its gate, [start()]
    transitions to [started], with an immediate interval and no payload,
    only when the phase it is evaluated against is [standby] or [stopped];
    for every other phase the call is cancelled and the world is unchanged.
    A call of [start] that was suspended at the gate is evaluated against
    the state at its resumption, whatever that state is, by the same
    rule. *)
Theorem start_only_from_standby_or_stopped w :
  isDisposed w = false ->
  State.phase (state w) <> Phase.constructed ->
  let rule (before after : @World T U) :=
    if phase_is (State.phase (state before)) Phase.standby
       || phase_is (State.phase (state before)) Phase.stopped
    then state after =
           State.mk Private.IMMEDIATE None Phase.started (now before)
         /\ ticked after = ticked before ++ [state after]
    else after = before in
  rule w (start w)
  /\ (forall pending w0,
        rule w0 (continue (AwaitTick pending start_next false) w0)).
Proof.
  intros D Hnc rule.
  assert (Hc : phase_is (State.phase (state w)) Phase.constructed = false)
    by (apply bool_decide_eq_false; exact Hnc).
  assert (E : start w = schedule_checked false start_next w).
  { unfold start, schedule. rewrite D, Hc. reflexivity. }
  assert (R : forall w0, rule w0 (schedule_checked false start_next w0)).
  { intros w0. unfold rule, schedule_checked. cbn [Next.cancel start_next].
    destruct (phase_is (State.phase (state w0)) Phase.standby);
      destruct (phase_is (State.phase (state w0)) Phase.stopped);
      cbn [negb andb orb];
      try reflexivity; rewrite schedule_update_eq; split; reflexivity. }
  split; [rewrite E; apply R | intros pending w0; apply R].
Qed.

End Properties.

Lemma scenario_poll_constructed :
  construct scenario_options None 0 = Normal scenario_poll.
Proof. vm_compute. reflexivity. Qed.

Lemma scenario_reachable es : reachable (run es scenario_poll).
Proof.
  apply reachable_run.
  apply (reachable_construct scenario_options None 0).
  exact scenario_poll_constructed.
Qed.

(** ** Evaluations *)

(** Claim C1, at a failing input. With the default frequency
    [{backoff: true, interval: 1000, max: 30000}], whose growth is 3, a
    previous state of interval [IMMEDIATE] and a draw of [0.5],
    [Private.sleep] returns 500, which is below the base interval. The
    scenario poll reaches this on its first rejection: the tick that
    invoked the factory was immediate, and with a base interval of 10 the
    rejected state waits 5. *)
Theorem sleep_undershoots_interval_after_immediate_tick :
  let last : State.t string string :=
    State.mk Private.IMMEDIATE None Phase.when_resolved 0 in
  let result := Private.sleep (Fin (1 # 2)) Private.DEFAULT_FREQUENCY last in
  frequency_ok Private.DEFAULT_FREQUENCY = true
  /\ ge (Private.growth (Frequency.backoff Private.DEFAULT_FREQUENCY)) (of_Z 1)
     = true
  /\ result = of_Z 500
  /\ le (Frequency.interval Private.DEFAULT_FREQUENCY) result = false
  /\ let w :=
       run [GateSettles true; Resume 0; FrameFires 1;
            FactorySettles 0 (inr "fail"%string) (1 # 2)] scenario_poll in
     State.phase (state w) = Phase.rejected
     /\ Frequency.interval (frequency w) = of_Z 10
     /\ State.interval (state w) = of_Z 5
     /\ le (Frequency.interval (frequency w)) (State.interval (state w))
        = false.
Proof. vm_compute. repeat split; reflexivity. Qed.

(** Claim C2, at a failing input. A standby predicate that answers [false]
    makes [_execute] stand by: when the armed frame of such a poll fires,
    the factory is not invoked and the next phase is [standby]. *)
Theorem standby_predicate_false_stands_by :
  (forall document, resolve_standby standby_false document = true)
  /\ exists w0 : @World string string,
       construct standby_false_options None 0 = Normal w0
       /\ let armed := run [GateSettles true; Resume 0] w0 in
          let fired := step (FrameFires 1) armed in
          entries (frames armed) !! 1 = Some (tick armed)
          /\ isDisposed armed = false
          /\ invoked fired = []
          /\ State.phase (state fired) = Phase.standby.
Proof.
  split; [reflexivity|].
  eexists. split; [vm_compute; reflexivity|].
  vm_compute. repeat split; reflexivity.
Qed.

(** Claim C3, at a failing input. The frequency setter of a poll that is
    not disposed accepts [{backoff: true, interval: NaN, max: NaN}] and
    stores it, although [0 <= NaN] is false. *)
Theorem frequency_setter_accepts_nan :
  isDisposed scenario_poll = false
  /\ exists w : @World string string,
       set_frequency nan_frequency scenario_poll = Normal w
       /\ frequency w = nan_frequency
       /\ frequency_ok (frequency w) = false
       /\ le (of_Z 0) (Frequency.interval (frequency w)) = false.
Proof.
  split; [reflexivity|].
  eexists. split; [vm_compute; reflexivity|].
  vm_compute. repeat split; reflexivity.
Qed.

(** ** Scenarios of the specification *)

(** The factory resolves "ok" at once: [when-resolved], then [resolved]
    with the payload, at the base interval. *)
Example scenario_resolves :
  let w :=
    run [GateSettles true; Resume 0; FrameFires 1;
         FactorySettles 0 (inl "ok"%string) 0] scenario_poll in
  map State.phase (ticked w) = [Phase.when_resolved; Phase.resolved]
  /\ state w = State.mk (of_Z 10) (Some (inl "ok"%string)) Phase.resolved 0.
Proof. vm_compute. split; reflexivity. Qed.

(** A standby predicate that always answers [true]: the factory is never
    invoked and the phase stays [standby] tick after tick. *)
Example scenario_standby_true :
  exists w0 : @World string string,
    construct standby_true_options None 0 = Normal w0
    /\ let w :=
         run [GateSettles true; Resume 0; FrameFires 1;
              Resume 0; TimeoutFires 1; Resume 0; TimeoutFires 2] w0 in
       invoked w = []
       /\ map State.phase (ticked w)
          = [Phase.when_resolved; Phase.standby; Phase.standby;
             Phase.standby].
Proof.
  eexists. split; [vm_compute; reflexivity|].
  vm_compute. split; reflexivity.
Qed.

(** Two calls of [stop] in a row: one transition. *)
Example scenario_stop_twice :
  let w := run [CallStop; CallStop] scenario_armed in
  map State.phase (ticked w) = [Phase.when_resolved; Phase.stopped]
  /\ w = stop scenario_armed.
Proof. vm_compute. split; reflexivity. Qed.

(** ** Instances *)

(** The scenario poll, disposed once its first frame is armed. *)
Lemma dispose_is_terminal_witness :
  construct scenario_options None 0 = Normal scenario_poll
  /\ forallb (fun e : @Event string string => negb (is_dispose e))
       [GateSettles true; Resume 0] = true
  /\ let w := run [GateSettles true; Resume 0] scenario_poll in
     let w' := dispose w in
     isDisposed w' = true
     /\ state w' = State.mk Private.NEVER None Phase.disposed (now w)
     /\ entries (promises w) !! tick w = Some Pending
     /\ tick w' = tick w
     /\ entries (promises w') !! tick w'
        = Some (Rejected ("Poll (" ++ name (poll w) ++ ") is disposed.")%string)
     /\ disposed_emitted w' = 1%nat
     /\ dispose w' = w'
     /\ (forall calls, forallb is_call calls = true -> run calls w' = w')
     /\ (forall caught next, schedule caught next w' = w').
Proof.
  split; [vm_compute; reflexivity|].
  split; [reflexivity|].
  apply (dispose_is_terminal scenario_options None 0 scenario_poll
           [GateSettles true; Resume 0]).
  - vm_compute; reflexivity.
  - reflexivity.
Defined.

(** Claim C5 on a request that a [refresh] has superseded. *)
Lemma stale_settlement_is_discarded_witness :
  entries (requests stale_world) !! 0 = Some 1
  /\ (isDisposed stale_world = true \/ tick stale_world <> 1)
  /\ let w' := step (FactorySettles 0 (inl "ok"%string) 0) stale_world in
     (w' = stale_world
      \/ w' = set_requests (table_remove 0 (requests stale_world)) stale_world)
     /\ poll w' = poll stale_world
     /\ state w' = state stale_world
     /\ ticked w' = ticked stale_world
     /\ invoked w' = invoked stale_world.
Proof.
  assert (H1 : entries (requests stale_world) !! 0 = Some 1)
    by (vm_compute; reflexivity).
  assert (H2 : isDisposed stale_world = true \/ tick stale_world <> 1)
    by (right; vm_compute; lia).
  split; [exact H1|]. split; [exact H2|].
  apply (stale_settlement_is_discarded stale_world 0 1 (inl "ok"%string) 0 H1 H2).
Defined.

(** Claim C6 on the resolution that follows the first rejection. *)
Lemma resolution_schedules_resolved_or_reconnected_witness :
  reachable rejected_world
  /\ entries (requests rejected_world) !! 1 = Some 2
  /\ isDisposed rejected_world = false
  /\ tick rejected_world = 2
  /\ let w' := step (FactorySettles 1 (inl "ok"%string) 0) rejected_world in
     state w' =
       State.mk (Frequency.interval (frequency rejected_world))
         (Some (inl "ok"%string))
         (if phase_is (State.phase (state rejected_world)) Phase.rejected
          then Phase.reconnected else Phase.resolved)
         (now rejected_world)
     /\ ticked w' = ticked rejected_world ++ [state w'].
Proof.
  assert (R : reachable rejected_world) by apply scenario_reachable.
  assert (H1 : entries (requests rejected_world) !! 1 = Some 2)
    by (vm_compute; reflexivity).
  assert (H2 : isDisposed rejected_world = false) by (vm_compute; reflexivity).
  assert (H3 : tick rejected_world = 2) by (vm_compute; reflexivity).
  repeat (split; [assumption|]).
  apply (resolution_schedules_resolved_or_reconnected
           rejected_world 1 2 "ok"%string 0 R H1 H2 H3).
Defined.

(** The phases that the scenario emits when the factory rejects and then
    resolves. *)
Example scenario_reconnect_phases :
  map State.phase (ticked (run scenario_reconnect scenario_poll))
  = [Phase.when_resolved; Phase.rejected; Phase.reconnected]
  /\ State.payload (state (run scenario_reconnect scenario_poll))
     = Some (inl "ok"%string).
Proof. vm_compute. split; reflexivity. Qed.

(** Claim C7 on the scenario poll with its first frame armed. *)
Lemma refresh_twice_one_transition_witness :
  isDisposed scenario_armed = false
  /\ State.phase (state scenario_armed) <> Phase.constructed
  /\ let w1 := refresh scenario_armed in
     let w2 := refresh w1 in
     State.phase (state w1) = Phase.refreshed
     /\ w2 = w1
     /\ State.interval (state w1) =
          (if phase_is (State.phase (state scenario_armed)) Phase.refreshed
           then State.interval (state scenario_armed)
           else Private.IMMEDIATE)
     /\ ticked w2 =
          ticked scenario_armed ++
          (if phase_is (State.phase (state scenario_armed)) Phase.refreshed
           then [] else [state w1])
     /\ (forall pending caught (w0 : @World string string),
           let c := AwaitTick pending refresh_next caught in
           let w1 := continue c w0 in
           State.phase (state w1) = Phase.refreshed
           /\ continue c w1 = w1
           /\ ticked w1 =
                ticked w0 ++
                (if phase_is (State.phase (state w0)) Phase.refreshed
                 then [] else [state w1])).
Proof.
  assert (H1 : isDisposed scenario_armed = false) by (vm_compute; reflexivity).
  assert (H2 : State.phase (state scenario_armed) <> Phase.constructed)
    by (vm_compute; discriminate).
  split; [exact H1|]. split; [exact H2|].
  apply (refresh_twice_one_transition scenario_armed H1 H2).
Defined.

(** The gated variant: two calls of [refresh] made before the gate
    settles. *)
Example refresh_twice_behind_the_gate :
  let w := run [CallRefresh; CallRefresh; GateSettles true;
                Resume 0; Resume 0] scenario_poll in
  map State.phase (ticked w) = [Phase.when_resolved; Phase.refreshed]
  /\ State.phase (state w) = Phase.refreshed.
Proof. vm_compute. split; reflexivity. Qed.


(** [stop()] does cancel that frame. *)
Example stop_cancels_the_armed_frame : cancels_armed stop scenario_armed.
Proof. split; vm_compute; reflexivity. Qed.

(** Claim C9 on the scenario poll with its first frame armed. *)
Lemma payload_null_unless_settled_witness :
  reachable scenario_armed
  /\ settled_phase (State.phase (state scenario_armed)) = false
  /\ State.payload (state scenario_armed) = None.
Proof.
  assert (R : reachable scenario_armed) by apply scenario_reachable.
  assert (H : settled_phase (State.phase (state scenario_armed)) = false)
    by (vm_compute; reflexivity).
  split; [exact R|]. split; [exact H|].
  apply (payload_null_unless_settled scenario_armed R H).
Defined.

(** Claim C10 on the scenario poll once stopped. *)
Lemma start_only_from_standby_or_stopped_witness :
  isDisposed stopped_world = false
  /\ State.phase (state stopped_world) <> Phase.constructed
  /\ let rule (before after : @World string string) :=
       if phase_is (State.phase (state before)) Phase.standby
          || phase_is (State.phase (state before)) Phase.stopped
       then state after =
              State.mk Private.IMMEDIATE None Phase.started (now before)
            /\ ticked after = ticked before ++ [state after]
       else after = before in
     rule stopped_world (start stopped_world)
     /\ (forall pending w0,
           rule w0 (continue (AwaitTick pending start_next false) w0)).
Proof.
  assert (H1 : isDisposed stopped_world = false) by (vm_compute; reflexivity).
  assert (H2 : State.phase (state stopped_world) <> Phase.constructed)
    by (vm_compute; discriminate).
  split; [exact H1|]. split; [exact H2|].
  apply (start_only_from_standby_or_stopped stopped_world H1 H2).
Defined.

(** [start()] on a poll that is already ticking. *)
Example start_on_an_active_poll :
  start scenario_armed = scenario_armed
  /\ State.phase (state scenario_armed) = Phase.when_resolved.
Proof. vm_compute. split; reflexivity. Qed.

(** A call of [stop] made before the gate settled and resumed after a
    [dispose]: [schedule] does not look at [isDisposed] again after its
    first [await]. *)
Example gated_stop_outlives_dispose :
  let w := run [CallStop; GateSettles true; CallDispose] scenario_poll in
  isDisposed w = true
  /\ State.phase (state (step (Resume 0) w)) = Phase.stopped.
Proof. vm_compute. split; reflexivity. Qed.

(** * Further properties *)

Section FurtherProperties.

Context {T U : Type}.
Implicit Types w : @World T U.
Implicit Types next : Next.t T U.

(** ** Promises settle once *)

Lemma resolve_lookup k k' (s : Table Settlement) :
  entries (resolve k s) !! k' =
  match entries s !! k' with
  | Some Pending => if decide (k = k') then Some Fulfilled else Some Pending
  | o => o
  end.
Proof.
  unfold resolve. destruct (decide (k = k')) as [<-|Hne].
  - destruct (entries s !! k) as [[| |r]|] eqn:E; simpl; rewrite ?E; try reflexivity.
    apply lookup_insert_eq.
  - destruct (entries s !! k) as [[| |r]|] eqn:E; simpl;
      rewrite ?lookup_insert_ne by exact Hne;
      destruct (entries s !! k') as [[| |r']|]; reflexivity.
Qed.

Lemma reject_lookup k reason k' (s : Table Settlement) :
  entries (reject k reason s) !! k' =
  match entries s !! k' with
  | Some Pending =>
      if decide (k = k') then Some (Rejected reason) else Some Pending
  | o => o
  end.
Proof.
  unfold reject. destruct (decide (k = k')) as [<-|Hne].
  - destruct (entries s !! k) as [[| |r]|] eqn:E; simpl; rewrite ?E; try reflexivity.
    apply lookup_insert_eq.
  - destruct (entries s !! k) as [[| |r]|] eqn:E; simpl;
      rewrite ?lookup_insert_ne by exact Hne;
      destruct (entries s !! k') as [[| |r']|]; reflexivity.
Qed.

Lemma seq_immediate_not_never a :
  seq a Private.IMMEDIATE = true -> seq a Private.NEVER = false.
Proof. destruct a; simpl; congruence. Qed.

(** ** The second invariant *)

Lemma Inv2_ext w w' :
  state w' = state w -> tick w' = tick w -> promises w' = promises w ->
  requests w' = requests w -> awaiting w' = awaiting w ->
  ticked w' = ticked w -> invoked w' = invoked w ->
  (when w' = GateSettled
   \/ (when w' = when w /\ frames w' = frames w
       /\ timeouts w' = timeouts w)) ->
  Inv2 w -> Inv2 w'.
Proof.
  intros Hs Ht Hp Hr Ha Htk Hi Hg
    [Jfresh Jcount Jpresent Jsettled Jgate Jrequests Jawaited Jcaught Jinvoked].
  constructor; unfold isDisposed in *; rewrite ?Hs, ?Ht, ?Hp, ?Hr, ?Ha, ?Htk, ?Hi;
    try assumption.
  intros given Hw. destruct Hg as [Hg | (Hg & Hf & Hto)]; [congruence|].
  rewrite Hg in Hw. destruct (Jgate given Hw) as [C1 C2 C3 C4 C5 C6 C7 C8 C9].
  constructor; rewrite ?Hs, ?Hp, ?Hf, ?Hto, ?Hr, ?Ha, ?Htk, ?Hi; assumption.
Qed.

Lemma tick_nonneg w : Inv2 w -> 0 <= tick w.
Proof. intros J. rewrite (inv2_count w J). lia. Qed.

Lemma Inv2_schedule_update caught next w :
  next_ok next -> when w = GateSettled ->
  (caught = true -> isDisposed w = false) ->
  Inv w -> Inv2 w -> Inv2 (schedule_update caught next w).
Proof.
  intros Hn Hg Hc I J. pose proof (tick_nonneg w J) as H0.
  pose proof (inv_tick w I) as Hlt.
  destruct J as
    [Jfresh Jcount Jpresent Jsettled Jgate Jrequests Jawaited Jcaught Jinvoked].
  rewrite schedule_update_eq.
  constructor; unfold isDisposed, state, tick in *; simpl.
  - rewrite fresh_resolve. simpl. lia.
  - rewrite length_app. simpl. lia.
  - intros k Hk. rewrite resolve_lookup. simpl.
    destruct (decide (k = fresh (promises w))) as [->|Hne].
    + rewrite lookup_insert_eq. destruct (decide _); eauto.
    + rewrite lookup_insert_ne by congruence.
      destruct (Jpresent k ltac:(lia)) as [s Hs]. rewrite Hs.
      destruct s; [destruct (decide _)|..]; eauto.
  - intros k Hk. rewrite resolve_lookup. simpl.
    rewrite lookup_insert_ne by lia.
    destruct (entries (promises w) !! k) as [[| |r]|] eqn:E; try congruence.
    destruct (decide (_tick (poll w) = k)) as [<-|Hne]; [congruence|].
    exfalso. apply (Jsettled k); [lia | exact E].
  - intros given Hw. congruence.
  - eapply map_Forall_impl; [exact (inv_requests w I)|]. simpl.
    intros _ p Hp Hpe _. exfalso. unfold tick in Hp. lia.
  - apply Forall_app. split.
    + eapply Forall_impl; [exact Jawaited|]. simpl. intros c ?. lia.
    + apply Forall_singleton. simpl. lia.
  - apply Forall_app. split.
    + rewrite Forall_forall in Jcaught, Jawaited. apply Forall_forall.
      intros c Hin Hcg. destruct (Jcaught c Hin Hcg) as [Hap Hf].
      split; [exact Hap|]. rewrite resolve_lookup. simpl.
      specialize (Jawaited c Hin). rewrite lookup_insert_ne by lia.
      rewrite Hf. reflexivity.
    + apply Forall_singleton. simpl. intros ->.
      split; [exact Logic.I|]. rewrite resolve_lookup. simpl.
      rewrite lookup_insert_ne by lia.
      pose proof (inv_pending w I (Hc eq_refl)) as Hpend.
      unfold tick in Hpend. rewrite Hpend.
      destruct (decide _); [reflexivity | congruence].
  - exact Jinvoked.
Qed.

Lemma Inv2_schedule_checked caught next w :
  next_ok next -> when w = GateSettled ->
  (caught = true -> isDisposed w = false) ->
  Inv w -> Inv2 w -> Inv2 (schedule_checked caught next w).
Proof.
  intros Hn Hg Hc I J. unfold schedule_checked.
  destruct (Next.cancel next) as [cancel|];
    [destruct (cancel (state w)); [exact J|]|];
    apply Inv2_schedule_update; assumption.
Qed.

Lemma Closed_constructed_tick w :
  Inv2 w -> forall given, when w = GatePending given -> tick w = 0.
Proof.
  intros J given Hw. rewrite (inv2_count w J).
  rewrite (closed_ticked w (inv2_gate w J given Hw)). reflexivity.
Qed.

Lemma Inv2_suspend next w :
  Inv2 w ->
  Inv2 (set_awaiting (awaiting w ++ [AwaitTick (tick w) next false]) w).
Proof.
  intros J. pose proof (tick_nonneg w J) as H0.
  destruct J as
    [Jfresh Jcount Jpresent Jsettled Jgate Jrequests Jawaited Jcaught Jinvoked].
  constructor; try assumption.
  - intros given Hw. destruct (Jgate given Hw) as [C1 C2 C3 C4 C5 C6 C7 C8 C9].
    constructor; try assumption.
    apply Forall_app. split; [exact C7 | repeat constructor].
  - apply Forall_app.
    split; [exact Jawaited | apply Forall_singleton; unfold tick in *; simpl; lia].
  - apply Forall_app. split; [exact Jcaught | apply Forall_singleton].
    simpl. discriminate.
Qed.

Lemma Inv2_schedule caught next w :
  next_ok next ->
  (caught = true -> is_when_phase (Next.phase next) = true) ->
  (when w = GateSettled \/ is_when_phase (Next.phase next) = false) ->
  Inv w -> Inv2 w -> Inv2 (schedule caught next w).
Proof.
  intros Hn Hc Hg I J. unfold schedule.
  destruct (isDisposed w) eqn:D; [exact J|].
  destruct (phase_is (State.phase (state w)) Phase.constructed) eqn:C; simpl.
  - destruct (is_when_phase (Next.phase next)) eqn:W; simpl.
    + destruct Hg as [Hg|]; [|discriminate].
      apply Inv2_schedule_checked; auto.
    + destruct caught; [specialize (Hc eq_refl); discriminate|].
      apply Inv2_suspend, J.
  - assert (Hs : when w = GateSettled).
    { destruct (when w) as [given|] eqn:Hw; [|reflexivity].
      destruct (closed_phase w (inv2_gate w J given Hw)) as [Hp|Hp].
      - apply bool_decide_eq_false in C. contradiction.
      - unfold isDisposed in D. apply bool_decide_eq_false in D. contradiction. }
    apply Inv2_schedule_checked; auto.
Qed.

Lemma Inv2_schedule_arm st scheduled w :
  when w = GateSettled -> Inv2 w -> Inv2 (schedule_arm st scheduled w).
Proof.
  intros Hg J. unfold schedule_arm.
  destruct (seq _ _); [|destruct (seq _ _)];
    (eapply Inv2_ext; [..|exact J]; try reflexivity; left; exact Hg).
Qed.

Lemma Inv2_dispose w : Inv2 w -> Inv2 (dispose w).
Proof.
  intros J. unfold dispose. destruct (isDisposed w) eqn:D; [exact J|].
  destruct J as
    [Jfresh Jcount Jpresent Jsettled Jgate Jrequests Jawaited Jcaught Jinvoked].
  constructor; unfold isDisposed, state, tick in *; simpl.
  - rewrite fresh_reject. exact Jfresh.
  - exact Jcount.
  - intros k Hk. rewrite reject_lookup.
    destruct (Jpresent k Hk) as [s Hs]. rewrite Hs.
    destruct s; [destruct (decide _)|..]; eauto.
  - intros k Hk. rewrite reject_lookup.
    destruct (entries (promises w) !! k) as [[| |r]|] eqn:E; try congruence.
    exfalso. apply (Jsettled k Hk E).
  - intros given Hw. destruct (Jgate given Hw) as [C1 C2 C3 C4 C5 C6 C7 C8 C9].
    constructor; simpl; try assumption.
    + right. reflexivity.
    + intros k. rewrite reject_lookup. specialize (C2 k).
      destruct (entries (promises w) !! k) as [[| |r]|];
        [destruct (decide _)|..]; congruence.
    + discriminate.
  - eapply map_Forall_impl; [exact Jrequests|]. simpl. discriminate.
  - exact Jawaited.
  - rewrite Forall_forall in Jcaught. apply Forall_forall.
    intros c Hin Hcg. destruct (Jcaught c Hin Hcg) as [Hap Hf].
    split; [exact Hap|]. rewrite reject_lookup, Hf. reflexivity.
  - exact Jinvoked.
Qed.

Lemma gate_settled_of_open w :
  Inv2 w ->
  (entries (frames w) <> ∅ \/ entries (timeouts w) <> ∅
   \/ entries (requests w) <> ∅ \/ ~ Forall is_await_tick (awaiting w)
   \/ (exists k, entries (promises w) !! k = Some Fulfilled)) ->
  when w = GateSettled.
Proof.
  intros J H. destruct (when w) as [given|] eqn:Hw; [|reflexivity].
  destruct (inv2_gate w J given Hw) as [C1 C2 C3 C4 C5 C6 C7 C8 C9].
  destruct H as [H|[H|[H|[H|[k H]]]]]; try contradiction.
  exfalso. exact (C2 k H).
Qed.

Lemma Inv2__execute w :
  isDisposed w = false ->
  State.phase (state w) <> Phase.constructed ->
  seq (State.interval (state w)) Private.NEVER = false ->
  when w = GateSettled ->
  Inv w -> Inv2 w -> Inv2 (_execute w).
Proof.
  intros D Hnc Hnv Hg I J. unfold _execute.
  destruct (resolve_standby _ _).
  - apply Inv2_schedule; auto using next_ok_empty.
  - destruct J as
      [Jfresh Jcount Jpresent Jsettled Jgate Jrequests Jawaited Jcaught Jinvoked].
    constructor; try assumption.
    + intros given Hw. simpl in Hw. congruence.
    + apply map_Forall_insert_2; [|exact Jrequests]. intros _ _. exact Hnv.
    + simpl. apply Forall_app. split; [exact Jinvoked|].
      repeat constructor. unfold callable. rewrite Hnv. simpl.
      unfold isDisposed in D. rewrite D. simpl.
      replace (phase_is (State.phase (state w)) Phase.constructed) with false
        by (symmetry; apply bool_decide_eq_false; exact Hnc).
      simpl. apply negb_true_iff. apply bool_decide_eq_false.
      intros Hst. rewrite (inv_stopped w I Hst) in Hnv. discriminate.
Qed.

Lemma Inv2_execute scheduled w :
  State.phase (state w) <> Phase.constructed ->
  (scheduled = tick w -> isDisposed w = false ->
   seq (State.interval (state w)) Private.NEVER = false) ->
  when w = GateSettled ->
  Inv w -> Inv2 w -> Inv2 (execute scheduled w).
Proof.
  intros Hnc Hnv Hg I J. unfold execute.
  destruct (isDisposed w) eqn:D; [exact J|]. simpl.
  destruct (Z.eqb_spec (tick w) scheduled) as [E|E]; [|exact J]. simpl.
  apply Inv2__execute; auto.
Qed.

Lemma Inv2_unqueue k w :
  Inv2 w -> Inv2 (set_awaiting (delete k (awaiting w)) w).
Proof.
  intros
    [Jfresh Jcount Jpresent Jsettled Jgate Jrequests Jawaited Jcaught Jinvoked].
  assert (D : forall P : @Cont T U -> Prop,
             Forall P (awaiting w) -> Forall P (delete k (awaiting w))).
  { intros P H. apply Forall_forall. intros c Hc.
    rewrite Forall_forall in H. apply H.
    eapply list_elem_of_delete_inv. exact Hc. }
  constructor; try assumption; simpl; auto.
  intros given Hw. destruct (Jgate given Hw) as [C1 C2 C3 C4 C5 C6 C7 C8 C9].
  constructor; simpl; auto.
Qed.

Lemma Inv2_when_then w :
  when w = GateSettled -> Inv w -> Inv2 w -> Inv2 (when_then w).
Proof.
  intros Hg I J. unfold when_then. destruct (isDisposed w); [exact J|].
  apply Inv2_schedule; auto. repeat split; simpl; congruence.
Qed.

Lemma Inv2_when_catch w :
  when w = GateSettled -> Inv w -> Inv2 w -> Inv2 (when_catch w).
Proof.
  intros Hg I J. unfold when_catch. destruct (isDisposed w); [exact J|].
  apply Inv2_schedule; auto.
  - repeat split; simpl; congruence.
  - eapply Inv_ext; [..|exact I]; reflexivity.
  - eapply Inv2_ext; [..|exact J]; try reflexivity. left. exact Hg.
Qed.

Lemma Inv2_resume k w : Inv w -> Inv2 w -> Inv2 (resume k w).
Proof.
  intros I J. unfold resume.
  destruct (awaiting w !! k) as [c|] eqn:Hc; [|exact J].
  assert (Hin : c ∈ awaiting w) by (eapply list_elem_of_lookup_2; exact Hc).
  pose proof (inv_awaiting w I) as Hok. rewrite Forall_forall in Hok.
  specialize (Hok c Hin).
  pose proof (inv2_caught w J) as Hcg. rewrite Forall_forall in Hcg.
  specialize (Hcg c Hin).
  destruct (entries (promises w) !! awaited c) as [[| |reason]|] eqn:Hp;
    try exact J.
  - assert (Hg : when w = GateSettled)
      by (apply gate_settled_of_open; [exact J | eauto 10]).
    pose proof (Inv_unqueue k w I) as I'.
    pose proof (Inv2_unqueue k w J) as J'.
    destruct c as [t nx cg | pd st sc cg]; simpl.
    + apply Inv2_schedule_checked; auto; [apply Hok|].
      intros ->. destruct (Hcg eq_refl) as [[] _].
    + apply Inv2_schedule_arm; assumption.
  - simpl. destruct (is_caught c).
    + destruct (Hcg eq_refl) as [_ Hf]. congruence.
    + apply Inv2_unqueue, J.
Qed.

Lemma Inv2_construct options document time w :
  construct options document time = Normal w -> Inv2 w.
Proof.
  unfold construct. destruct (checked_frequency _) as [f|]; [|discriminate].
  intros H. injection H as <-.
  constructor; unfold isDisposed, state, tick; simpl; try done.
  - intros k Hk. assert (k = 0) as -> by lia. rewrite lookup_insert_eq. eauto.
  - intros k Hk. lia.
  - intros given _. constructor; unfold state; simpl; try done.
    + left. reflexivity.
    + intros k. destruct (decide (k = 0)) as [->|Hne].
      * rewrite lookup_insert_eq. discriminate.
      * rewrite lookup_insert_ne by congruence. rewrite lookup_empty. discriminate.
    + intros _ k reason. destruct (decide (k = 0)) as [->|Hne].
      * rewrite lookup_insert_eq. discriminate.
      * rewrite lookup_insert_ne by congruence. rewrite lookup_empty. discriminate.
Qed.

Lemma Inv_drop_frame handle w :
  State.phase (state w) <> Phase.constructed ->
  Inv w -> Inv (set_frames (table_remove handle (frames w)) w).
Proof.
  intros Hnc
    [Itick Ipending Ipayload Istopped Iconstructed Iframes Itimeouts
     Irequests Iawaiting Ifrequency].
  constructor; try assumption; try (intros; contradiction).
  apply map_Forall_delete. exact Iframes.
Qed.

Lemma Inv_drop_timeout handle w :
  State.phase (state w) <> Phase.constructed ->
  Inv w -> Inv (set_timeouts (table_remove handle (timeouts w)) w).
Proof.
  intros Hnc
    [Itick Ipending Ipayload Istopped Iconstructed Iframes Itimeouts
     Irequests Iawaiting Ifrequency].
  constructor; try assumption; try (intros; contradiction).
  apply map_Forall_delete. exact Itimeouts.
Qed.

Lemma Inv_drop_request request w :
  State.phase (state w) <> Phase.constructed ->
  Inv w -> Inv (set_requests (table_remove request (requests w)) w).
Proof.
  intros Hnc
    [Itick Ipending Ipayload Istopped Iconstructed Iframes Itimeouts
     Irequests Iawaiting Ifrequency].
  constructor; try assumption; try (intros; contradiction).
  apply map_Forall_delete. exact Irequests.
Qed.

Lemma Inv2_drop_request request w :
  when w = GateSettled ->
  Inv2 w -> Inv2 (set_requests (table_remove request (requests w)) w).
Proof.
  intros Hg
    [Jfresh Jcount Jpresent Jsettled Jgate Jrequests Jawaited Jcaught Jinvoked].
  constructor; try assumption.
  - intros given Hw. simpl in Hw. congruence.
  - apply map_Forall_delete. exact Jrequests.
Qed.

Lemma Inv2_step e w : Inv w -> Inv2 w -> Inv2 (step e w).
Proof.
  intros I J.
  destruct e as
    [ | | | | f | policy | fulfilled | k | handle | handle
    | request outcome random | ms | doc ]; simpl.
  - apply Inv2_dispose, J.
  - apply Inv2_schedule; auto using next_ok_refresh.
  - apply Inv2_schedule; auto using next_ok_start.
  - apply Inv2_schedule; auto using next_ok_stop.
  - unfold set_frequency. destruct (_ || _); [exact J|].
    destruct (checked_frequency f); [|exact J].
    eapply Inv2_ext; [..|exact J]; try reflexivity. right. auto.
  - unfold set_standby. destruct (isDisposed w); [exact J|].
    eapply Inv2_ext; [..|exact J]; try reflexivity. right. auto.
  - destruct (when w) eqn:Hw; [|exact J].
    assert (I' : Inv (set_when GateSettled w))
      by (eapply Inv_ext; [..|exact I]; reflexivity).
    assert (J' : Inv2 (set_when GateSettled w))
      by (eapply Inv2_ext; [..|exact J]; try reflexivity; left; reflexivity).
    destruct fulfilled; [apply Inv2_when_then; auto|].
    destruct given; [apply Inv2_when_catch; auto | exact J].
  - apply Inv2_resume; assumption.
  - destruct (entries (frames w) !! handle) as [s|] eqn:E; [|exact J].
    assert (Hg : when w = GateSettled).
    { apply gate_settled_of_open; [exact J|]. left. intros He.
      rewrite He, lookup_empty in E. discriminate. }
    assert (Hnc : State.phase (state w) <> Phase.constructed).
    { intros Hp. destruct (inv_constructed w I Hp) as (He & _).
      rewrite He, lookup_empty in E. discriminate. }
    pose proof (inv_frames w I handle s E) as [_ Hlive].
    apply Inv2_execute; auto.
    + intros Es D. apply seq_immediate_not_never. apply (Hlive Es D).
    + apply Inv_drop_frame; assumption.
    + eapply Inv2_ext; [..|exact J]; try reflexivity. left. exact Hg.
  - destruct (entries (timeouts w) !! handle) as [[s d]|] eqn:E; [|exact J].
    assert (Hg : when w = GateSettled).
    { apply gate_settled_of_open; [exact J|]. right. left. intros He.
      rewrite He, lookup_empty in E. discriminate. }
    assert (Hnc : State.phase (state w) <> Phase.constructed).
    { intros Hp. destruct (inv_constructed w I Hp) as (_ & He & _).
      rewrite He, lookup_empty in E. discriminate. }
    pose proof (inv_timeouts w I handle (s, d) E) as [_ Hlive].
    apply Inv2_execute; auto.
    + apply Inv_drop_timeout; assumption.
    + eapply Inv2_ext; [..|exact J]; try reflexivity. left. exact Hg.
  - destruct (entries (requests w) !! request) as [pending|] eqn:E; [|exact J].
    assert (Hg : when w = GateSettled).
    { apply gate_settled_of_open; [exact J|]. right. right. left. intros He.
      rewrite He, lookup_empty in E. discriminate. }
    assert (Hnc : State.phase (state w) <> Phase.constructed).
    { intros Hp. destruct (inv_constructed w I Hp) as (_ & _ & He & _).
      rewrite He, lookup_empty in E. discriminate. }
    pose proof (Inv_drop_request request w Hnc I) as I'.
    pose proof (Inv2_drop_request request w Hg J) as J'.
    destruct outcome as [v | err].
    + unfold factory_then. destruct (_ || _); [exact J'|].
      apply Inv2_schedule; auto; try discriminate.
      destruct (phase_is _ _); repeat split; simpl; congruence.
    + destruct (is_draw random); [|exact J].
      unfold factory_catch. destruct (_ || _); [exact J'|].
      apply Inv2_schedule; auto; try discriminate.
      repeat split; simpl; congruence.
  - destruct (0 <=? ms); [|exact J].
    eapply Inv2_ext; [..|exact J]; try reflexivity. right. auto.
  - eapply Inv2_ext; [..|exact J]; try reflexivity. right. auto.
Qed.

Lemma reachable_Inv2 w : reachable w -> Inv2 w.
Proof.
  induction 1 as [options document time w H | e w R IH].
  - eapply Inv2_construct, H.
  - apply Inv2_step; [apply reachable_Inv, R | exact IH].
Qed.


(** ** [stop] *)

Lemma stop_checked caught w :
  let w1 := schedule_checked caught stop_next w in
  State.phase (state w1) = Phase.stopped
  /\ isDisposed w1 = false
  /\ schedule_checked caught stop_next w1 = w1
  /\ (State.phase (state w) <> Phase.stopped ->
      state w1 = State.mk Private.NEVER None Phase.stopped (now w)
      /\ ticked w1 = ticked w ++ [state w1])
  /\ (State.phase (state w) = Phase.stopped -> w1 = w).
Proof.
  unfold schedule_checked. cbn [Next.cancel stop_next].
  destruct (phase_is (State.phase (state w)) Phase.stopped) eqn:E.
  - rewrite E. apply bool_decide_eq_true in E.
    repeat split; auto; try contradiction.
    unfold isDisposed. rewrite E. reflexivity.
  - apply bool_decide_eq_false in E. rewrite schedule_update_eq.
    repeat split; auto; try contradiction.
Qed.

(** Property X11. [stop()] on a poll that is past its gate and not
    disposed leaves it in [{phase: 'stopped', interval: NEVER, payload:
    null}]; it makes one transition, stamped with the current time, when
    the poll was not stopped, and none when it was; and a second [stop()]
    changes nothing at all. *)
Theorem stop_twice_one_transition w :
  reachable w ->
  isDisposed w = false ->
  State.phase (state w) <> Phase.constructed ->
  let w1 := stop w in
  state w1 =
    State.mk Private.NEVER None Phase.stopped
      (if phase_is (State.phase (state w)) Phase.stopped
       then State.timestamp (state w) else now w)
  /\ stop w1 = w1
  /\ ticked w1 =
       ticked w ++
       (if phase_is (State.phase (state w)) Phase.stopped
        then [] else [state w1]).
Proof.
  intros R D Hnc w1. pose proof (reachable_Inv w R) as I.
  assert (Hc : phase_is (State.phase (state w)) Phase.constructed = false)
    by (apply bool_decide_eq_false; exact Hnc).
  assert (E1 : w1 = schedule_checked false stop_next w).
  { unfold w1, stop, schedule. rewrite D, Hc. reflexivity. }
  destruct (stop_checked false w) as (Hp & D1 & Hi & Hnew & Hold).
  rewrite <- E1 in Hp, D1, Hi, Hnew, Hold.
  assert (E2 : stop w1 = w1).
  { unfold stop, schedule. rewrite D1, Hp. simpl. exact Hi. }
  split; [|split; [exact E2|]].
  - destruct (phase_is (State.phase (state w)) Phase.stopped) eqn:E.
    + apply bool_decide_eq_true in E. rewrite (Hold E).
      pose proof (inv_stopped w I E) as Hn.
      pose proof (inv_payload w I) as Hpl. rewrite E in Hpl.
      destruct (state w) as [iv pl ph ts]. simpl in *. subst.
      destruct pl as [v|]; [|reflexivity].
      discriminate Hpl. discriminate.
    + apply bool_decide_eq_false in E. apply (Hnew E).
  - destruct (phase_is (State.phase (state w)) Phase.stopped) eqn:E.
    + apply bool_decide_eq_true in E. rewrite (Hold E), app_nil_r. reflexivity.
    + apply bool_decide_eq_false in E. apply (Hnew E).
Qed.

(** Property X12. [stop()] followed by [start()], on a poll that is past
    its gate and not disposed, leaves it in [{phase: 'started', interval:
    IMMEDIATE, payload: null}], stamped with the current time, emitted
    last, with a new tick promise current. *)
Theorem stop_then_start_restarts w :
  isDisposed w = false ->
  State.phase (state w) <> Phase.constructed ->
  let w1 := stop w in
  let w2 := start w1 in
  State.phase (state w1) = Phase.stopped
  /\ state w2 = State.mk Private.IMMEDIATE None Phase.started (now w)
  /\ ticked w2 = ticked w1 ++ [state w2]
  /\ tick w2 = fresh (promises w1).
Proof.
  intros D Hnc w1 w2.
  assert (Hc : phase_is (State.phase (state w)) Phase.constructed = false)
    by (apply bool_decide_eq_false; exact Hnc).
  assert (E1 : w1 = schedule_checked false stop_next w).
  { unfold w1, stop, schedule. rewrite D, Hc. reflexivity. }
  destruct (stop_checked false w) as (Hp & D1 & _ & _ & _).
  rewrite <- E1 in Hp, D1.
  assert (Hnow : now w1 = now w).
  { rewrite E1. unfold schedule_checked. cbn [Next.cancel stop_next].
    destruct (phase_is (State.phase (state w)) Phase.stopped); [reflexivity|].
    rewrite schedule_update_eq. reflexivity. }
  assert (E2 : w2 = schedule_update false start_next w1).
  { unfold w2, start, schedule. rewrite D1, Hp. simpl.
    unfold schedule_checked. cbn [Next.cancel start_next].
    rewrite Hp. reflexivity. }
  split; [exact Hp|]. rewrite E2, schedule_update_eq.
  split; [|split; reflexivity].
  unfold state at 1. simpl. unfold next_state. simpl. rewrite Hnow.
  reflexivity.
Qed.

(** ** The rejection of the factory promise *)

(** Property X6. When the factory promise of the current tick rejects on
    a poll that is not disposed, the poll goes to [{phase: 'rejected',
    payload: the reason, interval: Private.sleep(frequency, state)}],
    stamped with the current time, and emits that state; the factory is
    not called by the handler, and the request is no longer outstanding. *)
Theorem rejection_schedules_rejected w request pending (rejected : U) random :
  reachable w ->
  entries (requests w) !! request = Some pending ->
  isDisposed w = false ->
  tick w = pending ->
  is_draw random = true ->
  let w' := step (FactorySettles request (inr rejected) random) w in
  state w' =
    State.mk (Private.sleep (Fin random) (frequency w) (state w))
      (Some (inr rejected)) Phase.rejected (now w)
  /\ ticked w' = ticked w ++ [state w']
  /\ invoked w' = invoked w
  /\ entries (requests w') !! request = None.
Proof.
  intros R Hr D Ht Hd. pose proof (reachable_Inv w R) as I.
  assert (Hnc : phase_is (State.phase (state w)) Phase.constructed = false).
  { apply bool_decide_eq_false. intros Hp.
    destruct (inv_constructed w I Hp) as (_ & _ & He & _).
    rewrite He, lookup_empty in Hr. discriminate. }
  intros w'.
  assert (E : w' =
    schedule_update false
      (Next.mk None
         (Some (Private.sleep (Fin random) (frequency w) (state w)))
         (Some (Some (inr rejected))) (Some Phase.rejected) None)
      (set_requests (table_remove request (requests w)) w)).
  { unfold w'. simpl. rewrite Hr, Hd. unfold factory_catch, schedule.
    change (isDisposed (set_requests (table_remove request (requests w)) w))
      with (isDisposed w).
    change (tick (set_requests (table_remove request (requests w)) w))
      with (tick w).
    change (state (set_requests (table_remove request (requests w)) w))
      with (state w).
    rewrite D, Ht, Z.eqb_refl, Hnc. reflexivity. }
  rewrite E, schedule_update_eq. repeat split.
  simpl. apply lookup_delete_eq.
Qed.

(** ** The armed closure of the current tick *)

Lemma execute_live w :
  isDisposed w = false ->
  State.phase (state w) <> Phase.constructed ->
  execute (tick w) w =
  if resolve_standby (_standby (poll w)) (document w)
  then schedule_update false Next.empty w
  else set_requests (table_add (tick w) (requests w))
         (set_invoked (invoked w ++ [state w]) w).
Proof.
  intros D Hnc. unfold execute. rewrite D, Z.eqb_refl. simpl.
  unfold _execute. destruct (resolve_standby _ _); [|reflexivity].
  unfold schedule. rewrite D.
  replace (phase_is (State.phase (state w)) Phase.constructed) with false
    by (symmetry; apply bool_decide_eq_false; exact Hnc).
  reflexivity.
Qed.

Lemma live_execute_effect w :
  isDisposed w = false ->
  State.phase (state w) <> Phase.constructed ->
  let w' := execute (tick w) w in
  if resolve_standby (_standby (poll w)) (document w)
  then state w' =
         State.mk (Frequency.interval (frequency w)) None Phase.standby
           (now w)
       /\ ticked w' = ticked w ++ [state w']
       /\ invoked w' = invoked w
       /\ requests w' = requests w
  else state w' = state w
       /\ ticked w' = ticked w
       /\ invoked w' = invoked w ++ [state w]
       /\ requests w' = table_add (tick w) (requests w).
Proof.
  intros D Hnc w'. unfold w'. rewrite execute_live by assumption.
  destruct (resolve_standby _ _).
  - rewrite schedule_update_eq. repeat split.
  - repeat split.
Qed.

(** The closure that fires is taken out of its table and run. *)
Lemma closure_step w handle e :
  Inv w ->
  (e = FrameFires handle
   /\ entries (frames w) !! handle = Some (tick w))
  \/ (exists delay,
        e = TimeoutFires handle
        /\ entries (timeouts w) !! handle = Some (tick w, delay)) ->
  State.phase (state w) <> Phase.constructed
  /\ exists w0,
       step e w = execute (tick w0) w0
       /\ state w0 = state w /\ tick w0 = tick w
       /\ frequency w0 = frequency w
       /\ _standby (poll w0) = _standby (poll w)
       /\ document w0 = document w /\ now w0 = now w
       /\ ticked w0 = ticked w /\ invoked w0 = invoked w
       /\ requests w0 = requests w.
Proof.
  intros I [[-> E] | (delay & -> & E)].
  - split.
    + intros Hp. destruct (inv_constructed w I Hp) as (He & _).
      rewrite He, lookup_empty in E. discriminate.
    + exists (set_frames (table_remove handle (frames w)) w).
      split; [simpl; rewrite E; reflexivity | repeat split].
  - split.
    + intros Hp. destruct (inv_constructed w I Hp) as (_ & He & _).
      rewrite He, lookup_empty in E. discriminate.
    + exists (set_timeouts (table_remove handle (timeouts w)) w).
      split; [simpl; rewrite E; reflexivity | repeat split].
Qed.

(** Property X4. When the animation frame or the timeout that holds the
    closure of the current tick fires on a poll that is not disposed, the
    standby policy decides: if it asks to stand by, the poll goes to
    [{phase: 'standby', interval: frequency.interval, payload: null}],
    emits that state and does not call the factory; otherwise the factory
    is called with the current state, which stays as it is, and one
    request of the current tick is outstanding. *)
Theorem live_closure_fires w handle e :
  reachable w ->
  isDisposed w = false ->
  (e = FrameFires handle
   /\ entries (frames w) !! handle = Some (tick w))
  \/ (exists delay,
        e = TimeoutFires handle
        /\ entries (timeouts w) !! handle = Some (tick w, delay)) ->
  let w' := step e w in
  if resolve_standby (_standby (poll w)) (document w)
  then state w' =
         State.mk (Frequency.interval (frequency w)) None Phase.standby
           (now w)
       /\ ticked w' = ticked w ++ [state w']
       /\ invoked w' = invoked w
       /\ requests w' = requests w
  else state w' = state w
       /\ ticked w' = ticked w
       /\ invoked w' = invoked w ++ [state w]
       /\ requests w' = table_add (tick w) (requests w).
Proof.
  intros R D H w'.
  destruct (closure_step w handle e (reachable_Inv w R) H)
    as (Hnc & w0 & Ew & Es & Ek & Ef & Ep & Ed & En & Et & Ei & Er).
  assert (D0 : isDisposed w0 = false)
    by (unfold isDisposed in *; rewrite Es; exact D).
  assert (Hnc0 : State.phase (state w0) <> Phase.constructed)
    by (rewrite Es; exact Hnc).
  pose proof (live_execute_effect w0 D0 Hnc0) as L. cbv zeta in L.
  unfold w'. rewrite Ew, Ek. clear w'.
  rewrite Ep, Ed, Ef, En, Et, Ei, Er, Es, Ek in L. exact L.
Qed.

(** Property X5. Assigning [standby] makes no transition, and the new
    policy, not the one in place when the closure was armed, decides what
    the closure of the current tick does when it fires: stand by, or call
    the factory with the current state. *)
Theorem standby_change_applies_to_the_armed_tick w policy handle e :
  reachable w ->
  isDisposed w = false ->
  (e = FrameFires handle
   /\ entries (frames w) !! handle = Some (tick w))
  \/ (exists delay,
        e = TimeoutFires handle
        /\ entries (timeouts w) !! handle = Some (tick w, delay)) ->
  let w1 := set_standby policy w in
  let w' := step e w1 in
  state w1 = state w
  /\ tick w1 = tick w
  /\ ticked w1 = ticked w
  /\ if resolve_standby policy (document w)
     then State.phase (state w') = Phase.standby
          /\ ticked w' = ticked w ++ [state w']
          /\ invoked w' = invoked w
     else state w' = state w
          /\ ticked w' = ticked w
          /\ invoked w' = invoked w ++ [state w].
Proof.
  intros R D H w1 w'.
  assert (E1 : w1 = set_poll (set__standby policy (poll w)) w)
    by (unfold w1, set_standby; rewrite D; reflexivity).
  assert (I1 : Inv w1)
    by apply (reachable_Inv _ (reachable_step (SetStandby policy) w R)).
  assert (H1 : (e = FrameFires handle
                /\ entries (frames w1) !! handle = Some (tick w1))
               \/ (exists delay,
                     e = TimeoutFires handle
                     /\ entries (timeouts w1) !! handle
                        = Some (tick w1, delay)))
    by (rewrite E1; exact H).
  destruct (closure_step w1 handle e I1 H1)
    as (Hnc & w0 & Ew & Es & Ek & Ef & Ep & Ed & En & Et & Ei & Er).
  assert (S1 : _standby (poll w1) = policy) by (rewrite E1; reflexivity).
  assert (S2 : document w1 = document w) by (rewrite E1; reflexivity).
  assert (S3 : state w1 = state w) by (rewrite E1; reflexivity).
  assert (S4 : ticked w1 = ticked w) by (rewrite E1; reflexivity).
  assert (S5 : invoked w1 = invoked w) by (rewrite E1; reflexivity).
  assert (S6 : tick w1 = tick w) by (rewrite E1; reflexivity).
  assert (D0 : isDisposed w0 = false).
  { unfold isDisposed in *. rewrite Es, S3. exact D. }
  assert (Hnc0 : State.phase (state w0) <> Phase.constructed)
    by (rewrite Es; exact Hnc).
  pose proof (live_execute_effect w0 D0 Hnc0) as L. cbv zeta in L.
  unfold w'. rewrite Ew. clearbody w1. clear w'.
  rewrite Ep, S1, Ed, S2, Et, S4, Ei, S5, Es, S3 in L.
  split; [exact S3|]. split; [exact S6|]. split; [exact S4|].
  destruct (resolve_standby policy (document w)).
  - destruct L as (L1 & L2 & L3 & _).
    split; [rewrite L1; reflexivity|]. split; assumption.
  - destruct L as (L1 & L2 & L3 & _). repeat split; assumption.
Qed.



(** ** The frequency setter *)

Lemma set_poll_same w : set_poll (poll w) w = w.
Proof. destruct w. reflexivity. Qed.

Lemma set__frequency_same (p : @Poll T U) : set__frequency (_frequency p) p = p.
Proof. destruct p. reflexivity. Qed.

Lemma checked_frequency_stored f g :
  checked_frequency f = Normal g -> checked_frequency g = Normal g.
Proof.
  intros H. pose proof (checked_frequency_fixed f g H) as Hi.
  rewrite (checked_frequency_valid g Hi).
  destruct (frequency_invalid f) eqn:Hf.
  { destruct (checked_frequency_invalid f Hf) as [m Hm]. congruence. }
  rewrite (checked_frequency_valid f Hf) in H. injection H as <-.
  cbn [Frequency.backoff Frequency.interval Frequency.max].
  rewrite !round_round. reflexivity.
Qed.

(** Property X15. Assigning to [frequency] the value it has is accepted
    and changes nothing; and when an assignment is accepted, the same
    assignment made again, or the assignment of the value then read back,
    is accepted and changes nothing, and the state and the tick are as
    before the first assignment. *)
Theorem set_frequency_is_idempotent w :
  reachable w ->
  set_frequency (frequency w) w = Normal w
  /\ (forall f w',
        set_frequency f w = Normal w' ->
        set_frequency f w' = Normal w'
        /\ set_frequency (frequency w') w' = Normal w'
        /\ state w' = state w /\ tick w' = tick w).
Proof.
  intros R. pose proof (reachable_Inv w R) as I.
  assert (Hself : forall w0 : @World T U,
            (exists a, checked_frequency a = Normal (frequency w0)) ->
            set_frequency (frequency w0) w0 = Normal w0).
  { intros w0 [a Ha]. unfold set_frequency.
    destruct (_ || _); [reflexivity|].
    rewrite (checked_frequency_stored a _ Ha).
    unfold frequency. rewrite set__frequency_same, set_poll_same. reflexivity. }
  split; [apply Hself, (inv_frequency w I)|].
  intros f w' H. unfold set_frequency in H.
  destruct (isDisposed w || deepEqual f (_frequency (poll w))) eqn:G.
  - injection H as <-. split; [|split; [apply Hself, (inv_frequency w I)|auto]].
    unfold set_frequency. rewrite G. reflexivity.
  - destruct (checked_frequency f) as [g|] eqn:Hg; [|discriminate].
    injection H as <-. split; [|split; [apply Hself; exists f; exact Hg | auto]].
    unfold set_frequency.
    match goal with |- (if ?b then _ else _) = _ => destruct b end;
      [reflexivity|].
    rewrite Hg. reflexivity.
Qed.

(** ** Behind the gate *)

Lemma when_schedule caught next w : when (schedule caught next w) = when w.
Proof.
  unfold schedule. destruct (isDisposed w); [reflexivity|].
  destruct (_ && _); [reflexivity|]. unfold schedule_checked.
  destruct (Next.cancel next) as [c|]; [destruct (c (state w)); [reflexivity|]|];
    rewrite schedule_update_eq; reflexivity.
Qed.

Lemma when_schedule_checked caught next w :
  when (schedule_checked caught next w) = when w.
Proof.
  unfold schedule_checked.
  destruct (Next.cancel next) as [c|]; [destruct (c (state w)); [reflexivity|]|];
    rewrite schedule_update_eq; reflexivity.
Qed.

Lemma when_when_catch w : when (when_catch w) = when w.
Proof.
  unfold when_catch. destruct (isDisposed w); [reflexivity|].
  rewrite when_schedule. reflexivity.
Qed.

Lemma when_execute scheduled w : when (execute scheduled w) = when w.
Proof.
  unfold execute. destruct (_ || _); [reflexivity|]. unfold _execute.
  destruct (resolve_standby _ _); [apply when_schedule | reflexivity].
Qed.

Lemma when_step e w : is_gate e = false -> when (step e w) = when w.
Proof.
  intros He.
  destruct e as
    [ | | | | f | policy | fulfilled | k | handle | handle
    | request outcome random | ms | doc ]; simpl; try discriminate He.
  - unfold dispose. destruct (isDisposed w); reflexivity.
  - apply when_schedule.
  - apply when_schedule.
  - apply when_schedule.
  - unfold set_frequency. destruct (_ || _); [reflexivity|].
    destruct (checked_frequency f); reflexivity.
  - unfold set_standby. destruct (isDisposed w); reflexivity.
  - unfold resume. destruct (awaiting w !! k) as [c|]; [|reflexivity].
    destruct (entries (promises w) !! awaited c) as [[| |r]|]; try reflexivity.
    + destruct c as [t nx cg | pd st sc cg]; simpl.
      * rewrite when_schedule_checked. reflexivity.
      * unfold schedule_arm.
        destruct (seq _ _); [|destruct (seq _ _)]; reflexivity.
    + simpl. destruct (is_caught c); [rewrite when_when_catch|]; reflexivity.
  - destruct (entries (frames w) !! handle); [|reflexivity].
    rewrite when_execute. reflexivity.
  - destruct (entries (timeouts w) !! handle) as [[s d]|]; [|reflexivity].
    rewrite when_execute. reflexivity.
  - destruct (entries (requests w) !! request); [|reflexivity].
    destruct outcome.
    + unfold factory_then. destruct (_ || _); [reflexivity|].
      rewrite when_schedule. reflexivity.
    + destruct (is_draw random); [|reflexivity].
      unfold factory_catch. destruct (_ || _); [reflexivity|].
      rewrite when_schedule. reflexivity.
  - destruct (0 <=? ms); reflexivity.
  - reflexivity.
Qed.

Lemma when_run es w :
  forallb (fun e => negb (is_gate e)) es = true -> when (run es w) = when w.
Proof.
  revert w. induction es as [|e es IH]; intros w He; [reflexivity|].
  simpl in He. apply andb_true_iff in He as [He1 He2].
  apply negb_true_iff in He1. simpl. rewrite (IH _ He2).
  apply when_step, He1.
Qed.

Lemma when_construct options document time w :
  construct options document time = Normal w ->
  when w = GatePending (IOptions.when options).
Proof.
  unfold construct. destruct (checked_frequency _); [|discriminate].
  intros H. injection H as <-. reflexivity.
Qed.

Lemma reachable_of_construct options document time w0 es :
  construct options document time = Normal w0 -> reachable (run es w0).
Proof.
  intros H. apply reachable_run. econstructor. exact H.
Qed.


(** Property X3. When the [when] promise of a poll that is not disposed
    is fulfilled, or is rejected while [options.when] was given, the poll
    makes its first transition: the state becomes [{interval: IMMEDIATE,
    payload: null, phase: 'when-resolved'}] (['when-rejected'] on a
    rejection), it is the one state emitted so far, the first tick promise
    is resolved and a second one is current, the factory has not been
    called yet, and the call waits to arm the closure of the new tick. A
    promise settles once: a second settlement changes nothing. *)
Theorem gate_settlement_schedules_the_first_tick
  options document time w0 es fulfilled :
  construct options document time = Normal w0 ->
  forallb (fun e => negb (is_gate e)) es = true ->
  isDisposed (run es w0) = false ->
  fulfilled = true \/ IOptions.when options = true ->
  let w := run es w0 in
  let w' := step (GateSettles fulfilled) w in
  state w' =
    State.mk Private.IMMEDIATE None
      (if fulfilled then Phase.when_resolved else Phase.when_rejected)
      (now w)
  /\ ticked w' = [state w']
  /\ tick w' = 1
  /\ entries (promises w') !! 0 = Some Fulfilled
  /\ awaiting w' = awaiting w ++ [AwaitPending 0 (state w') 1 fulfilled]
  /\ invoked w' = []
  /\ (forall again, step (GateSettles again) w' = w').
Proof.
  intros Hc He D Hf w w'.
  pose proof (reachable_of_construct _ _ _ _ es Hc) as R. fold w in R.
  pose proof (reachable_Inv w R) as I. pose proof (reachable_Inv2 w R) as J.
  assert (Hw : when w = GatePending (IOptions.when options)).
  { unfold w. rewrite (when_run es w0 He). eapply when_construct, Hc. }
  pose proof (Closed_constructed_tick w J _ Hw) as Ht.
  destruct (inv2_gate w J _ Hw) as [C1 C2 C3 C4 C5 C6 C7 C8 C9].
  fold w in D.
  assert (Hp : State.phase (state w) = Phase.constructed).
  { destruct C1 as [C1|C1]; [exact C1|].
    unfold isDisposed in D. rewrite C1 in D. discriminate. }
  set (next := Next.mk (T:=T) (U:=U) None (Some Private.IMMEDIATE) None
                 (Some (if fulfilled then Phase.when_resolved
                        else Phase.when_rejected)) None).
  set (w1 := if fulfilled then set_when GateSettled w
             else set_console
                    (console w ++
                     [("Poll (" ++ name (poll w)
                       ++ ") started despite rejection.")%string])
                    (set_when GateSettled w)).
  assert (E : w' = schedule_update fulfilled next w1).
  { unfold w', w1, next. simpl. rewrite Hw.
    destruct fulfilled.
    - unfold when_then, schedule.
      change (isDisposed (set_when GateSettled w)) with (isDisposed w).
      change (state (set_when GateSettled w)) with (state w).
      rewrite D, Hp. reflexivity.
    - destruct Hf as [Hf|Hf]; [discriminate|]. rewrite Hf.
      unfold when_catch.
      change (isDisposed (set_when GateSettled w)) with (isDisposed w).
      rewrite D. unfold schedule.
      match goal with |- context [isDisposed ?x] =>
        change (isDisposed x) with (isDisposed w) end.
      match goal with |- context [state ?x] =>
        change (state x) with (state w) end.
      rewrite D, Hp. reflexivity. }
  assert (Hfields : state w1 = state w /\ tick w1 = tick w
                    /\ promises w1 = promises w /\ ticked w1 = ticked w
                    /\ awaiting w1 = awaiting w /\ invoked w1 = invoked w
                    /\ now w1 = now w /\ frequency w1 = frequency w
                    /\ when w1 = GateSettled).
  { unfold w1. destruct fulfilled; repeat split. }
  destruct Hfields as (F1 & F2 & F3 & F4 & F5 & F6 & F7 & F8 & F9).
  assert (Hwhen : when (schedule_update fulfilled next w1) = GateSettled).
  { rewrite schedule_update_eq. exact F9. }
  set (W := schedule_update fulfilled next w1) in *.
  assert (S1 : state W = next_state next w1)
    by (unfold W; rewrite schedule_update_eq; reflexivity).
  assert (S2 : ticked W = ticked w1 ++ [next_state next w1])
    by (unfold W; rewrite schedule_update_eq; reflexivity).
  assert (S3 : tick W = fresh (promises w1))
    by (unfold W; rewrite schedule_update_eq; reflexivity).
  assert (S4 : promises W
               = resolve (tick w1) (table_add Pending (promises w1)))
    by (unfold W; rewrite schedule_update_eq; reflexivity).
  assert (S5 : awaiting W =
               awaiting w1 ++
               [AwaitPending (tick w1) (next_state next w1)
                  (fresh (promises w1)) fulfilled])
    by (unfold W; rewrite schedule_update_eq; reflexivity).
  assert (S6 : invoked W = invoked w1)
    by (unfold W; rewrite schedule_update_eq; reflexivity).
  pose proof (inv2_fresh w J) as Hfr. rewrite Ht in Hfr. simpl in Hfr.
  assert (Hst : next_state next w1 =
                State.mk Private.IMMEDIATE None
                  (if fulfilled then Phase.when_resolved
                   else Phase.when_rejected) (now w)).
  { unfold next_state, next. simpl. rewrite F7. reflexivity. }
  clearbody W.
  rewrite E, S1, S2, S3, S4, S5, S6, F2, F3, F4, F5, F6, Ht, C8, C9, Hfr, Hst.
  repeat split.
  - rewrite resolve_lookup. simpl. rewrite lookup_insert_ne by lia.
    pose proof (inv_pending w I D) as Hpd. rewrite Ht in Hpd. rewrite Hpd.
    destruct (decide (0 = 0)); [reflexivity | congruence].
  - intros again. simpl. rewrite Hwhen. reflexivity.
Qed.


(** ** A disposed poll *)

Lemma harmless_delete k w :
  Forall (harmless w) (awaiting w) ->
  Forall (harmless (set_awaiting (delete k (awaiting w)) w))
    (delete k (awaiting w)).
Proof.
  intros H. apply Forall_forall. intros c Hc.
  rewrite Forall_forall in H. apply (H c).
  eapply list_elem_of_delete_inv. exact Hc.
Qed.

Lemma when_catch_disposed w : isDisposed w = true -> when_catch w = w.
Proof. intros D. unfold when_catch. rewrite D. reflexivity. Qed.

Lemma execute_disposed scheduled w :
  isDisposed w = true -> execute scheduled w = w.
Proof. intros D. unfold execute. rewrite D. reflexivity. Qed.

Lemma disposed_step e w :
  isDisposed w = true ->
  Forall (harmless w) (awaiting w) ->
  let w' := step e w in
  (state w' = state w /\ tick w' = tick w /\ frequency w' = frequency w
   /\ _standby (poll w') = _standby (poll w) /\ promises w' = promises w
   /\ ticked w' = ticked w /\ invoked w' = invoked w
   /\ disposed_emitted w' = disposed_emitted w)
  /\ Forall (harmless w') (awaiting w').
Proof.
  intros D H.
  destruct e as
    [ | | | | f | policy | fulfilled | k | handle | handle
    | request outcome random | ms | doc ]; simpl.
  - rewrite dispose_disposed by exact D. repeat split; exact H.
  - unfold refresh. rewrite schedule_disposed by exact D. repeat split; exact H.
  - unfold start. rewrite schedule_disposed by exact D. repeat split; exact H.
  - unfold stop. rewrite schedule_disposed by exact D. repeat split; exact H.
  - unfold set_frequency. rewrite D. repeat split; exact H.
  - unfold set_standby. rewrite D. repeat split; exact H.
  - destruct (when w); [|repeat split; exact H].
    destruct fulfilled; [|destruct given; [|repeat split; exact H]].
    + unfold when_then.
      change (isDisposed (set_when GateSettled w)) with (isDisposed w).
      rewrite D. repeat split; exact H.
    + rewrite when_catch_disposed by exact D. repeat split; exact H.
  - unfold resume. destruct (awaiting w !! k) as [c|] eqn:Hc;
      [|repeat split; exact H].
    assert (Hin : c ∈ awaiting w) by (eapply list_elem_of_lookup_2; exact Hc).
    pose proof H as Hh. rewrite Forall_forall in Hh. specialize (Hh c Hin).
    pose proof (harmless_delete k w H) as Hd.
    destruct c as [t nx cg | pd st sc cg]; simpl in *.
    + destruct Hh as [reason Hr]. rewrite Hr.
      destruct cg; [rewrite when_catch_disposed by exact D|];
        repeat split; exact Hd.
    + destruct (entries (promises w) !! pd) as [[| |reason]|];
        try (repeat split; exact H).
      * unfold schedule_arm.
        destruct (seq _ _); [|destruct (seq _ _)]; repeat split; exact Hd.
      * destruct cg; [rewrite when_catch_disposed by exact D|];
          repeat split; exact Hd.
  - destruct (entries (frames w) !! handle); [|repeat split; exact H].
    rewrite execute_disposed by exact D. repeat split; exact H.
  - destruct (entries (timeouts w) !! handle) as [[s d]|];
      [|repeat split; exact H].
    rewrite execute_disposed by exact D. repeat split; exact H.
  - destruct (entries (requests w) !! request); [|repeat split; exact H].
    destruct outcome.
    + unfold factory_then.
      change (isDisposed (set_requests (table_remove request (requests w)) w))
        with (isDisposed w).
      rewrite D. repeat split; exact H.
    + destruct (is_draw random); [|repeat split; exact H].
      unfold factory_catch.
      change (isDisposed (set_requests (table_remove request (requests w)) w))
        with (isDisposed w).
      rewrite D. repeat split; exact H.
  - destruct (0 <=? ms); repeat split; exact H.
  - repeat split; exact H.
Qed.

(** Property X14. A disposed poll, when each call still suspended at the
    gate awaits a rejected tick, stays disposed whatever happens: calls,
    assignments, closures that fire, promises that settle and calls that
    resume leave its state, tick, frequency, standby policy and promises
    as they are, emit nothing and do not call the factory. *)
Theorem disposed_poll_ignores_every_event w es :
  isDisposed w = true ->
  Forall (harmless w) (awaiting w) ->
  let w' := run es w in
  state w' = state w
  /\ tick w' = tick w
  /\ frequency w' = frequency w
  /\ _standby (poll w') = _standby (poll w)
  /\ promises w' = promises w
  /\ ticked w' = ticked w
  /\ invoked w' = invoked w
  /\ disposed_emitted w' = disposed_emitted w.
Proof.
  revert w. induction es as [|e es IH]; intros w D H; [repeat split|].
  destruct (disposed_step e w D H)
    as ((S1 & S2 & S3 & S4 & S5 & S6 & S7 & S8) & H').
  assert (D' : isDisposed (step e w) = true)
    by (unfold isDisposed in *; rewrite S1; exact D).
  destruct (IH (step e w) D' H') as (R1 & R2 & R3 & R4 & R5 & R6 & R7 & R8).
  simpl. repeat split; congruence.
Qed.

(** ** A stopped poll *)

Lemma execute_stale scheduled w :
  scheduled <> tick w -> execute scheduled w = w.
Proof.
  intros Hne. unfold execute.
  destruct (Z.eqb_spec (tick w) scheduled) as [E|E]; [congruence|].
  rewrite orb_true_r. reflexivity.
Qed.

Lemma stopped_step e w :
  Inv w -> Inv2 w ->
  State.phase (state w) = Phase.stopped ->
  Forall is_await_pending (awaiting w) ->
  is_quiet e = true ->
  let w' := step e w in
  (state w' = state w /\ tick w' = tick w /\ ticked w' = ticked w
   /\ invoked w' = invoked w)
  /\ Forall is_await_pending (awaiting w').
Proof.
  intros I J Hp H He.
  assert (D : isDisposed w = false)
    by (unfold isDisposed; rewrite Hp; reflexivity).
  pose proof (inv_stopped w I Hp) as Hn.
  assert (Hdel : forall k, Forall is_await_pending (delete k (awaiting w))).
  { intros k. apply Forall_forall. intros c Hc.
    rewrite Forall_forall in H. apply (H c).
    eapply list_elem_of_delete_inv. exact Hc. }
  destruct e as
    [ | | | | f | policy | fulfilled | k | handle | handle
    | request outcome random | ms | doc ]; simpl; try discriminate He.
  - unfold stop, schedule. rewrite D, Hp. simpl.
    unfold schedule_checked. cbn [Next.cancel stop_next]. rewrite Hp.
    repeat split; exact H.
  - unfold set_frequency. destruct (_ || _); [repeat split; exact H|].
    destruct (checked_frequency f); repeat split; exact H.
  - unfold set_standby. rewrite D. repeat split; exact H.
  - assert (Hg : when w = GateSettled).
    { destruct (when w) as [given|] eqn:Hw; [|reflexivity].
      destruct (closed_phase w (inv2_gate w J given Hw)) as [C|C];
        rewrite Hp in C; discriminate. }
    rewrite Hg. repeat split; exact H.
  - unfold resume. destruct (awaiting w !! k) as [c|] eqn:Hc;
      [|repeat split; exact H].
    assert (Hin : c ∈ awaiting w) by (eapply list_elem_of_lookup_2; exact Hc).
    pose proof H as Hh. rewrite Forall_forall in Hh. specialize (Hh c Hin).
    pose proof (inv2_caught w J) as Hcg. rewrite Forall_forall in Hcg.
    specialize (Hcg c Hin).
    destruct c as [t nx cg | pd st sc cg]; [destruct Hh|]. simpl in *.
    destruct (entries (promises w) !! pd) as [[| |reason]|];
      try (repeat split; exact H).
    + unfold schedule_arm.
      destruct (seq _ _); [|destruct (seq _ _)]; repeat split; apply Hdel.
    + destruct cg; [destruct (Hcg eq_refl) as [_ Hf]; discriminate|].
      repeat split; apply Hdel.
  - destruct (entries (frames w) !! handle) as [s|] eqn:E;
      [|repeat split; exact H].
    pose proof (inv_frames w I handle s E) as [_ Hlive].
    rewrite execute_stale; [repeat split; exact H|].
    intros Es. specialize (Hlive Es D). rewrite Hn in Hlive. discriminate.
  - destruct (entries (timeouts w) !! handle) as [[s d]|] eqn:E;
      [|repeat split; exact H].
    pose proof (inv_timeouts w I handle (s, d) E) as [_ Hlive].
    rewrite execute_stale; [repeat split; exact H|].
    intros Es. specialize (Hlive Es D). rewrite Hn in Hlive. discriminate.
  - destruct (entries (requests w) !! request) as [pending|] eqn:E;
      [|repeat split; exact H].
    assert (Hne : tick w <> pending).
    { intros Es. pose proof (inv2_requests w J request pending E) as Hlive.
      simpl in Hlive. specialize (Hlive (eq_sym Es) D).
      rewrite Hn in Hlive. discriminate. }
    assert (G : isDisposed (set_requests (table_remove request (requests w)) w)
                || negb (tick (set_requests
                                 (table_remove request (requests w)) w)
                         =? pending) = true).
    { apply orb_true_iff. right. apply negb_true_iff, Z.eqb_neq. exact Hne. }
    destruct outcome.
    + unfold factory_then. rewrite G. repeat split; exact H.
    + destruct (is_draw random); [|repeat split; exact H].
      unfold factory_catch. rewrite G. repeat split; exact H.
  - destruct (0 <=? ms); repeat split; exact H.
  - repeat split; exact H.
Qed.

(** Property X13. A stopped poll with no call left suspended at the gate
    stays as it is until [refresh], [start] or [dispose] is called:
    closures that fire, factory promises that settle, calls that resume,
    calls of [stop], assignments of [frequency] and [standby], the time
    and the document change neither its state nor its tick, emit nothing
    and do not call the factory. *)
Theorem stopped_poll_stays_stopped w es :
  reachable w ->
  State.phase (state w) = Phase.stopped ->
  Forall is_await_pending (awaiting w) ->
  forallb is_quiet es = true ->
  let w' := run es w in
  state w' = state w
  /\ tick w' = tick w
  /\ ticked w' = ticked w
  /\ invoked w' = invoked w.
Proof.
  intros R. pose proof (reachable_Inv w R) as I.
  pose proof (reachable_Inv2 w R) as J. clear R.
  revert w I J. induction es as [|e es IH]; intros w I J Hp H He;
    [repeat split|].
  simpl in He. apply andb_true_iff in He as [He1 He2].
  destruct (stopped_step e w I J Hp H He1) as ((S1 & S2 & S3 & S4) & H').
  assert (Hp' : State.phase (state (step e w)) = Phase.stopped)
    by (rewrite S1; exact Hp).
  destruct (IH (step e w) (Inv_step e w I) (Inv2_step e w I J) Hp' H' He2)
    as (R1 & R2 & R3 & R4).
  simpl. repeat split; congruence.
Qed.

(** ** The [ticked] signal *)

Lemma ticked_schedule_checked caught next w :
  let w' := schedule_checked caught next w in
  (state w' = state w /\ ticked w' = ticked w)
  \/ ticked w' = ticked w ++ [state w'].
Proof.
  unfold schedule_checked.
  destruct (Next.cancel next) as [c|]; [destruct (c (state w)); [left; auto|]|];
    right; rewrite schedule_update_eq; reflexivity.
Qed.

Lemma ticked_schedule caught next w :
  let w' := schedule caught next w in
  (state w' = state w /\ ticked w' = ticked w)
  \/ ticked w' = ticked w ++ [state w'].
Proof.
  unfold schedule. destruct (isDisposed w); [left; auto|].
  destruct (_ && _); [left; auto|]. apply ticked_schedule_checked.
Qed.

Lemma ticked_execute scheduled w :
  let w' := execute scheduled w in
  (state w' = state w /\ ticked w' = ticked w)
  \/ ticked w' = ticked w ++ [state w'].
Proof.
  unfold execute. destruct (_ || _); [left; auto|]. unfold _execute.
  destruct (resolve_standby _ _); [apply ticked_schedule | left; auto].
Qed.

Lemma ticked_when_catch w :
  let w' := when_catch w in
  (state w' = state w /\ ticked w' = ticked w)
  \/ ticked w' = ticked w ++ [state w'].
Proof.
  unfold when_catch. destruct (isDisposed w); [left; auto|].
  apply (ticked_schedule false _ (set_console _ w)).
Qed.

Lemma ticked_step e w :
  is_dispose e = false ->
  let w' := step e w in
  (state w' = state w /\ ticked w' = ticked w)
  \/ ticked w' = ticked w ++ [state w'].
Proof.
  intros He.
  destruct e as
    [ | | | | f | policy | fulfilled | k | handle | handle
    | request outcome random | ms | doc ]; simpl; try discriminate He.
  - apply ticked_schedule.
  - apply ticked_schedule.
  - apply ticked_schedule.
  - unfold set_frequency. destruct (_ || _); [left; auto|].
    destruct (checked_frequency f); left; auto.
  - unfold set_standby. destruct (isDisposed w); left; auto.
  - destruct (when w); [|left; auto].
    destruct fulfilled; [|destruct given; [|left; auto]].
    + unfold when_then. destruct (isDisposed _); [left; auto|].
      apply (ticked_schedule true _ (set_when GateSettled w)).
    + apply (ticked_when_catch (set_when GateSettled w)).
  - unfold resume. destruct (awaiting w !! k) as [c|]; [|left; auto].
    destruct (entries (promises w) !! awaited c) as [[| |r]|];
      try (left; auto; fail).
    + destruct c as [t nx cg | pd st sc cg]; simpl.
      * apply (ticked_schedule_checked cg nx
                 (set_awaiting (delete k (awaiting w)) w)).
      * unfold schedule_arm.
        destruct (seq _ _); [|destruct (seq _ _)]; left; auto.
    + simpl. destruct (is_caught c); [|left; auto].
      apply (ticked_when_catch (set_awaiting (delete k (awaiting w)) w)).
  - destruct (entries (frames w) !! handle); [|left; auto].
    apply (ticked_execute _ (set_frames _ w)).
  - destruct (entries (timeouts w) !! handle) as [[s d]|]; [|left; auto].
    apply (ticked_execute _ (set_timeouts _ w)).
  - destruct (entries (requests w) !! request); [|left; auto].
    destruct outcome.
    + unfold factory_then. destruct (_ || _); [left; auto|].
      apply (ticked_schedule false _ (set_requests _ w)).
    + destruct (is_draw random); [|left; auto].
      unfold factory_catch. destruct (_ || _); [left; auto|].
      apply (ticked_schedule false _ (set_requests _ w)).
  - destruct (0 <=? ms); left; auto.
  - left; auto.
Qed.

Lemma ticked_run (s0 : State.t T U) es w :
  forallb (fun e => negb (is_dispose e)) es = true ->
  last (ticked w) = Some (state w) \/ (ticked w = [] /\ state w = s0) ->
  last (ticked (run es w)) = Some (state (run es w))
  \/ (ticked (run es w) = [] /\ state (run es w) = s0).
Proof.
  revert w. induction es as [|e es IH]; intros w He H0; [exact H0|].
  simpl in He. apply andb_true_iff in He as [He1 He2].
  apply negb_true_iff in He1. simpl. apply (IH _ He2).
  destruct (ticked_step e w He1) as [[Hs Ht] | Ht].
  - rewrite Hs, Ht. exact H0.
  - left. rewrite Ht. apply last_snoc.
Qed.

(** Property X10. As long as [dispose] is not called, the state emitted
    last on [ticked] is the state of the poll; when nothing was emitted
    yet, the state is the one the constructor set. *)
Theorem ticked_ends_with_the_current_state options document time w0 es :
  construct options document time = Normal w0 ->
  forallb (fun e => negb (is_dispose e)) es = true ->
  let w := run es w0 in
  last (ticked w) = Some (state w)
  \/ (ticked w = [] /\ state w = state w0).
Proof.
  intros Hc He. apply ticked_run; [exact He|].
  right. split; [|reflexivity]. revert Hc. unfold construct.
  destruct (checked_frequency _); [|discriminate].
  intros H. injection H as <-. reflexivity.
Qed.

(** ** The tick promises and the calls of the factory *)

(** Property X9. Whatever happens to a poll, it has made as many tick
    promises as it has emitted states, plus the first one; each promise
    but the current one has settled; and the current one is pending as
    long as the poll is not disposed. *)
Theorem tick_promises_settle_in_order w :
  reachable w ->
  tick w = Z.of_nat (length (ticked w))
  /\ fresh (promises w) = tick w + 1
  /\ (forall k, 0 <= k < tick w ->
        exists s, entries (promises w) !! k = Some s /\ s <> Pending)
  /\ (isDisposed w = false -> entries (promises w) !! tick w = Some Pending).
Proof.
  intros R. pose proof (reachable_Inv w R) as I.
  pose proof (reachable_Inv2 w R) as J.
  split; [apply (inv2_count w J)|]. split; [apply (inv2_fresh w J)|].
  split; [|apply (inv_pending w I)].
  intros k Hk. destruct (inv2_present w J k ltac:(lia)) as [s Hs].
  exists s. split; [exact Hs|]. intros ->. exact (inv2_settled w J k Hk Hs).
Qed.

(** Property X7. Whatever happens to a poll, each state that the factory
    has been called with has an interval other than [NEVER] and a phase
    that is neither ['constructed'], nor ['disposed'], nor ['stopped']. *)
Theorem factory_is_called_with_callable_states w s :
  reachable w ->
  s ∈ invoked w ->
  seq (State.interval s) Private.NEVER = false
  /\ State.phase s <> Phase.constructed
  /\ State.phase s <> Phase.disposed
  /\ State.phase s <> Phase.stopped.
Proof.
  intros R Hin. pose proof (inv2_invoked w (reachable_Inv2 w R)) as H.
  rewrite Forall_forall in H. specialize (H s Hin).
  unfold callable in H. rewrite !andb_true_iff, !negb_true_iff in H.
  destruct H as (((H1 & H2) & H3) & H4).
  repeat split; [exact H1|..]; intros E; rewrite E in *; discriminate.
Qed.


(** ** One holder per tick *)

Lemma to_arm_le w : Inv w -> Forall (fun s => s <= tick w) (to_arm w).
Proof.
  intros I. apply Forall_forall. intros s Hs.
  apply list_elem_of_omap in Hs as (c & Hc & Ha).
  pose proof (inv_awaiting w I) as H. rewrite Forall_forall in H.
  specialize (H c Hc). destruct c as [t nx cg | pd st sc cg]; [discriminate|].
  simpl in Ha. injection Ha as <-. apply H.
Qed.

Lemma omap_delete_sublist {A B} (f : A -> option B) k (l : list A) :
  omap f (delete k l) `sublist_of` omap f l.
Proof.
  revert k. induction l as [|a l IH]; intros k; [destruct k; constructor|].
  destruct k as [|k]; simpl.
  - destruct (f a); [apply sublist_cons|]; reflexivity.
  - destruct (f a); [apply sublist_skip|]; apply IH.
Qed.

Lemma omap_delete_NoDup {A B} (f : A -> option B) k (l : list A) a b :
  l !! k = Some a -> f a = Some b -> NoDup (omap f l) ->
  b ∉ omap f (delete k l).
Proof.
  revert k. induction l as [|x l IH]; intros k Hk Hf Hn; [destruct k; discriminate|].
  destruct k as [|k]; simpl in *.
  - injection Hk as ->. rewrite Hf in Hn. apply NoDup_cons in Hn. tauto.
  - destruct (f x) as [y|] eqn:E.
    + apply NoDup_cons in Hn as [Hy Hn]. apply not_elem_of_cons. split.
      * intros ->. apply Hy. apply list_elem_of_omap. exists a.
        split; [eapply list_elem_of_lookup_2; exact Hk | exact Hf].
      * eapply IH; eassumption.
    + eapply IH; eassumption.
Qed.

Lemma unheld_of_to_arm s w : Inv3 w -> s ∈ to_arm w ->
  (forall h, entries (frames w) !! h <> Some s)
  /\ (forall h d, entries (timeouts w) !! h <> Some (s, d))
  /\ (forall i, entries (requests w) !! i <> Some s).
Proof.
  intros K Hs. repeat split.
  - intros h Hh. destruct (inv3_frames w K h s Hh) as [Hn _]. contradiction.
  - intros h d Hh. destruct (inv3_timeouts w K h s d Hh) as [Hn _]. contradiction.
  - intros i Hi. destruct (inv3_requests w K i s Hi) as [Hn _]. contradiction.
Qed.

(** Tables that only lose entries, and calls to arm that are new only for
    ticks nobody holds. *)
Lemma Inv3_mono w w' :
  (forall h s, entries (frames w') !! h = Some s ->
               entries (frames w) !! h = Some s) ->
  (forall h x, entries (timeouts w') !! h = Some x ->
               entries (timeouts w) !! h = Some x) ->
  (forall i s, entries (requests w') !! i = Some s ->
               entries (requests w) !! i = Some s) ->
  NoDup (to_arm w') ->
  (forall s, s ∈ to_arm w' -> s ∈ to_arm w \/ unheld s w) ->
  Inv3 w -> Inv3 w'.
Proof.
  intros Hf Ht Hr Hn Ha K.
  assert (Hnot : forall s, (s ∉ to_arm w) ->
            ((exists h, entries (frames w) !! h = Some s)
             \/ (exists h d, entries (timeouts w) !! h = Some (s, d))
             \/ (exists i, entries (requests w) !! i = Some s)) ->
            s ∉ to_arm w').
  { intros s Hs Hheld Hin. destruct (Ha s Hin) as [?|(_ & U1 & U2 & U3)];
      [contradiction|].
    destruct Hheld as [[h H]|[(h & d & H)|[i H]]];
      [exact (U1 h H) | exact (U2 h d H) | exact (U3 i H)]. }
  constructor; [exact Hn|..].
  - intros h s Hh. apply Hf in Hh.
    destruct (inv3_frames w K h s Hh) as (F1 & F2 & F3 & F4).
    split; [apply Hnot; eauto|]. split; [intros h' Hh'; apply F2, Hf, Hh'|].
    split; [intros h' d Hh'; apply (F3 h' d), Ht, Hh'|].
    intros i Hi. apply (F4 i), Hr, Hi.
  - intros h s d Hh. apply Ht in Hh.
    destruct (inv3_timeouts w K h s d Hh) as (F1 & F2 & F3).
    split; [apply Hnot; eauto 6|].
    split; [intros h' d' Hh'; apply (F2 h' d'), Ht, Hh'|].
    intros i Hi. apply (F3 i), Hr, Hi.
  - intros i s Hi. apply Hr in Hi.
    destruct (inv3_requests w K i s Hi) as (F1 & F2).
    split; [apply Hnot; eauto 6|]. intros i' Hi'. apply F2, Hr, Hi'.
Qed.

Lemma cleared_frames_lookup w h s :
  entries (cleared_frames w) !! h = Some s -> entries (frames w) !! h = Some s.
Proof.
  unfold cleared_frames. destruct (seq _ _); [|auto]. simpl.
  intros H. apply lookup_delete_Some in H. tauto.
Qed.

Lemma cleared_timeouts_lookup w h x :
  entries (cleared_timeouts w) !! h = Some x ->
  entries (timeouts w) !! h = Some x.
Proof.
  unfold cleared_timeouts. destruct (seq _ _); [auto|]. simpl.
  intros H. apply lookup_delete_Some in H. tauto.
Qed.

Lemma unheld_fresh w :
  Inv w -> Inv3 w -> unheld (fresh (promises w)) w.
Proof.
  intros I K. pose proof (inv_tick w I) as Hlt. repeat split.
  - intros Hin. pose proof (to_arm_le w I) as H. rewrite Forall_forall in H.
    specialize (H _ Hin). lia.
  - intros h Hh. apply (inv_frames w I) in Hh. lia.
  - intros h d Hh. apply (inv_timeouts w I) in Hh. simpl in Hh. lia.
  - intros i Hi. apply (inv_requests w I) in Hi. simpl in Hi. lia.
Qed.

Lemma Inv3_schedule_update caught next w :
  Inv w -> Inv3 w -> Inv3 (schedule_update caught next w).
Proof.
  intros I K. pose proof (unheld_fresh w I K) as Hu.
  rewrite schedule_update_eq.
  apply (Inv3_mono w); simpl; auto using cleared_frames_lookup,
    cleared_timeouts_lookup.
  - unfold to_arm. simpl. rewrite omap_app. simpl.
    apply NoDup_app. split; [apply (inv3_to_arm w K)|]. split.
    + intros s Hs Hin. apply list_elem_of_singleton in Hin. subst s.
      destruct Hu as [Hu _]. contradiction.
    + apply NoDup_singleton.
  - intros s. unfold to_arm. simpl. rewrite omap_app. simpl.
    intros Hin. apply elem_of_app in Hin as [Hin|Hin]; [left; exact Hin|].
    apply list_elem_of_singleton in Hin. subst s. right. exact Hu.
Qed.

Lemma Inv3_same w w' :
  frames w' = frames w -> timeouts w' = timeouts w ->
  requests w' = requests w -> awaiting w' = awaiting w ->
  Inv3 w -> Inv3 w'.
Proof.
  intros Hf Ht Hr Ha K. apply (Inv3_mono w); rewrite ?Hf, ?Ht, ?Hr; auto.
  - unfold to_arm. rewrite Ha. apply (inv3_to_arm w K).
  - unfold to_arm. rewrite Ha. auto.
Qed.

Lemma Inv3_schedule_checked caught next w :
  Inv w -> Inv3 w -> Inv3 (schedule_checked caught next w).
Proof.
  intros I K. unfold schedule_checked.
  destruct (Next.cancel next) as [c|]; [destruct (c (state w)); [exact K|]|];
    apply Inv3_schedule_update; assumption.
Qed.

Lemma Inv3_schedule caught next w :
  Inv w -> Inv3 w -> Inv3 (schedule caught next w).
Proof.
  intros I K. unfold schedule. destruct (isDisposed w); [exact K|].
  destruct (_ && _); [|apply Inv3_schedule_checked; assumption].
  apply (Inv3_mono w); simpl; auto.
  - unfold to_arm. simpl. rewrite omap_app. simpl. rewrite app_nil_r.
    apply (inv3_to_arm w K).
  - unfold to_arm. simpl. intros s. rewrite omap_app. simpl.
    rewrite app_nil_r. auto.
Qed.

Lemma Inv3_unqueue k w :
  Inv3 w -> Inv3 (set_awaiting (delete k (awaiting w)) w).
Proof.
  intros K. apply (Inv3_mono w); simpl; auto.
  - eapply sublist_NoDup; [apply (inv3_to_arm w K)|].
    apply omap_delete_sublist.
  - intros s Hs. left. eapply elem_of_sublist; [exact Hs|].
    apply omap_delete_sublist.
Qed.

Lemma Inv3_arm_frame s (p : @Poll T U) w :
  unheld s w -> Inv3 w ->
  Inv3 (set_poll p (set_frames (table_add s (frames w)) w)).
Proof.
  intros (U0 & U1 & U2 & U3) K. constructor; simpl.
  - apply (inv3_to_arm w K).
  - intros h s0 Hh.
    destruct (decide (h = fresh (frames w))) as [->|Hne].
    + rewrite lookup_insert_eq in Hh. injection Hh as <-.
      split; [exact U0|]. split; [|split; [exact U2 | exact U3]].
      intros h' Hh'. destruct (decide (h' = fresh (frames w))); [assumption|].
      rewrite lookup_insert_ne in Hh' by congruence. destruct (U1 h' Hh').
    + rewrite lookup_insert_ne in Hh by congruence.
      destruct (inv3_frames w K h s0 Hh) as (F1 & F2 & F3 & F4).
      split; [exact F1|]. split; [|split; [exact F3 | exact F4]].
      intros h' Hh'. destruct (decide (h' = fresh (frames w))) as [->|Hne'].
      * rewrite lookup_insert_eq in Hh'. injection Hh' as ->.
        destruct (U1 h Hh).
      * rewrite lookup_insert_ne in Hh' by congruence. apply F2, Hh'.
  - apply (inv3_timeouts w K).
  - apply (inv3_requests w K).
Qed.

Lemma Inv3_arm_timeout s d (p : @Poll T U) w :
  unheld s w -> Inv3 w ->
  Inv3 (set_poll p (set_timeouts (table_add (s, d) (timeouts w)) w)).
Proof.
  intros (U0 & U1 & U2 & U3) K. constructor; simpl.
  - apply (inv3_to_arm w K).
  - intros h s0 Hh.
    destruct (inv3_frames w K h s0 Hh) as (F1 & F2 & F3 & F4).
    split; [exact F1|]. split; [exact F2|]. split; [|exact F4].
    intros h' d' Hh'. destruct (decide (h' = fresh (timeouts w))) as [->|Hne'].
    + rewrite lookup_insert_eq in Hh'. injection Hh' as -> ->.
      destruct (U1 h Hh).
    + rewrite lookup_insert_ne in Hh' by congruence. exact (F3 h' d' Hh').
  - intros h s0 d0 Hh.
    destruct (decide (h = fresh (timeouts w))) as [->|Hne].
    + rewrite lookup_insert_eq in Hh. injection Hh as <- <-.
      split; [exact U0|]. split; [|exact U3].
      intros h' d' Hh'. destruct (decide (h' = fresh (timeouts w))); [assumption|].
      rewrite lookup_insert_ne in Hh' by congruence. destruct (U2 h' d' Hh').
    + rewrite lookup_insert_ne in Hh by congruence.
      destruct (inv3_timeouts w K h s0 d0 Hh) as (F1 & F2 & F3).
      split; [exact F1|]. split; [|exact F3].
      intros h' d' Hh'. destruct (decide (h' = fresh (timeouts w))) as [->|Hne'].
      * rewrite lookup_insert_eq in Hh'. injection Hh' as -> ->.
        destruct (U2 h d0 Hh).
      * rewrite lookup_insert_ne in Hh' by congruence. apply (F2 h' d'), Hh'.
  - apply (inv3_requests w K).
Qed.

Lemma Inv3_schedule_arm st s w :
  unheld s w -> Inv3 w -> Inv3 (schedule_arm st s w).
Proof.
  intros Hu K. unfold schedule_arm.
  destruct (seq _ _); [|destruct (seq _ _)].
  - apply Inv3_arm_frame; assumption.
  - eapply Inv3_same; [..|exact K]; reflexivity.
  - apply Inv3_arm_timeout; assumption.
Qed.

Lemma Inv3_invoke s (l : list (State.t T U)) w :
  unheld s w -> Inv3 w ->
  Inv3 (set_requests (table_add s (requests w)) (set_invoked l w)).
Proof.
  intros (U0 & U1 & U2 & U3) K. constructor; simpl.
  - apply (inv3_to_arm w K).
  - intros h s0 Hh.
    destruct (inv3_frames w K h s0 Hh) as (F1 & F2 & F3 & F4).
    split; [exact F1|]. split; [exact F2|]. split; [exact F3|].
    intros i Hi. destruct (decide (i = fresh (requests w))) as [->|Hne].
    + rewrite lookup_insert_eq in Hi. injection Hi as ->. destruct (U1 h Hh).
    + rewrite lookup_insert_ne in Hi by congruence. exact (F4 i Hi).
  - intros h s0 d Hh.
    destruct (inv3_timeouts w K h s0 d Hh) as (F1 & F2 & F3).
    split; [exact F1|]. split; [exact F2|].
    intros i Hi. destruct (decide (i = fresh (requests w))) as [->|Hne].
    + rewrite lookup_insert_eq in Hi. injection Hi as ->. destruct (U2 h d Hh).
    + rewrite lookup_insert_ne in Hi by congruence. exact (F3 i Hi).
  - intros i s0 Hi.
    destruct (decide (i = fresh (requests w))) as [->|Hne].
    + rewrite lookup_insert_eq in Hi. injection Hi as <-.
      split; [exact U0|].
      intros i' Hi'. destruct (decide (i' = fresh (requests w))); [assumption|].
      rewrite lookup_insert_ne in Hi' by congruence. destruct (U3 i' Hi').
    + rewrite lookup_insert_ne in Hi by congruence.
      destruct (inv3_requests w K i s0 Hi) as (F1 & F2).
      split; [exact F1|].
      intros i' Hi'. destruct (decide (i' = fresh (requests w))) as [->|Hne'].
      * rewrite lookup_insert_eq in Hi'. injection Hi' as ->.
        destruct (U3 i Hi).
      * rewrite lookup_insert_ne in Hi' by congruence. apply F2, Hi'.
Qed.

Lemma Inv3_execute s w :
  unheld s w -> Inv w -> Inv3 w -> Inv3 (execute s w).
Proof.
  intros Hu I K. unfold execute.
  destruct (isDisposed w); [exact K|]. simpl.
  destruct (Z.eqb_spec (tick w) s) as [E|E]; [|exact K]. simpl.
  unfold _execute. destruct (resolve_standby _ _).
  - apply Inv3_schedule; assumption.
  - rewrite E.
    change (Inv3 (set_requests (table_add s (requests w))
                    (set_invoked (invoked w ++ [state w]) w))).
    apply Inv3_invoke; assumption.
Qed.

Lemma Inv3_when_catch w : Inv w -> Inv3 w -> Inv3 (when_catch w).
Proof.
  intros I K. unfold when_catch. destruct (isDisposed w); [exact K|].
  apply Inv3_schedule.
  - eapply Inv_ext; [..|exact I]; reflexivity.
  - eapply Inv3_same; [..|exact K]; reflexivity.
Qed.

Lemma Inv3_step e w : Inv w -> Inv3 w -> Inv3 (step e w).
Proof.
  intros I K.
  destruct e as
    [ | | | | f | policy | fulfilled | k | handle | handle
    | request outcome random | ms | doc ]; simpl.
  - unfold dispose. destruct (isDisposed w); [exact K|].
    eapply Inv3_same; [..|exact K]; reflexivity.
  - apply Inv3_schedule; assumption.
  - apply Inv3_schedule; assumption.
  - apply Inv3_schedule; assumption.
  - unfold set_frequency. destruct (_ || _); [exact K|].
    destruct (checked_frequency f); [|exact K].
    eapply Inv3_same; [..|exact K]; reflexivity.
  - unfold set_standby. destruct (isDisposed w); [exact K|].
    eapply Inv3_same; [..|exact K]; reflexivity.
  - destruct (when w); [|exact K].
    assert (I' : Inv (set_when GateSettled w))
      by (eapply Inv_ext; [..|exact I]; reflexivity).
    assert (K' : Inv3 (set_when GateSettled w))
      by (eapply Inv3_same; [..|exact K]; reflexivity).
    destruct fulfilled; [|destruct given; [apply Inv3_when_catch; auto|exact K]].
    unfold when_then. destruct (isDisposed _); [exact K'|].
    apply Inv3_schedule; assumption.
  - unfold resume. destruct (awaiting w !! k) as [c|] eqn:Hc; [|exact K].
    pose proof (Inv_unqueue k w I) as I'.
    pose proof (Inv3_unqueue k w K) as K'.
    destruct (entries (promises w) !! awaited c) as [[| |reason]|];
      try exact K.
    + destruct c as [t nx cg | pd st sc cg]; simpl.
      * apply Inv3_schedule_checked; assumption.
      * apply Inv3_schedule_arm; [|exact K'].
        assert (Hin : sc ∈ to_arm w).
        { apply list_elem_of_omap. eexists. split;
            [eapply list_elem_of_lookup_2; exact Hc | reflexivity]. }
        destruct (unheld_of_to_arm sc w K Hin) as (U1 & U2 & U3).
        split; [|auto].
        eapply (omap_delete_NoDup arming); [exact Hc | reflexivity |].
        apply (inv3_to_arm w K).
    + simpl. destruct (is_caught c); [apply Inv3_when_catch|]; assumption.
  - destruct (entries (frames w) !! handle) as [s|] eqn:E; [|exact K].
    assert (Hnc : State.phase (state w) <> Phase.constructed).
    { intros Hp. destruct (inv_constructed w I Hp) as (He & _).
      rewrite He, lookup_empty in E. discriminate. }
    destruct (inv3_frames w K handle s E) as (F1 & F2 & F3 & F4).
    apply Inv3_execute.
    + split; [exact F1|]. split; [|auto]. simpl. intros h Hh.
      apply lookup_delete_Some in Hh as [Hne Hh]. apply Hne. symmetry.
      apply (F2 h Hh).
    + apply Inv_drop_frame; assumption.
    + pose proof (inv3_to_arm w K) as Hnd. apply (Inv3_mono w); simpl; auto.
      intros h s0 Hh. apply lookup_delete_Some in Hh. tauto.
  - destruct (entries (timeouts w) !! handle) as [[s d]|] eqn:E; [|exact K].
    assert (Hnc : State.phase (state w) <> Phase.constructed).
    { intros Hp. destruct (inv_constructed w I Hp) as (_ & He & _).
      rewrite He, lookup_empty in E. discriminate. }
    destruct (inv3_timeouts w K handle s d E) as (F1 & F2 & F3).
    apply Inv3_execute.
    + split; [exact F1|]. split; [|split; [|exact F3]]; simpl.
      * intros h Hh. destruct (inv3_frames w K h s Hh) as (_ & _ & G & _).
        exact (G handle d E).
      * intros h d' Hh. apply lookup_delete_Some in Hh as [Hne Hh].
        apply Hne. symmetry. apply (F2 h d' Hh).
    + apply Inv_drop_timeout; assumption.
    + pose proof (inv3_to_arm w K) as Hnd. apply (Inv3_mono w); simpl; auto.
      intros h x Hh. apply lookup_delete_Some in Hh. tauto.
  - destruct (entries (requests w) !! request) as [pending|] eqn:E; [|exact K].
    assert (Hnc : State.phase (state w) <> Phase.constructed).
    { intros Hp. destruct (inv_constructed w I Hp) as (_ & _ & He & _).
      rewrite He, lookup_empty in E. discriminate. }
    pose proof (Inv_drop_request request w Hnc I) as I'.
    assert (K' : Inv3 (set_requests (table_remove request (requests w)) w)).
    { pose proof (inv3_to_arm w K) as Hnd. apply (Inv3_mono w); simpl; auto.
      intros i s0 Hi. apply lookup_delete_Some in Hi. tauto. }
    destruct outcome as [v | err].
    + unfold factory_then. destruct (_ || _); [exact K'|].
      apply Inv3_schedule; assumption.
    + destruct (is_draw random); [|exact K].
      unfold factory_catch. destruct (_ || _); [exact K'|].
      apply Inv3_schedule; assumption.
  - destruct (0 <=? ms); [|exact K].
    eapply Inv3_same; [..|exact K]; reflexivity.
  - eapply Inv3_same; [..|exact K]; reflexivity.
Qed.

Lemma Inv3_construct options document time w :
  construct options document time = Normal w -> Inv3 w.
Proof.
  unfold construct. destruct (checked_frequency _) as [f|]; [|discriminate].
  intros H. injection H as <-.
  constructor; simpl; try (intros; rewrite lookup_empty in *; discriminate).
  apply NoDup_nil_2.
Qed.

Lemma reachable_Inv3 w : reachable w -> Inv3 w.
Proof.
  induction 1 as [options document time w H | e w R IH].
  - eapply Inv3_construct, H.
  - apply Inv3_step; [apply reachable_Inv, R | exact IH].
Qed.

(** Property X8. Whatever happens to a poll, a tick has at most one
    outstanding call of the factory, and once the closure of a tick has
    made that call, no animation frame or timeout holds a closure of the
    same tick and no suspended call of [schedule] will arm one. *)
Theorem one_outstanding_request_per_tick w request scheduled :
  reachable w ->
  entries (requests w) !! request = Some scheduled ->
  (forall other,
     entries (requests w) !! other = Some scheduled -> other = request)
  /\ ~ armed scheduled w
  /\ scheduled ∉ to_arm w.
Proof.
  intros R Hr. pose proof (reachable_Inv3 w R) as K.
  destruct (inv3_requests w K request scheduled Hr) as (F1 & F2).
  split; [exact F2|]. split; [|exact F1].
  intros [[h Hh] | (h & d & Hh)].
  - destruct (inv3_frames w K h scheduled Hh) as (_ & _ & _ & G).
    exact (G request Hr).
  - destruct (inv3_timeouts w K h scheduled d Hh) as (_ & _ & G).
    exact (G request Hr).
Qed.


(** ** The delay of the armed timeout *)

(** Timeouts that only go away, on a poll that either keeps its tick and
    state or moves to a tick that no timeout was armed for. *)
Lemma timely_mono w w' :
  (forall h x, entries (timeouts w') !! h = Some x ->
               entries (timeouts w) !! h = Some x) ->
  (tick w' = tick w
   /\ (isDisposed w' = false ->
       isDisposed w = false /\ state w' = state w))
  \/ (forall h x, entries (timeouts w) !! h = Some x -> fst x < tick w') ->
  timely w -> timely w'.
Proof.
  intros Hsub Hcase Hw h x Hh Hx D. apply Hsub in Hh.
  destruct Hcase as [[Ht Hd] | Hlt].
  - destruct (Hd D) as [D0 Hs]. rewrite Hs. apply (Hw h x Hh); congruence.
  - specialize (Hlt h x Hh). lia.
Qed.

Lemma timely_same w w' :
  poll w' = poll w -> timeouts w' = timeouts w -> timely w -> timely w'.
Proof.
  intros Hp Ht. apply timely_mono.
  - rewrite Ht. auto.
  - left. unfold tick, isDisposed, state. rewrite Hp. auto.
Qed.

Lemma timely_schedule_update caught next w :
  Inv w -> timely w -> timely (schedule_update caught next w).
Proof.
  intros I Hw. rewrite schedule_update_eq. apply (timely_mono w); [|right|exact Hw].
  - simpl. apply cleared_timeouts_lookup.
  - intros h x Hh. simpl.
    destruct (inv_timeouts w I h x Hh) as [Hle _].
    pose proof (inv_tick w I). unfold tick in *. simpl in *. lia.
Qed.

Lemma timely_schedule_checked caught next w :
  Inv w -> timely w -> timely (schedule_checked caught next w).
Proof.
  intros I Hw. unfold schedule_checked.
  destruct (Next.cancel next) as [c|]; [destruct (c (state w)); [exact Hw|]|];
    apply timely_schedule_update; assumption.
Qed.

Lemma timely_schedule caught next w :
  Inv w -> timely w -> timely (schedule caught next w).
Proof.
  intros I Hw. unfold schedule. destruct (isDisposed w); [exact Hw|].
  destruct (_ && _); [|apply timely_schedule_checked; assumption].
  eapply timely_same; [..|exact Hw]; reflexivity.
Qed.

Lemma timely_schedule_arm st s w :
  (s = tick w -> isDisposed w = false -> st = state w) ->
  timely w -> timely (schedule_arm st s w).
Proof.
  intros Hst Hw. unfold schedule_arm.
  destruct (seq (State.interval st) Private.IMMEDIATE) eqn:Ei;
    [|destruct (seq (State.interval st) Private.NEVER)].
  - eapply timely_mono; [..|exact Hw]; [auto | left; simpl; auto].
  - eapply timely_mono; [..|exact Hw]; [auto | left; simpl; auto].
  - intros h x Hh. simpl in Hh.
    destruct (decide (h = fresh (timeouts w))) as [->|Hne].
    + rewrite lookup_insert_eq in Hh. injection Hh as <-. simpl.
      intros E D. pose proof (Hst E D) as Hs. subst st.
      split; [reflexivity | exact Ei].
    + rewrite lookup_insert_ne in Hh by congruence. exact (Hw h x Hh).
Qed.

Lemma timely_execute s w : Inv w -> timely w -> timely (execute s w).
Proof.
  intros I Hw. unfold execute. destruct (_ || _); [exact Hw|].
  unfold _execute. destruct (resolve_standby _ _).
  - apply timely_schedule; assumption.
  - eapply timely_same; [..|exact Hw]; reflexivity.
Qed.

Lemma timely_when_catch w : Inv w -> timely w -> timely (when_catch w).
Proof.
  intros I Hw. unfold when_catch. destruct (isDisposed w); [exact Hw|].
  apply timely_schedule.
  - eapply Inv_ext; [..|exact I]; reflexivity.
  - eapply timely_same; [..|exact Hw]; reflexivity.
Qed.

Lemma timely_step e w : Inv w -> timely w -> timely (step e w).
Proof.
  intros I Hw.
  destruct e as
    [ | | | | f | policy | fulfilled | k | handle | handle
    | request outcome random | ms | doc ]; simpl.
  - unfold dispose. destruct (isDisposed w) eqn:D; [exact Hw|].
    intros h x Hh _ D'. exfalso. revert D'.
    unfold isDisposed, state. simpl. discriminate.
  - apply timely_schedule; assumption.
  - apply timely_schedule; assumption.
  - apply timely_schedule; assumption.
  - unfold set_frequency. destruct (_ || _); [exact Hw|].
    destruct (checked_frequency f); [|exact Hw].
    eapply timely_mono; [..|exact Hw]; [auto | left; simpl; auto].
  - unfold set_standby. destruct (isDisposed w); [exact Hw|].
    eapply timely_mono; [..|exact Hw]; [auto | left; simpl; auto].
  - destruct (when w); [|exact Hw].
    assert (I' : Inv (set_when GateSettled w))
      by (eapply Inv_ext; [..|exact I]; reflexivity).
    assert (K' : timely (set_when GateSettled w))
      by (eapply timely_same; [..|exact Hw]; reflexivity).
    destruct fulfilled;
      [|destruct given; [apply timely_when_catch; auto|exact Hw]].
    unfold when_then. destruct (isDisposed _); [exact K'|].
    apply timely_schedule; assumption.
  - unfold resume. destruct (awaiting w !! k) as [c|] eqn:Hc; [|exact Hw].
    pose proof (Inv_unqueue k w I) as I'.
    assert (K' : timely (set_awaiting (delete k (awaiting w)) w))
      by (eapply timely_same; [..|exact Hw]; reflexivity).
    assert (Hin : c ∈ awaiting w)
      by (eapply list_elem_of_lookup_2; exact Hc).
    pose proof (inv_awaiting w I) as Hok. rewrite Forall_forall in Hok.
    specialize (Hok c Hin).
    destruct (entries (promises w) !! awaited c) as [[| |reason]|];
      try exact Hw.
    + destruct c as [t nx cg | pd st sc cg]; simpl.
      * apply timely_schedule_checked; assumption.
      * apply timely_schedule_arm; [|exact K'].
        destruct Hok as [_ Hst]. intros E D. apply Hst; [exact E|].
        unfold live_state. change (isDisposed w = false) in D. rewrite D.
        reflexivity.
    + simpl. destruct (is_caught c); [apply timely_when_catch|]; assumption.
  - destruct (entries (frames w) !! handle) as [s|] eqn:E; [|exact Hw].
    assert (Hnc : State.phase (state w) <> Phase.constructed).
    { intros Hp. destruct (inv_constructed w I Hp) as (He & _).
      rewrite He, lookup_empty in E. discriminate. }
    apply timely_execute; [apply Inv_drop_frame; assumption|].
    eapply timely_same; [..|exact Hw]; reflexivity.
  - destruct (entries (timeouts w) !! handle) as [[s d]|] eqn:E; [|exact Hw].
    assert (Hnc : State.phase (state w) <> Phase.constructed).
    { intros Hp. destruct (inv_constructed w I Hp) as (_ & He & _).
      rewrite He, lookup_empty in E. discriminate. }
    apply timely_execute; [apply Inv_drop_timeout; assumption|].
    eapply timely_mono; [..|exact Hw]; [|left; simpl; auto].
    simpl. intros h x Hh. apply lookup_delete_Some in Hh. tauto.
  - destruct (entries (requests w) !! request) as [pending|] eqn:E;
      [|exact Hw].
    assert (Hnc : State.phase (state w) <> Phase.constructed).
    { intros Hp. destruct (inv_constructed w I Hp) as (_ & _ & He & _).
      rewrite He, lookup_empty in E. discriminate. }
    pose proof (Inv_drop_request request w Hnc I) as I'.
    assert (K' : timely (set_requests (table_remove request (requests w)) w))
      by (eapply timely_same; [..|exact Hw]; reflexivity).
    destruct outcome as [v | err].
    + unfold factory_then. destruct (_ || _); [exact K'|].
      apply timely_schedule; assumption.
    + destruct (is_draw random); [|exact Hw].
      unfold factory_catch. destruct (_ || _); [exact K'|].
      apply timely_schedule; assumption.
  - destruct (0 <=? ms); [|exact Hw].
    eapply timely_same; [..|exact Hw]; reflexivity.
  - eapply timely_same; [..|exact Hw]; reflexivity.
Qed.

Lemma timely_construct options document time w :
  construct options document time = Normal w -> timely w.
Proof.
  unfold construct. destruct (checked_frequency _) as [f|]; [|discriminate].
  intros H. injection H as <-. intros h x Hh. simpl in Hh.
  rewrite lookup_empty in Hh. discriminate.
Qed.

Lemma reachable_timely w : reachable w -> timely w.
Proof.
  induction 1 as [options document time w H | e w R IH].
  - eapply timely_construct, H.
  - apply timely_step; [apply reachable_Inv, R | exact IH].
Qed.

(** Property X19. Whatever happened to a poll that is not disposed, what is
    armed for its current tick follows the interval of its state: an
    animation frame only when the interval is [IMMEDIATE], a timeout only
    when it is neither [IMMEDIATE] nor [NEVER], and then with the interval
    as its delay; and not both. *)
Theorem armed_closure_follows_the_interval w :
  reachable w ->
  isDisposed w = false ->
  (forall handle,
     entries (frames w) !! handle = Some (tick w) ->
     seq (State.interval (state w)) Private.IMMEDIATE = true)
  /\ (forall handle delay,
        entries (timeouts w) !! handle = Some (tick w, delay) ->
        delay = State.interval (state w)
        /\ seq (State.interval (state w)) Private.IMMEDIATE = false
        /\ seq (State.interval (state w)) Private.NEVER = false)
  /\ (forall handle handle' delay,
        entries (frames w) !! handle = Some (tick w) ->
        entries (timeouts w) !! handle' = Some (tick w, delay) -> False).
Proof.
  intros R D. pose proof (reachable_Inv w R) as I.
  pose proof (reachable_timely w R) as Hw.
  assert (F : forall handle,
            entries (frames w) !! handle = Some (tick w) ->
            seq (State.interval (state w)) Private.IMMEDIATE = true).
  { intros h Hh. destruct (inv_frames w I h _ Hh) as [_ Hi].
    apply Hi; [reflexivity | exact D]. }
  assert (G : forall handle delay,
            entries (timeouts w) !! handle = Some (tick w, delay) ->
            delay = State.interval (state w)
            /\ seq (State.interval (state w)) Private.IMMEDIATE = false
            /\ seq (State.interval (state w)) Private.NEVER = false).
  { intros h d Hh. destruct (Hw h _ Hh eq_refl D) as [Hd Hi]. simpl in Hd, Hi.
    destruct (inv_timeouts w I h _ Hh) as [_ Hn].
    split; [exact Hd|]. split; [rewrite <- Hd; exact Hi|].
    apply Hn; [reflexivity | exact D]. }
  split; [exact F|]. split; [exact G|].
  intros h h' d Hf Ht. pose proof (F h Hf) as E1.
  destruct (G h' d Ht) as (_ & E2 & _). congruence.
Qed.

(** ** The order of the job queue *)

Lemma ascending_snoc (l : list Z) (a : Z) :
  ascending l -> Forall (fun x => x < a) l -> ascending (l ++ [a]).
Proof.
  induction l as [|x l IH]; simpl; intros Hl Ha.
  - split; [constructor | exact I].
  - destruct Hl as [Hx Hl]. apply Forall_cons in Ha as [Hxa Ha]. split.
    + apply Forall_app. split; [exact Hx | apply Forall_singleton, Hxa].
    + apply IH; assumption.
Qed.

Lemma in_order_reachable w : in_order w -> reachable w.
Proof.
  induction 1 as [options document time w H | e w _ _ IH].
  - eapply reachable_construct, H.
  - apply reachable_step, IH.
Qed.

Lemma in_order_run es w :
  forallb is_fifo es = true -> in_order w -> in_order (run es w).
Proof.
  revert w. induction es as [|e es IH]; intros w Hes Hw; [exact Hw|].
  simpl in Hes. apply andb_true_iff in Hes as [He Hes].
  simpl. apply IH; [exact Hes|]. constructor; assumption.
Qed.

Lemma armed_shrinks s w w' :
  (forall h x, entries (frames w') !! h = Some x ->
               entries (frames w) !! h = Some x) ->
  (forall h x, entries (timeouts w') !! h = Some x ->
               entries (timeouts w) !! h = Some x) ->
  armed s w' -> armed s w.
Proof.
  intros Hf Ht [[h H] | (h & d & H)]; [left | right]; eauto.
Qed.

(** Tables that only lose entries and a queue that only loses its head, on
    the same tick and with the same cached handle. *)
Lemma Queue_mono w w' :
  tick w' = tick w ->
  _timeout (poll w') = _timeout (poll w) ->
  (forall h x, entries (frames w') !! h = Some x ->
               entries (frames w) !! h = Some x) ->
  (forall h x, entries (timeouts w') !! h = Some x ->
               entries (timeouts w) !! h = Some x) ->
  to_arm w' = to_arm w \/ (exists s, to_arm w = s :: to_arm w') ->
  Queue w -> Queue w'.
Proof.
  intros Hk Hc Hf Ht Ha [Qa Qd Qf Qt]. constructor.
  - destruct Ha as [-> | [s E]]; [exact Qa|].
    rewrite E in Qa. apply Qa.
  - intros s A. apply (armed_shrinks s w) in A; [|assumption..].
    specialize (Qd s A). destruct Ha as [-> | [s0 E]]; [exact Qd|].
    rewrite E in Qd. apply Forall_cons in Qd. apply Qd.
  - intros h Hh. rewrite Hk in Hh. rewrite Hc. apply Qf, Hf, Hh.
  - intros h d Hh. rewrite Hk in Hh. rewrite Hc. apply (Qt h d), Ht, Hh.
Qed.

Lemma armed_le_tick s w : Inv w -> armed s w -> s <= tick w.
Proof.
  intros I [[h H] | (h & d & H)].
  - destruct (inv_frames w I h s H) as [Hle _]. exact Hle.
  - destruct (inv_timeouts w I h _ H) as [Hle _]. exact Hle.
Qed.

Lemma Queue_schedule_update caught next w :
  Inv w -> Queue w -> Queue (schedule_update caught next w).
Proof.
  intros I [Qa Qd Qf Qt]. pose proof (inv_tick w I) as Hlt.
  assert (Hold : forall s, armed s (schedule_update caught next w) ->
                           armed s w).
  { intros s. rewrite schedule_update_eq.
    apply armed_shrinks; simpl;
      [apply cleared_frames_lookup | apply cleared_timeouts_lookup]. }
  assert (Hnone : ~ armed (fresh (promises w))
                      (schedule_update caught next w)).
  { intros A. apply Hold, (armed_le_tick _ w I) in A. lia. }
  rewrite schedule_update_eq in *. constructor.
  - unfold to_arm. simpl. rewrite omap_app. simpl.
    apply ascending_snoc; [exact Qa|].
    eapply Forall_impl; [apply (to_arm_le w I)|]. simpl. intros x Hx. lia.
  - intros s A. pose proof (Hold s A) as A'.
    unfold to_arm. simpl. rewrite omap_app. simpl.
    apply Forall_app. split; [apply Qd, A'|].
    apply Forall_singleton. pose proof (armed_le_tick s w I A'). lia.
  - intros h Hh. exfalso. apply Hnone. left. exists h. exact Hh.
  - intros h d Hh. exfalso. apply Hnone. right. exists h, d. exact Hh.
Qed.

Lemma Queue_schedule_checked caught next w :
  Inv w -> Queue w -> Queue (schedule_checked caught next w).
Proof.
  intros I Hq. unfold schedule_checked.
  destruct (Next.cancel next) as [c|]; [destruct (c (state w)); [exact Hq|]|];
    apply Queue_schedule_update; assumption.
Qed.

Lemma Queue_schedule caught next w :
  Inv w -> Queue w -> Queue (schedule caught next w).
Proof.
  intros I Hq. unfold schedule. destruct (isDisposed w); [exact Hq|].
  destruct (_ && _); [|apply Queue_schedule_checked; assumption].
  apply (Queue_mono w); simpl; auto.
  left. unfold to_arm. simpl. rewrite omap_app. simpl. apply app_nil_r.
Qed.

(** Arming the closure of the call at the head of the queue. *)
Lemma Queue_schedule_arm st sc w :
  sc <= tick w ->
  Forall (Z.lt sc) (to_arm w) ->
  (forall s, armed s w -> s < sc) ->
  Queue w -> Queue (schedule_arm st sc w).
Proof.
  intros Hle Hhead Hold [Qa Qd Qf Qt].
  assert (Hnone : ~ armed (tick w) w).
  { intros A. specialize (Hold _ A). lia. }
  unfold schedule_arm.
  destruct (seq (State.interval st) Private.IMMEDIATE);
    [|destruct (seq (State.interval st) Private.NEVER)].
  - constructor; simpl.
    + exact Qa.
    + intros s [[h H] | (h & d & H)]; simpl in H.
      * destruct (decide (h = fresh (frames w))) as [->|Hne].
        -- rewrite lookup_insert_eq in H. injection H as <-. exact Hhead.
        -- rewrite lookup_insert_ne in H by congruence.
           apply Qd. left. exists h. exact H.
      * apply Qd. right. exists h, d. exact H.
    + intros h Hh. destruct (decide (h = fresh (frames w))) as [->|Hne];
        [reflexivity|].
      rewrite lookup_insert_ne in Hh by congruence.
      exfalso. apply Hnone. left. exists h. exact Hh.
    + intros h d Hh. exfalso. apply Hnone. right. exists h, d. exact Hh.
  - constructor; simpl.
    + exact Qa.
    + intros s A. apply Qd. exact A.
    + intros h Hh. exfalso. apply Hnone. left. exists h. exact Hh.
    + intros h d Hh. exfalso. apply Hnone. right. exists h, d. exact Hh.
  - constructor; simpl.
    + exact Qa.
    + intros s [[h H] | (h & d & H)]; simpl in H.
      * apply Qd. left. exists h. exact H.
      * destruct (decide (h = fresh (timeouts w))) as [->|Hne].
        -- rewrite lookup_insert_eq in H. injection H as <- _. exact Hhead.
        -- rewrite lookup_insert_ne in H by congruence.
           apply Qd. right. exists h, d. exact H.
    + intros h Hh. exfalso. apply Hnone. left. exists h. exact Hh.
    + intros h d Hh. destruct (decide (h = fresh (timeouts w))) as [->|Hne];
        [reflexivity|].
      rewrite lookup_insert_ne in Hh by congruence.
      exfalso. apply Hnone. right. exists h, d. exact Hh.
Qed.

Lemma Queue_execute s w : Inv w -> Queue w -> Queue (execute s w).
Proof.
  intros I Hq. unfold execute. destruct (_ || _); [exact Hq|].
  unfold _execute. destruct (resolve_standby _ _).
  - apply Queue_schedule; assumption.
  - apply (Queue_mono w); simpl; auto.
Qed.

Lemma Queue_when_catch w : Inv w -> Queue w -> Queue (when_catch w).
Proof.
  intros I Hq. unfold when_catch. destruct (isDisposed w); [exact Hq|].
  apply Queue_schedule.
  - eapply Inv_ext; [..|exact I]; reflexivity.
  - apply (Queue_mono w); simpl; auto.
Qed.

Lemma Queue_step e w :
  is_fifo e = true -> Inv w -> Queue w -> Queue (step e w).
Proof.
  intros He I Hq.
  destruct e as
    [ | | | | f | policy | fulfilled | k | handle | handle
    | request outcome random | ms | doc ]; simpl.
  - unfold dispose. destruct (isDisposed w); [exact Hq|].
    apply (Queue_mono w); simpl; auto.
  - apply Queue_schedule; assumption.
  - apply Queue_schedule; assumption.
  - apply Queue_schedule; assumption.
  - unfold set_frequency. destruct (_ || _); [exact Hq|].
    destruct (checked_frequency f); [|exact Hq].
    apply (Queue_mono w); simpl; auto.
  - unfold set_standby. destruct (isDisposed w); [exact Hq|].
    apply (Queue_mono w); simpl; auto.
  - destruct (when w); [|exact Hq].
    assert (I' : Inv (set_when GateSettled w))
      by (eapply Inv_ext; [..|exact I]; reflexivity).
    assert (Q' : Queue (set_when GateSettled w))
      by (apply (Queue_mono w); simpl; auto).
    destruct fulfilled;
      [|destruct given; [apply Queue_when_catch; auto|exact Hq]].
    unfold when_then. destruct (isDisposed _); [exact Q'|].
    apply Queue_schedule; assumption.
  - simpl in He. apply Nat.eqb_eq in He. subst k.
    unfold resume. destruct (awaiting w !! 0%nat) as [c|] eqn:Hc; [|exact Hq].
    destruct (awaiting w) as [|c0 rest] eqn:Ea; [discriminate Hc|].
    simpl in Hc. injection Hc as ->.
    pose proof (Inv_unqueue 0 w I) as I'. rewrite Ea in I'. simpl in I'.
    assert (Ht : to_arm w =
                 match arming c with
                 | Some s => s :: omap arming rest
                 | None => omap arming rest
                 end).
    { unfold to_arm. rewrite Ea. simpl. destruct (arming c); reflexivity. }
    assert (Q' : Queue (set_awaiting rest w)).
    { apply (Queue_mono w); simpl; auto.
      change (to_arm (set_awaiting rest w)) with (omap arming rest).
      rewrite Ht.
      destruct (arming c) as [s|]; [right; exists s | left]; reflexivity. }
    pose proof (inv_awaiting w I) as Hok. rewrite Ea in Hok.
    apply Forall_cons in Hok as [Hok _].
    simpl. destruct (entries (promises w) !! awaited c) as [[| |reason]|];
      try exact Hq.
    + destruct c as [t nx cg | pd st sc cg]; simpl.
      * apply Queue_schedule_checked; assumption.
      * simpl in Ht. destruct Hq as [Qa Qd Qf Qt].
        rewrite Ht in Qa. destruct Qa as [Hhead _].
        apply Queue_schedule_arm; [apply Hok | exact Hhead | | exact Q'].
        intros s A. assert (A' : armed s w) by exact A.
        specialize (Qd s A'). rewrite Ht in Qd.
        apply Forall_cons in Qd. apply Qd.
    + simpl. destruct (is_caught c); [apply Queue_when_catch|]; assumption.
  - destruct (entries (frames w) !! handle) as [s|] eqn:E; [|exact Hq].
    assert (Hnc : State.phase (state w) <> Phase.constructed).
    { intros Hp. destruct (inv_constructed w I Hp) as (Hem & _).
      rewrite Hem, lookup_empty in E. discriminate. }
    apply Queue_execute; [apply Inv_drop_frame; assumption|].
    apply (Queue_mono w); simpl; auto.
    intros h x Hh. apply lookup_delete_Some in Hh. tauto.
  - destruct (entries (timeouts w) !! handle) as [[s d]|] eqn:E; [|exact Hq].
    assert (Hnc : State.phase (state w) <> Phase.constructed).
    { intros Hp. destruct (inv_constructed w I Hp) as (_ & Hem & _).
      rewrite Hem, lookup_empty in E. discriminate. }
    apply Queue_execute; [apply Inv_drop_timeout; assumption|].
    apply (Queue_mono w); simpl; auto.
    intros h x Hh. apply lookup_delete_Some in Hh. tauto.
  - destruct (entries (requests w) !! request) as [pending|] eqn:E;
      [|exact Hq].
    assert (Hnc : State.phase (state w) <> Phase.constructed).
    { intros Hp. destruct (inv_constructed w I Hp) as (_ & _ & Hem & _).
      rewrite Hem, lookup_empty in E. discriminate. }
    pose proof (Inv_drop_request request w Hnc I) as I'.
    assert (Q' : Queue (set_requests (table_remove request (requests w)) w))
      by (apply (Queue_mono w); simpl; auto).
    destruct outcome as [v | err].
    + unfold factory_then. destruct (_ || _); [exact Q'|].
      apply Queue_schedule; assumption.
    + destruct (is_draw random); [|exact Hq].
      unfold factory_catch. destruct (_ || _); [exact Q'|].
      apply Queue_schedule; assumption.
  - destruct (0 <=? ms); [|exact Hq].
    apply (Queue_mono w); simpl; auto.
  - apply (Queue_mono w); simpl; auto.
Qed.

Lemma Queue_construct options document time w :
  construct options document time = Normal w -> Queue w.
Proof.
  unfold construct. destruct (checked_frequency _) as [f|]; [|discriminate].
  intros H. injection H as <-.
  constructor; simpl.
  - exact I.
  - intros s _. constructor.
  - intros h Hh. rewrite lookup_empty in Hh. discriminate.
  - intros h d Hh. rewrite lookup_empty in Hh. discriminate.
Qed.

Lemma in_order_Queue w : in_order w -> Queue w.
Proof.
  induction 1 as [options document time w H | e w He Hw IH].
  - eapply Queue_construct, H.
  - apply Queue_step;
      [exact He | apply reachable_Inv, in_order_reachable, Hw | exact IH].
Qed.

(** [stop()] leaves no closure armed for the tick it was called on. *)
Lemma stop_cancels_the_live_closure w :
  Inv w -> timely w -> Queue w -> isDisposed w = false ->
  ~ armed (tick w) (stop w).
Proof.
  intros I Ht Hq D.
  assert (Hlive : forall w', armed (tick w) w' ->
            (forall h x, entries (frames w') !! h = Some x ->
                         entries (frames w) !! h = Some x) ->
            (forall h x, entries (timeouts w') !! h = Some x ->
                         entries (timeouts w) !! h = Some x) ->
            (exists h, entries (frames w) !! h = Some (tick w)
                       /\ entries (frames w') !! h = Some (tick w)
                       /\ _timeout (poll w) = h
                       /\ seq (State.interval (state w)) Private.IMMEDIATE
                          = true)
            \/ (exists h d,
                  entries (timeouts w) !! h = Some (tick w, d)
                  /\ entries (timeouts w') !! h = Some (tick w, d)
                  /\ _timeout (poll w) = h
                  /\ seq (State.interval (state w)) Private.IMMEDIATE
                     = false)).
  { intros w' [[h H] | (h & d & H)] Hf Hto.
    - left. exists h. pose proof (Hf h _ H) as H0.
      split; [exact H0|]. split; [exact H|].
      split; [apply (queue_frames w Hq), H0|].
      destruct (inv_frames w I h _ H0) as [_ Hi]. apply Hi; [reflexivity|exact D].
    - right. exists h, d. pose proof (Hto h _ H) as H0.
      split; [exact H0|]. split; [exact H|].
      split; [apply (queue_timeouts w Hq h d), H0|].
      destruct (Ht h _ H0 eq_refl D) as [Hd Hi]. simpl in Hd, Hi.
      rewrite <- Hd. exact Hi. }
  unfold stop, schedule. rewrite D.
  destruct (phase_is (State.phase (state w)) Phase.constructed) eqn:Ec; simpl.
  - apply bool_decide_eq_true in Ec.
    destruct (inv_constructed w I Ec) as (Hf & Hto & _).
    intros [[h H] | (h & d & H)]; simpl in H.
    + rewrite Hf, lookup_empty in H. discriminate.
    + rewrite Hto, lookup_empty in H. discriminate.
  - unfold schedule_checked. simpl.
    destruct (phase_is (State.phase (state w)) Phase.stopped) eqn:Es.
    + apply bool_decide_eq_true in Es.
      pose proof (inv_stopped w I Es) as Hn.
      intros A. destruct (Hlive w A) as [(h & H0 & _ & _ & Hi) | (h & d & H0 & _)];
        auto.
      * rewrite Hn in Hi. discriminate Hi.
      * destruct (inv_timeouts w I h _ H0) as [_ Hnv].
        specialize (Hnv eq_refl D). rewrite Hn in Hnv. discriminate Hnv.
    + rewrite schedule_update_eq. intros A.
      destruct (Hlive _ A) as [(h & H0 & H1 & Hc & Hi) | (h & d & H0 & H1 & Hc & Hi)];
        simpl; try apply cleared_frames_lookup;
        try apply cleared_timeouts_lookup.
      * simpl in H1. unfold cleared_frames in H1. rewrite Hi, Hc in H1.
        simpl in H1. rewrite lookup_delete_eq in H1. discriminate.
      * simpl in H1. unfold cleared_timeouts in H1. rewrite Hi, Hc in H1.
        simpl in H1. rewrite lookup_delete_eq in H1. discriminate.
Qed.

(** ** Armed closures after [stop] and [dispose] *)


End FurtherProperties.

(** ** Instances of the further properties *)


(** Property X3 on the scenario poll, whose gate is fulfilled after some
    calls. *)
Lemma gate_settlement_schedules_the_first_tick_witness :
  construct scenario_options None 0 = Normal scenario_poll
  /\ forallb (fun e : @Event string string => negb (is_gate e)) gated_calls
     = true
  /\ isDisposed (run gated_calls scenario_poll) = false
  /\ (true = true \/ IOptions.when scenario_options = true)
  /\ let w := run gated_calls scenario_poll in
     let w' := step (GateSettles true) w in
     state w' = State.mk Private.IMMEDIATE None Phase.when_resolved (now w)
     /\ ticked w' = [state w']
     /\ tick w' = 1
     /\ entries (promises w') !! 0 = Some Fulfilled
     /\ awaiting w' = awaiting w ++ [AwaitPending 0 (state w') 1 true]
     /\ invoked w' = []
     /\ (forall again, step (GateSettles again) w' = w').
Proof.
  assert (H1 : forallb (fun e : @Event string string => negb (is_gate e))
                 gated_calls = true) by reflexivity.
  assert (H2 : isDisposed (run gated_calls scenario_poll) = false)
    by (vm_compute; reflexivity).
  assert (H3 : true = true \/ IOptions.when scenario_options = true)
    by (left; reflexivity).
  split; [exact scenario_poll_constructed|].
  split; [exact H1|]. split; [exact H2|]. split; [exact H3|].
  apply (gate_settlement_schedules_the_first_tick scenario_options None 0
           scenario_poll gated_calls true scenario_poll_constructed H1 H2 H3).
Defined.

(** Property X4 on the first frame of the scenario, which never stands
    by. *)
Lemma live_closure_fires_witness :
  reachable scenario_armed
  /\ isDisposed scenario_armed = false
  /\ entries (frames scenario_armed) !! 1 = Some (tick scenario_armed)
  /\ let w' := step (FrameFires 1) scenario_armed in
     state w' = state scenario_armed
     /\ ticked w' = ticked scenario_armed
     /\ invoked w' = invoked scenario_armed ++ [state scenario_armed]
     /\ requests w' = table_add (tick scenario_armed) (requests scenario_armed).
Proof.
  assert (R : reachable scenario_armed) by apply scenario_reachable.
  assert (H1 : isDisposed scenario_armed = false) by (vm_compute; reflexivity).
  assert (H2 : entries (frames scenario_armed) !! 1 = Some (tick scenario_armed))
    by (vm_compute; reflexivity).
  split; [exact R|]. split; [exact H1|]. split; [exact H2|].
  apply (live_closure_fires scenario_armed 1 (FrameFires 1) R H1
           (or_introl (conj eq_refl H2))).
Defined.

(** Property X5 on the armed frame of the scenario, once the policy is
    changed to a predicate that always stands by. *)
Lemma standby_change_applies_to_the_armed_tick_witness :
  reachable scenario_armed
  /\ isDisposed scenario_armed = false
  /\ entries (frames scenario_armed) !! 1 = Some (tick scenario_armed)
  /\ let w1 := set_standby standby_true scenario_armed in
     let w' := step (FrameFires 1) w1 in
     state w1 = state scenario_armed
     /\ tick w1 = tick scenario_armed
     /\ ticked w1 = ticked scenario_armed
     /\ State.phase (state w') = Phase.standby
     /\ ticked w' = ticked scenario_armed ++ [state w']
     /\ invoked w' = invoked scenario_armed.
Proof.
  assert (R : reachable scenario_armed) by apply scenario_reachable.
  assert (H1 : isDisposed scenario_armed = false) by (vm_compute; reflexivity).
  assert (H2 : entries (frames scenario_armed) !! 1 = Some (tick scenario_armed))
    by (vm_compute; reflexivity).
  split; [exact R|]. split; [exact H1|]. split; [exact H2|].
  apply (standby_change_applies_to_the_armed_tick scenario_armed standby_true
           1 (FrameFires 1) R H1 (or_introl (conj eq_refl H2))).
Defined.

(** Property X6 on the first invocation of the scenario. *)
Lemma rejection_schedules_rejected_witness :
  reachable outstanding_world
  /\ entries (requests outstanding_world) !! 0 = Some 1
  /\ isDisposed outstanding_world = false
  /\ tick outstanding_world = 1
  /\ is_draw (1 # 2) = true
  /\ let w' :=
       step (FactorySettles 0 (inr "fail"%string) (1 # 2)) outstanding_world in
     state w' =
       State.mk
         (Private.sleep (Fin (1 # 2)) (frequency outstanding_world)
            (state outstanding_world))
         (Some (inr "fail"%string)) Phase.rejected (now outstanding_world)
     /\ ticked w' = ticked outstanding_world ++ [state w']
     /\ invoked w' = invoked outstanding_world
     /\ entries (requests w') !! 0 = None.
Proof.
  assert (R : reachable outstanding_world) by apply scenario_reachable.
  assert (H1 : entries (requests outstanding_world) !! 0 = Some 1)
    by (vm_compute; reflexivity).
  assert (H2 : isDisposed outstanding_world = false)
    by (vm_compute; reflexivity).
  assert (H3 : tick outstanding_world = 1) by (vm_compute; reflexivity).
  assert (H4 : is_draw (1 # 2) = true) by reflexivity.
  repeat (split; [assumption|]).
  apply (rejection_schedules_rejected outstanding_world 0 1 "fail"%string
           (1 # 2) R H1 H2 H3 H4).
Defined.

(** Property X7 on the state of the second invocation of the scenario. *)
Lemma factory_is_called_with_callable_states_witness :
  reachable rejected_world
  /\ rejected_state ∈ invoked rejected_world
  /\ seq (State.interval rejected_state) Private.NEVER = false
  /\ State.phase rejected_state <> Phase.constructed
  /\ State.phase rejected_state <> Phase.disposed
  /\ State.phase rejected_state <> Phase.stopped.
Proof.
  assert (R : reachable rejected_world) by apply scenario_reachable.
  assert (H : rejected_state ∈ invoked rejected_world)
    by (vm_compute; apply list_elem_of_further, list_elem_of_here).
  split; [exact R|]. split; [exact H|].
  apply (factory_is_called_with_callable_states rejected_world rejected_state
           R H).
Defined.

(** Property X8 on the first invocation of the scenario. *)
Lemma one_outstanding_request_per_tick_witness :
  reachable outstanding_world
  /\ entries (requests outstanding_world) !! 0 = Some 1
  /\ (forall other,
        entries (requests outstanding_world) !! other = Some 1 -> other = 0)
  /\ ~ armed 1 outstanding_world
  /\ 1 ∉ to_arm outstanding_world.
Proof.
  assert (R : reachable outstanding_world) by apply scenario_reachable.
  assert (H : entries (requests outstanding_world) !! 0 = Some 1)
    by (vm_compute; reflexivity).
  split; [exact R|]. split; [exact H|].
  apply (one_outstanding_request_per_tick outstanding_world 0 1 R H).
Defined.

(** Property X9 on the scenario after its second invocation. *)
Lemma tick_promises_settle_in_order_witness :
  reachable rejected_world
  /\ tick rejected_world = Z.of_nat (length (ticked rejected_world))
  /\ fresh (promises rejected_world) = tick rejected_world + 1
  /\ (forall k, 0 <= k < tick rejected_world ->
        exists s,
          entries (promises rejected_world) !! k = Some s /\ s <> Pending)
  /\ (isDisposed rejected_world = false ->
      entries (promises rejected_world) !! tick rejected_world = Some Pending).
Proof.
  assert (R : reachable rejected_world) by apply scenario_reachable.
  split; [exact R|].
  apply (tick_promises_settle_in_order rejected_world R).
Defined.

(** Property X10 on the scenario that rejects and then resolves. *)
Lemma ticked_ends_with_the_current_state_witness :
  construct scenario_options None 0 = Normal scenario_poll
  /\ forallb (fun e : @Event string string => negb (is_dispose e))
       scenario_reconnect = true
  /\ let w := run scenario_reconnect scenario_poll in
     last (ticked w) = Some (state w)
     \/ (ticked w = [] /\ state w = state scenario_poll).
Proof.
  assert (H : forallb (fun e : @Event string string => negb (is_dispose e))
                scenario_reconnect = true) by reflexivity.
  split; [exact scenario_poll_constructed|]. split; [exact H|].
  apply (ticked_ends_with_the_current_state scenario_options None 0
           scenario_poll scenario_reconnect scenario_poll_constructed H).
Defined.

(** Property X11 on the scenario poll with its first frame armed. *)
Lemma stop_twice_one_transition_witness :
  reachable scenario_armed
  /\ isDisposed scenario_armed = false
  /\ State.phase (state scenario_armed) <> Phase.constructed
  /\ let w1 := stop scenario_armed in
     state w1 =
       State.mk Private.NEVER None Phase.stopped
         (if phase_is (State.phase (state scenario_armed)) Phase.stopped
          then State.timestamp (state scenario_armed)
          else now scenario_armed)
     /\ stop w1 = w1
     /\ ticked w1 =
          ticked scenario_armed ++
          (if phase_is (State.phase (state scenario_armed)) Phase.stopped
           then [] else [state w1]).
Proof.
  assert (R : reachable scenario_armed) by apply scenario_reachable.
  assert (H1 : isDisposed scenario_armed = false) by (vm_compute; reflexivity).
  assert (H2 : State.phase (state scenario_armed) <> Phase.constructed)
    by (vm_compute; discriminate).
  split; [exact R|]. split; [exact H1|]. split; [exact H2|].
  apply (stop_twice_one_transition scenario_armed R H1 H2).
Defined.

(** Property X12 on the scenario poll with its first frame armed. *)
Lemma stop_then_start_restarts_witness :
  isDisposed scenario_armed = false
  /\ State.phase (state scenario_armed) <> Phase.constructed
  /\ let w1 := stop scenario_armed in
     let w2 := start w1 in
     State.phase (state w1) = Phase.stopped
     /\ state w2 =
          State.mk Private.IMMEDIATE None Phase.started (now scenario_armed)
     /\ ticked w2 = ticked w1 ++ [state w2]
     /\ tick w2 = fresh (promises w1).
Proof.
  assert (H1 : isDisposed scenario_armed = false) by (vm_compute; reflexivity).
  assert (H2 : State.phase (state scenario_armed) <> Phase.constructed)
    by (vm_compute; discriminate).
  split; [exact H1|]. split; [exact H2|].
  apply (stop_then_start_restarts scenario_armed H1 H2).
Defined.

(** Property X13 on the stopped scenario, whose frame is still armed and
    whose call of [stop] is still to arm nothing. *)
Lemma stopped_poll_stays_stopped_witness :
  reachable stopped_world
  /\ State.phase (state stopped_world) = Phase.stopped
  /\ Forall is_await_pending (awaiting stopped_world)
  /\ forallb is_quiet quiet_events = true
  /\ let w' := run quiet_events stopped_world in
     state w' = state stopped_world
     /\ tick w' = tick stopped_world
     /\ ticked w' = ticked stopped_world
     /\ invoked w' = invoked stopped_world.
Proof.
  assert (R : reachable stopped_world) by apply scenario_reachable.
  assert (H1 : State.phase (state stopped_world) = Phase.stopped)
    by (vm_compute; reflexivity).
  assert (H2 : Forall is_await_pending (awaiting stopped_world))
    by (vm_compute; repeat constructor).
  assert (H3 : forallb (@is_quiet string string) quiet_events = true)
    by reflexivity.
  repeat (split; [assumption|]).
  apply (stopped_poll_stays_stopped stopped_world quiet_events R H1 H2 H3).
Defined.

(** Property X14 on the scenario disposed behind its gate. *)
Lemma disposed_poll_ignores_every_event_witness :
  isDisposed gated_disposed_world = true
  /\ Forall (harmless gated_disposed_world) (awaiting gated_disposed_world)
  /\ let w' := run late_events gated_disposed_world in
     state w' = state gated_disposed_world
     /\ tick w' = tick gated_disposed_world
     /\ frequency w' = frequency gated_disposed_world
     /\ _standby (poll w') = _standby (poll gated_disposed_world)
     /\ promises w' = promises gated_disposed_world
     /\ ticked w' = ticked gated_disposed_world
     /\ invoked w' = invoked gated_disposed_world
     /\ disposed_emitted w' = disposed_emitted gated_disposed_world.
Proof.
  assert (H1 : isDisposed gated_disposed_world = true)
    by (vm_compute; reflexivity).
  assert (H2 : Forall (harmless gated_disposed_world)
                 (awaiting gated_disposed_world)).
  { apply Forall_forall. intros c Hc.
    assert (E : awaiting gated_disposed_world
                = [AwaitTick 0 start_next false]) by (vm_compute; reflexivity).
    rewrite E in Hc. apply list_elem_of_singleton in Hc. subst c.
    exists "Poll (unknown) is disposed."%string. vm_compute. reflexivity. }
  split; [exact H1|]. split; [exact H2|].
  apply (disposed_poll_ignores_every_event gated_disposed_world late_events
           H1 H2).
Defined.

(** Property X15 on the scenario poll with its first frame armed. *)
Lemma set_frequency_is_idempotent_witness :
  reachable scenario_armed
  /\ set_frequency (frequency scenario_armed) scenario_armed
     = Normal scenario_armed
  /\ (forall f w',
        set_frequency f scenario_armed = Normal w' ->
        set_frequency f w' = Normal w'
        /\ set_frequency (frequency w') w' = Normal w'
        /\ state w' = state scenario_armed /\ tick w' = tick scenario_armed).
Proof.
  assert (R : reachable scenario_armed) by apply scenario_reachable.
  split; [exact R|].
  apply (set_frequency_is_idempotent scenario_armed R).
Defined.

(** Property X19 on the scenario that waits to retry after a rejection. *)
Lemma armed_closure_follows_the_interval_witness :
  reachable backing_off_world
  /\ isDisposed backing_off_world = false
  /\ (forall handle,
        entries (frames backing_off_world) !! handle
        = Some (tick backing_off_world) ->
        seq (State.interval (state backing_off_world)) Private.IMMEDIATE
        = true)
  /\ (forall handle delay,
        entries (timeouts backing_off_world) !! handle
        = Some (tick backing_off_world, delay) ->
        delay = State.interval (state backing_off_world)
        /\ seq (State.interval (state backing_off_world)) Private.IMMEDIATE
           = false
        /\ seq (State.interval (state backing_off_world)) Private.NEVER
           = false)
  /\ (forall handle handle' delay,
        entries (frames backing_off_world) !! handle
        = Some (tick backing_off_world) ->
        entries (timeouts backing_off_world) !! handle'
        = Some (tick backing_off_world, delay) -> False).
Proof.
  assert (R : reachable backing_off_world) by apply scenario_reachable.
  assert (D : isDisposed backing_off_world = false)
    by (vm_compute; reflexivity).
  split; [exact R|]. split; [exact D|].
  apply (armed_closure_follows_the_interval backing_off_world R D).
Defined.

(** The timeout of the retry is armed with the interval that
    [Private.sleep] drew. *)
Example scenario_retry_timeout :
  entries (timeouts backing_off_world) !! 1
  = Some (tick backing_off_world, State.interval (state backing_off_world))
  /\ State.interval (state backing_off_world) = of_Z 5.
Proof. vm_compute. split; reflexivity. Qed.


(** The order of the job queue matters: were the call of [refresh]
    resumed before the call of the gate handler that precedes it in the
    queue, the handle cached last would be the one of the superseded
    closure, and [stop()] would cancel that one. *)
Example stop_after_an_out_of_order_resume :
  let w :=
    run [GateSettles true; CallRefresh; Resume 1; Resume 0] scenario_poll in
  forallb (@is_fifo string string)
    [GateSettles true; CallRefresh; Resume 1; Resume 0] = false
  /\ entries (frames w) !! 1 = Some (tick w)
  /\ _timeout (poll w) = 2
  /\ entries (frames (stop w)) !! 1 = Some (tick w).
Proof. vm_compute. repeat split; reflexivity. Qed.

(** [stop()] also cancels the timeout of a retry. *)
Example stop_cancels_the_retry_timeout :
  entries (timeouts backing_off_world) !! 1
  = Some (tick backing_off_world, of_Z 5)
  /\ entries (timeouts (stop backing_off_world)) !! 1 = None.
Proof. vm_compute. split; reflexivity. Qed.

(** ** A disposed poll that comes back *)

(** Claim C4. [dispose()] is not final in the code. [schedule] tests
    [isDisposed] on entry only: a call that [await this.tick] suspended at
    the gate goes on to its transition once it is resumed, whatever
    happened meanwhile. On the scenario poll, [stop()] is called before the
    gate settles; the gate settles, which resolves the first tick; and
    [dispose()] is called before the job queue resumes [stop()], which is
    first in that queue. The poll is then disposed and has emitted [disposed] once. The call of [stop()],
    resumed, makes its transition all the same: the poll is not disposed
    any more, its phase is ['stopped'] and it has emitted that state. A
    [refresh()] called afterwards changes the state again, and a second
    [dispose()] emits [disposed] a second time. *)
Theorem suspended_call_revives_a_disposed_poll :
  let w := run [CallStop; GateSettles true; CallDispose] scenario_poll in
  let w1 := step (Resume 0) w in
  let w2 := dispose (refresh w1) in
  forallb (@is_fifo string string)
    [CallStop; GateSettles true; CallDispose; Resume 0] = true
  /\ isDisposed w = true
  /\ disposed_emitted w = 1%nat
  /\ awaiting w !! 0%nat = Some (AwaitTick 0 stop_next false)
  /\ entries (promises w) !! 0 = Some Fulfilled
  /\ isDisposed w1 = false
  /\ State.phase (state w1) = Phase.stopped
  /\ ticked w1 = ticked w ++ [state w1]
  /\ State.phase (state (refresh w1)) = Phase.refreshed
  /\ isDisposed w2 = true
  /\ disposed_emitted w2 = 2%nat.
Proof. vm_compute. repeat split; reflexivity. Qed.

(** ** Rounding *)

(** The product of 20 and the double nearest to 1.15 lies half-way
    between two doubles; it rounds to the one with the even significand,
    which is 23. *)
Example mul_rounds_ties_to_even :
  mul (of_Z 20) (Fin (5179139571476070 # 4503599627370496)) = of_Z 23.
Proof. vm_compute. reflexivity. Qed.

(** The double nearest to a third, times 3, rounds to 1: on the range from
    0 to 2 that draw gives 1. *)
Example getRandomIntInclusive_rounds_the_product :
  Private.getRandomIntInclusive
    (Fin (6004799503160661 # 18014398509481984)) (of_Z 0) (of_Z 2)
  = of_Z 1.
Proof. vm_compute. reflexivity. Qed.

(** A product beyond the largest double is [Infinity], and a draw of 0
    times [Infinity] is [NaN], which [Math.min] hands on. *)
Example sleep_of_an_overflowing_growth :
  mul (of_Z 10) (of_Z (2 ^ 1023)) = PInf
  /\ Private.sleep (T := string) (U := string) (of_Z 0)
       (Frequency.mk (BNum (of_Z (2 ^ 1023))) (of_Z 10) (of_Z 100))
       (State.mk (of_Z 10) None Phase.rejected 0)
     = NaN.
Proof. vm_compute. split; reflexivity. Qed.
